(** * meetbotlocal: per-participant audio capture for a conferencing session

    A shallow embedding of the capture pipeline of the repository:
    the Node-side raw writers and WAV finalizer of [botv3.js], the
    atomic JSON writer, the participant streams, the silence gate and
    the frame handlers of [meetbot-v2.js], and the sample conversion and
    down-mix helpers shared by the page hooks.

    Conventions.
    - A byte is a [Z] in [0, 256); a file or a [Buffer] is a [list Z].
    - A JavaScript [Map] keyed by strings is a [gmap string _] where only
      lookups matter, and an association list where iteration order does.
    - Code that throws is a function in the monad [M] below: a thrown
      exception keeps whatever the code had already done to the state.
    - A call of a method or a function that the object or the scope does
      not have throws, as it does in JavaScript.
    - The disk is a map from paths to contents.  For [botv3.js] the
      directories are not modelled, and a synchronous file call fails
      only for a reason the program can cause (a missing file, a closed
      descriptor); for [sendParticipantAudioChunk], which tests for its
      folders, the folders that exist are part of the state, and the
      file system may refuse to make one.  The failures the operating
      system may add to the file calls of [writeJsonAtomic] are inputs
      of that function.
    - A write stream writes in the background: what it was given and has
      not written yet is part of the state.
    - A sample is a rational, an infinity or NaN.  The arithmetic of the
      down-mix rounds as IEEE 754 does, to a double and, on a store into
      a [Float32Array], to a float32. *)

From Stdlib Require Import ZArith QArith Qround Qminmax Qabs Qpower Lia List String Ascii.
From stdpp Require Import gmap strings list fin_maps pretty.

Local Open Scope Z_scope.

(** ** Exceptions and the state monad of the Node side *)

Inductive error : Type :=
| ENOENT (path : string)          (* no such file *)
| EBADF (fd : nat)                (* descriptor not open (for this use) *)
| ERR_OUT_OF_RANGE (value : Z)    (* Buffer.writeUInt32LE range check *)
| EXDEV                           (* rename across volumes *)
| EIO (what : string)             (* any other I/O failure *)
| TypeError (what : string)       (* a call of something that is no function *)
| RangeError (what : string)      (* an invalid length *)
| ReferenceError (what : string)  (* a name that is not declared *)
| Diverged.                       (* loop fuel exhausted: never a JS outcome *)

Inductive result (A : Type) : Type :=
| Ok (a : A)
| Throw (e : error).
Arguments Ok {A} a.
Arguments Throw {A} e.

Definition M (S A : Type) : Type := S -> result A * S.

Global Instance M_ret {S} : MRet (M S) := fun A a s => (Ok a, s).
Global Instance M_bind {S} : MBind (M S) := fun A B k m s =>
  match m s with
  | (Ok a, s') => k a s'
  | (Throw e, s') => (Throw e, s')
  end.
Definition ret {S A} (a : A) : M S A := mret a.
Definition throw {S A} (e : error) : M S A := fun s => (Throw e, s).
Definition modify {S} (f : S -> S) : M S unit := fun s => (Ok tt, f s).
(** [try { m } catch (e) { h e }] *)
Definition try_catch {S A} (m : M S A) (h : error -> M S A) : M S A :=
  fun s => match m s with
           | (Ok a, s') => (Ok a, s')
           | (Throw e, s') => h e s'
           end.

(** ** The file system, as far as [fs.*Sync] is used *)

Module Fs.

Inductive flag : Type := FlagR | FlagW.

Record fdesc : Type := { fd_path : string; fd_pos : nat; fd_flag : flag }.

Record t : Type := {
  files : gmap string (list Z);
  fds : gmap nat fdesc;
  next_fd : nat
}.

Definition with_files (f : gmap string (list Z)) (s : t) : t :=
  {| files := f; fds := fds s; next_fd := next_fd s |}.
Definition with_fds (d : gmap nat fdesc) (s : t) : t :=
  {| files := files s; fds := d; next_fd := next_fd s |}.

(** [fs.statSync(p).size] *)
Definition statSync (p : string) : M t Z :=
  fun s => match files s !! p with
           | Some c => (Ok (Z.of_nat (length c)), s)
           | None => (Throw (ENOENT p), s)
           end.

(** [fs.openSync(p, 'w')] creates or truncates; [fs.openSync(p, 'r')]
    needs the file.  The descriptor starts at offset 0. *)
Definition openSync (p : string) (fl : flag) : M t nat :=
  fun s =>
    let fd := next_fd s in
    match fl with
    | FlagW =>
        (Ok fd, {| files := <[p := []]> (files s);
                   fds := <[fd := {| fd_path := p; fd_pos := 0; fd_flag := FlagW |}]> (fds s);
                   next_fd := S fd |})
    | FlagR =>
        match files s !! p with
        | Some _ =>
            (Ok fd, {| files := files s;
                       fds := <[fd := {| fd_path := p; fd_pos := 0; fd_flag := FlagR |}]> (fds s);
                       next_fd := S fd |})
        | None => (Throw (ENOENT p), s)
        end
    end.

(** Bytes [buf] put at offset [pos] of [old]; a gap is zero-filled. *)
Definition write_at (pos : nat) (buf old : list Z) : list Z :=
  take pos (old ++ replicate (pos - length old) 0) ++ buf
    ++ drop (pos + length buf) old.

(** [fs.writeSync(fd, buf)]: at the descriptor's offset, which advances. *)
Definition writeSync (fd : nat) (buf : list Z) : M t unit :=
  fun s =>
    match fds s !! fd with
    | Some {| fd_path := p; fd_pos := pos; fd_flag := FlagW |} =>
        let old := default [] (files s !! p) in
        (Ok tt, {| files := <[p := write_at pos buf old]> (files s);
                   fds := <[fd := {| fd_path := p; fd_pos := pos + length buf;
                                     fd_flag := FlagW |}]> (fds s);
                   next_fd := next_fd s |})
    | _ => (Throw (EBADF fd), s)
    end.

(** [fs.readSync(fd, buf, 0, n, null)]: the bytes read (their number is
    the call's result), from the descriptor's offset, which advances. *)
Definition readSync (fd : nat) (n : nat) : M t (list Z) :=
  fun s =>
    match fds s !! fd with
    | Some {| fd_path := p; fd_pos := pos; fd_flag := FlagR |} =>
        let got := take n (drop pos (default [] (files s !! p))) in
        (Ok got, with_fds (<[fd := {| fd_path := p; fd_pos := pos + length got;
                                      fd_flag := FlagR |}]> (fds s)) s)
    | _ => (Throw (EBADF fd), s)
    end.

Definition closeSync (fd : nat) : M t unit :=
  fun s =>
    match fds s !! fd with
    | Some _ => (Ok tt, with_fds (delete fd (fds s)) s)
    | None => (Throw (EBADF fd), s)
    end.

Definition unlinkSync (p : string) : M t unit :=
  fun s =>
    match files s !! p with
    | Some _ => (Ok tt, with_files (delete p (files s)) s)
    | None => (Throw (ENOENT p), s)
    end.

End Fs.

(** ** The WAV header and the finalizer ([writeWavHeader], [finalizeRawToWav]) *)

Module Wav.

(** [buf.write(...)] / [buf.writeUIntXXLE(...)] at an offset of a
    fixed-size buffer: the bytes replace those at the offset. *)
Definition buf_write (off : nat) (bytes buf : list Z) : list Z :=
  take off buf ++ bytes ++ drop (off + length bytes) buf.

Definition ascii_bytes (s : string) : list Z :=
  map (fun c => Z.of_N (N_of_ascii c)) (list_ascii_of_string s).

Definition u16le_bytes (v : Z) : list Z :=
  [Z.land v 255; Z.land (Z.shiftr v 8) 255].
Definition u32le_bytes (v : Z) : list Z :=
  [Z.land v 255; Z.land (Z.shiftr v 8) 255;
   Z.land (Z.shiftr v 16) 255; Z.land (Z.shiftr v 24) 255].

(** Node checks the range of an integer write and throws otherwise. *)
Definition writeUInt32LE {S} (v : Z) (off : nat) (buf : list Z) : M S (list Z) :=
  if (0 <=? v) && (v <=? 4294967295)
  then ret (buf_write off (u32le_bytes v) buf)
  else throw (ERR_OUT_OF_RANGE v).
Definition writeUInt16LE {S} (v : Z) (off : nat) (buf : list Z) : M S (list Z) :=
  if (0 <=? v) && (v <=? 65535)
  then ret (buf_write off (u16le_bytes v) buf)
  else throw (ERR_OUT_OF_RANGE v).
Definition write_ascii {S} (s : string) (off : nat) (buf : list Z) : M S (list Z) :=
  ret (buf_write off (ascii_bytes s) buf).

(** The value a reader decodes from little-endian bytes. *)
Fixpoint le_decode (bs : list Z) : Z :=
  match bs with
  | [] => 0
  | b :: r => b + 256 * le_decode r
  end.

(** The 44 header bytes, built as the code builds them. *)
Definition wav_header {S} (dataLength sampleRate : Z) : M S (list Z) :=
  let blockAlign := 2 in
  let byteRate := sampleRate * blockAlign in
  let header := replicate 44 0 in
  header ← write_ascii "RIFF" 0 header;
  header ← writeUInt32LE (36 + dataLength) 4 header;
  header ← write_ascii "WAVE" 8 header;
  header ← write_ascii "fmt " 12 header;
  header ← writeUInt32LE 16 16 header;
  header ← writeUInt16LE 1 20 header;
  header ← writeUInt16LE 1 22 header;
  header ← writeUInt32LE sampleRate 24 header;
  header ← writeUInt32LE byteRate 28 header;
  header ← writeUInt16LE blockAlign 32 header;
  header ← writeUInt16LE 16 34 header;
  header ← write_ascii "data" 36 header;
  header ← writeUInt32LE dataLength 40 header;
  ret header.

Definition writeWavHeader (fd : nat) (dataLength sampleRate : Z) : M Fs.t unit :=
  header ← wav_header dataLength sampleRate;
  Fs.writeSync fd header.

(** [const bufSize = 1 << 20] *)
Definition bufSize : nat := Nat.shiftl 1 20.

(** [while ((bytesRead = fs.readSync(rawFd, buf, 0, bufSize, null)) > 0)
      fs.writeSync(wavFd, buf, 0, bytesRead);]
    The loop is bounded by fuel; [Diverged] marks its exhaustion. *)
Fixpoint copy_loop (fuel : nat) (size : nat) (rawFd wavFd : nat) : M Fs.t unit :=
  match fuel with
  | O => throw Diverged
  | S fuel' =>
      got ← Fs.readSync rawFd size;
      match got with
      | [] => ret tt
      | _ => Fs.writeSync wavFd got;; copy_loop fuel' size rawFd wavFd
      end
  end.

(** The finalizer, with the copy buffer size as a parameter. *)
Definition finalize_with (size : nat) (rawPath wavPath : string) (sampleRate : Z)
  : M Fs.t unit :=
  dataLen ← Fs.statSync rawPath;
  wavFd ← Fs.openSync wavPath Fs.FlagW;
  writeWavHeader wavFd dataLen sampleRate;;
  rawFd ← Fs.openSync rawPath Fs.FlagR;
  copy_loop (S (Z.to_nat dataLen)) size rawFd wavFd;;
  Fs.closeSync rawFd;;
  Fs.closeSync wavFd.

(** [finalizeRawToWav(rawPath, wavPath, sampleRate)]; every call site
    passes the rate, so the default argument 16000 is the callers'. *)
Definition finalizeRawToWav : string -> string -> Z -> M Fs.t unit :=
  finalize_with bufSize.

(** The canonical header laid out field by field: RIFF size, WAVE, fmt
    chunk (PCM, mono, rate, byte rate, block align, 16 bits), data size. *)
Definition canonical_header (dataLength sampleRate : Z) : list Z :=
  ascii_bytes "RIFF" ++ u32le_bytes (36 + dataLength) ++ ascii_bytes "WAVE"
  ++ ascii_bytes "fmt " ++ u32le_bytes 16 ++ u16le_bytes 1 ++ u16le_bytes 1
  ++ u32le_bytes sampleRate ++ u32le_bytes (sampleRate * 2) ++ u16le_bytes 2
  ++ u16le_bytes 16 ++ ascii_bytes "data" ++ u32le_bytes dataLength.

(** A small disk used to run the finalizer: one raw artifact of four
    bytes (two samples). *)
Definition example_disk : Fs.t :=
  {| Fs.files := {[ "t.pcm16le.raw"%string := [1; 2; 3; 4] ]};
     Fs.fds := ∅; Fs.next_fd := 3 |}.

(** A disk whose raw artifact holds 4294967260 bytes, about twelve and a
    half hours of 48 kHz mono audio. *)
Definition long_disk : Fs.t :=
  {| Fs.files := {[ "t.pcm16le.raw"%string := replicate (Z.to_nat 4294967260) 0 ]};
     Fs.fds := ∅; Fs.next_fd := 3 |}.

End Wav.


(** ** JavaScript [Map] with string keys, in insertion order *)

Module JsMap.

Definition t (V : Type) : Type := list (string * V).

Fixpoint get {V} (k : string) (m : t V) : option V :=
  match m with
  | [] => None
  | (k', v) :: r => if String.eqb k k' then Some v else get k r
  end.

Definition has {V} (k : string) (m : t V) : bool :=
  match get k m with Some _ => true | None => false end.

(** [m.set(k, v)]: an existing key keeps its place, a new one goes last. *)
Fixpoint set {V} (k : string) (v : V) (m : t V) : t V :=
  match m with
  | [] => [(k, v)]
  | (k', v') :: r =>
      if String.eqb k k' then (k, v) :: r else (k', v') :: set k v r
  end.

Fixpoint delete {V} (k : string) (m : t V) : t V :=
  match m with
  | [] => []
  | (k', v') :: r =>
      if String.eqb k k' then delete k r else (k', v') :: delete k r
  end.

Definition keys {V} (m : t V) : list string := map fst m.
Definition values {V} (m : t V) : list V := map snd m.

End JsMap.

(** ** The raw writers of [botv3.js]: [openWriter], [writeChunk], [closeWriter] *)

Module Writers.

(** The [meta] object a page hook passes to [webrtcOpenTrack]. *)
Record track_meta : Type := {
  track_id : option string;
  stream_id : option string;
  mid : option string;
  sample_rate : option Z;
  channels : option Z
}.

Record writer : Type := {
  fd : nat;
  rawPath : string;
  wavPath : string;
  bytes : Z;
  meta : track_meta
}.

(** One entry of [session.tracks] (class [RecordingSession]). *)
Record track_info : Type := {
  ti_key : string;
  ti_trackId : option string;
  ti_streamId : option string;
  ti_mid : option string;
  ti_started_at : string;
  ti_ended_at : option string;
  ti_sample_rate : option Z;
  ti_channels : option Z;
  ti_wav : string;
  ti_meta : string
}.

(** The Node process: the disk, the module-level [writers] map, the
    session's [tracks] table and the lines written to the console. *)
Record node : Type := {
  disk : Fs.t;
  writers : JsMap.t writer;
  tracks : gmap string track_info;
  console : list string
}.

Definition with_disk (d : Fs.t) (n : node) : node :=
  {| disk := d; writers := writers n; tracks := tracks n; console := console n |}.
Definition with_writers (w : JsMap.t writer) (n : node) : node :=
  {| disk := disk n; writers := w; tracks := tracks n; console := console n |}.
Definition with_tracks (t : gmap string track_info) (n : node) : node :=
  {| disk := disk n; writers := writers n; tracks := t; console := console n |}.

(** A file-system call made by the Node process. *)
Definition on_disk {A} (m : M Fs.t A) : M node A :=
  fun n => let '(r, d) := m (disk n) in (r, with_disk d n).

(** [/[^a-z0-9_\-\.]/gi]: the characters the key keeps. *)
Definition safe_char (c : ascii) : bool :=
  let n := nat_of_ascii c in
  ((97 <=? n) && (n <=? 122))%nat || ((65 <=? n) && (n <=? 90))%nat
  || ((48 <=? n) && (n <=? 57))%nat
  || Ascii.eqb c "_" || Ascii.eqb c "-" || Ascii.eqb c ".".

Fixpoint safe_key (key : string) : string :=
  match key with
  | EmptyString => EmptyString
  | String c r => String (if safe_char c then c else "_"%char) (safe_key r)
  end.

(** [s.replace(pat, rep)] with a string pattern: the first occurrence only. *)
Fixpoint replace_first (pat rep s : string) : string :=
  if String.prefix pat s
  then rep ++ String.substring (String.length pat) (String.length s - String.length pat) s
  else match s with
       | EmptyString => EmptyString
       | String c r => String c (replace_first pat rep r)
       end.

(** [path.join(dir, name)] for a directory in normal form. *)
Definition path_join (dir name : string) : string := dir ++ "/" ++ name.

Definition raw_path_of (baseDir key : string) : string :=
  path_join baseDir ("track_" ++ safe_key key ++ ".pcm16le.raw").

(** [openWriter(key, baseDir, meta)].  The directory creation is left
    out: the disk model has no directories.  So are the two locals
    [sampleRate] and [channels] the function computes from [meta] and
    never uses. *)
Definition openWriter (key baseDir : string) (meta : track_meta) : M node unit :=
  let rawPath := raw_path_of baseDir key in
  let wavPath := replace_first ".raw" ".wav" rawPath in
  fd ← on_disk (Fs.openSync rawPath Fs.FlagW);
  modify (fun n =>
    with_writers
      (JsMap.set key {| fd := fd; rawPath := rawPath; wavPath := wavPath;
                        bytes := 0; meta := meta |} (writers n)) n).

(** [writeChunk(key, u8arr)] *)
Definition writeChunk (key : string) (u8arr : list Z) : M node unit :=
  fun n =>
    match JsMap.get key (writers n) with
    | None => (Ok tt, n)
    | Some w =>
        (on_disk (Fs.writeSync (fd w) u8arr);;
         modify (fun n' =>
           with_writers
             (JsMap.set key {| fd := fd w; rawPath := rawPath w;
                               wavPath := wavPath w;
                               bytes := bytes w + Z.of_nat (length u8arr);
                               meta := meta w |} (writers n')) n')) n
    end.

(** [w.meta?.sample_rate || rate]: a missing or zero rate is falsy. *)
Definition rrate (w : writer) (rate : Z) : Z :=
  match sample_rate (meta w) with
  | Some r => if r =? 0 then rate else r
  | None => rate
  end.

(** [closeWriter(key, rate)] *)
Definition closeWriter (key : string) (rate : Z) : M node unit :=
  fun n =>
    match JsMap.get key (writers n) with
    | None => (Ok tt, n)
    | Some w =>
        (on_disk (Fs.closeSync (fd w));;
         on_disk (Wav.finalizeRawToWav (rawPath w) (wavPath w) (rrate w rate));;
         modify (fun n' => with_writers (JsMap.delete key (writers n')) n')) n
    end.

(** [for (const key of Array.from(writers.keys())) closeWriter(key, 16000);] *)
Fixpoint close_each (ks : list string) : M node unit :=
  match ks with
  | [] => mret tt
  | k :: r => closeWriter k 16000;; close_each r
  end.
Definition finalize_writers : M node unit :=
  fun n => close_each (JsMap.keys (writers n)) n.

(** [RecordingSession.onTrackOpen], the in-memory table.  The metadata
    documents it then rewrites go through [writeJsonAtomic] and are files
    ending in [.json]; they are no raw artifact and no container. *)
Definition onTrackOpen (key : string) (trackId streamId mid : option string)
    (now : string) (n : node) : node :=
  if String.eqb key "" then n
  else with_tracks
         (<[key := {| ti_key := key; ti_trackId := trackId; ti_streamId := streamId;
                      ti_mid := mid; ti_started_at := now; ti_ended_at := None;
                      ti_sample_rate := None; ti_channels := None;
                      ti_wav := "track_" ++ key ++ ".wav";
                      ti_meta := "track_" ++ key ++ ".json" |}]> (tracks n)) n.

Definition truthy (v : option Z) : bool :=
  match v with Some x => negb (x =? 0) | None => false end.

(** [RecordingSession.onTrackMeta], the in-memory table. *)
Definition onTrackMeta (key : string) (sample_rate channels : option Z)
    (n : node) : node :=
  if String.eqb key "" then n
  else match tracks n !! key with
       | None => n
       | Some ti =>
           let ti1 :=
             if truthy sample_rate
             then {| ti_key := ti_key ti; ti_trackId := ti_trackId ti;
                     ti_streamId := ti_streamId ti; ti_mid := ti_mid ti;
                     ti_started_at := ti_started_at ti; ti_ended_at := ti_ended_at ti;
                     ti_sample_rate := sample_rate; ti_channels := ti_channels ti;
                     ti_wav := ti_wav ti; ti_meta := ti_meta ti |}
             else ti in
           let ti2 :=
             if truthy channels
             then {| ti_key := ti_key ti1; ti_trackId := ti_trackId ti1;
                     ti_streamId := ti_streamId ti1; ti_mid := ti_mid ti1;
                     ti_started_at := ti_started_at ti1; ti_ended_at := ti_ended_at ti1;
                     ti_sample_rate := ti_sample_rate ti1; ti_channels := channels;
                     ti_wav := ti_wav ti1; ti_meta := ti_meta ti1 |}
             else ti1 in
           with_tracks (<[key := ti2]> (tracks n)) n
       end.

(** The calls the page makes through the exposed functions of
    [recordGoogleMeet], and the end-of-run loop. *)
Inductive call : Type :=
| WebrtcOpenTrack (key : string) (meta : track_meta)
| WebrtcWriteTrack (key : string) (u8 : list Z)
| WebrtcCloseTrack (key : string)
| EventTrackOpen (key : string) (trackId streamId mid : option string) (now : string)
| EventTrackMeta (key : string) (sample_rate channels : option Z)
| FinalizeWriters.

(** One call against the process.  A rejected call keeps what it did. *)
Definition run_call (trackDir : string) (c : call) (n : node) : node :=
  match c with
  | WebrtcOpenTrack key meta => snd (openWriter key trackDir meta n)
  | WebrtcWriteTrack key u8 =>
      snd (writeChunk key (map (fun x => x mod 256) u8) n)
  | WebrtcCloseTrack key => snd (closeWriter key 16000 n)
  | EventTrackOpen key trackId streamId mid now =>
      onTrackOpen key trackId streamId mid now n
  | EventTrackMeta key sr ch => onTrackMeta key sr ch n
  | FinalizeWriters => snd (finalize_writers n)
  end.

Definition run (trackDir : string) (cs : list call) (n : node) : node :=
  fold_left (fun n c => run_call trackDir c n) cs n.

Definition opens (key : string) (c : call) : bool :=
  match c with
  | WebrtcOpenTrack k _ => String.eqb k key
  | _ => false
  end.

(** The process at start: an empty recordings folder, nothing open. *)
Definition boot : node :=
  {| disk := {| Fs.files := ∅; Fs.fds := ∅; Fs.next_fd := 3 |};
     writers := []; tracks := ∅; console := [] |}.

(** The [meta] of [webrtc-hook.js]: [{ track_id, stream_id, mid }]. *)
Definition hook_meta (track stream : string) : track_meta :=
  {| track_id := Some track; stream_id := Some stream; mid := Some "0"%string;
     sample_rate := None; channels := None |}.

End Writers.


(** ** JavaScript numbers, as far as the audio helpers use them

    A sample read from a [Float32Array] is a double that holds the
    float32 value exactly.  A finite value is the rational it denotes.
    The products formed below (a float32 of magnitude at most 1 times
    0x8000 or 0x7FFF) have at most 24 + 15 significant bits and are
    exact in a double, so no rounding has to be modelled for them. *)

Module Js.

Inductive num : Type :=
| NaN
| Inf (negative : bool)
| Fin (q : Q).

Definition Qltb (x y : Q) : bool := negb (Qle_bool y x).

(** [Math.min(a, b)], [Math.max(a, b)] *)
Definition Math_min (a b : num) : num :=
  match a, b with
  | NaN, _ | _, NaN => NaN
  | Inf true, _ | _, Inf true => Inf true
  | Inf false, x | x, Inf false => x
  | Fin p, Fin q => Fin (Qmin p q)
  end.
Definition Math_max (a b : num) : num :=
  match a, b with
  | NaN, _ | _, NaN => NaN
  | Inf false, _ | _, Inf false => Inf false
  | Inf true, x | x, Inf true => x
  | Fin p, Fin q => Fin (Qmax p q)
  end.

(** [a < b] *)
Definition lt (a b : num) : bool :=
  match a, b with
  | NaN, _ | _, NaN => false
  | Inf s, Inf t => s && negb t
  | Inf s, Fin _ => s
  | Fin _, Inf t => negb t
  | Fin p, Fin q => Qltb p q
  end.

(** [a * b] *)
Definition mul (a b : num) : num :=
  match a, b with
  | NaN, _ | _, NaN => NaN
  | Inf s, Inf t => Inf (xorb s t)
  | Inf s, Fin q | Fin q, Inf s =>
      if Qeq_bool q 0 then NaN else Inf (xorb s (Qltb q 0))
  | Fin p, Fin q => Fin (p * q)
  end.

(** Wrap to 16 bits, two's complement. *)
Definition to_int16 (v : Z) : Z := (v + 32768) mod 65536 - 32768.

(** Truncation toward zero. *)
Definition Qtruncate (q : Q) : Z := Z.quot (Qnum q) (Zpos (Qden q)).

(** The conversion done by [DataView.setInt16] and by a store into an
    [Int16Array]: NaN and the infinities give 0, a finite value is
    truncated and wrapped. *)
Definition ToInt16 (x : num) : Z :=
  match x with
  | Fin q => to_int16 (Qtruncate q)
  | _ => 0
  end.

End Js.

(** ** IEEE 754 arithmetic, as far as the mono mix uses it

    The sum of the mix is a double, and the quotient is rounded once
    more by the store into a [Float32Array].  A finite value is the
    rational it denotes; the sign of a zero is not kept. *)

Module Ieee.
Import Js.

Definition pow2 (e : Z) : Q := (2 ^ e)%Q.

(** The binary exponent of a rational other than 0: the integer part of
    its logarithm to base 2. *)
Definition ilog2 (q : Q) : Z :=
  let d := Z.log2 (Z.abs (Qnum q)) - Z.log2 (Zpos (Qden q)) in
  if Qle_bool (pow2 d) (Qabs q) then d else d - 1.

(** The nearest integer, a tie going to the even one. *)
Definition rne (q : Q) : Z :=
  let f := Qfloor q in
  match (q - inject_Z f ?= 1 # 2)%Q with
  | Lt => f
  | Gt => f + 1
  | Eq => if Z.even f then f else f + 1
  end.

(** The exponent of the unit in the last place of a format with [prec]
    significant bits whose smallest positive value is 2^[emin]. *)
Definition ulp_exponent (prec emin : Z) (q : Q) : Z :=
  Z.max (ilog2 q - prec + 1) emin.

(** Round to nearest, ties to even. *)
Definition nearest (prec emin : Z) (q : Q) : Q :=
  let e := ulp_exponent prec emin q in
  (inject_Z (rne (q / pow2 e)) * pow2 e)%Q.

(** ... a result of magnitude 2^[emax] or more being an infinity. *)
Definition round (prec emin emax : Z) (q : Q) : num :=
  if Qeq_bool q 0 then Fin 0
  else
    let r := Qred (nearest prec emin q) in
    if Qle_bool (pow2 emax) (Qabs r) then Inf (Qltb q 0) else Fin r.

(** The double nearest to a rational. *)
Definition double : Q -> num := round 53 (-1074) 1024.

(** [a + b] *)
Definition add (a b : num) : num :=
  match a, b with
  | NaN, _ | _, NaN => NaN
  | Inf s, Inf t => if Bool.eqb s t then Inf s else NaN
  | Inf s, Fin _ | Fin _, Inf s => Inf s
  | Fin p, Fin q => double (p + q)
  end.

(** [a / b] *)
Definition div (a b : num) : num :=
  match a, b with
  | NaN, _ | _, NaN => NaN
  | Inf _, Inf _ => NaN
  | Inf s, Fin q => Inf (xorb s (Qltb q 0))
  | Fin _, Inf _ => Fin 0
  | Fin p, Fin q =>
      if Qeq_bool q 0
      then (if Qeq_bool p 0 then NaN else Inf (Qltb p 0))
      else double (p / q)
  end.

(** [Math.fround(x)], the conversion done by a store into a
    [Float32Array]. *)
Definition fround (x : num) : num :=
  match x with
  | Fin q => round 24 (-149) 128 q
  | _ => x
  end.

(** The values of a binary format: an integer of fewer than [prec] bits
    times a power of two not below 2^[emin]. *)
Definition representable (prec emin : Z) (q : Q) : Prop :=
  exists m k : Z, Z.abs m < 2 ^ prec /\ emin <= k /\ (q == inject_Z m * pow2 k)%Q.

(** The finite values a [Float32Array] holds, each in lowest terms. *)
Definition is_f32 (q : Q) : Prop :=
  Qred q = q /\ representable 24 (-149) q /\ (Qabs q < pow2 128)%Q.

(** The values a [Float32Array] holds. *)
Definition float32 (x : num) : Prop :=
  match x with
  | Fin q => is_f32 q
  | _ => True
  end.

End Ieee.

(** ** Sample conversion and down-mix ([f32ToI16], [convertFloat32ToInt16],
       [convertToMono], the mono mix of [pump]) *)

Module Audio.

(** The body of the conversion loop:
    [s = Math.max(-1, Math.min(1, f32[i]));  s < 0 ? s * 0x8000 : s * 0x7FFF] *)
Definition sample_to_i16 (x : Js.num) : Z :=
  let s := Js.Math_max (Js.Fin (-1)) (Js.Math_min (Js.Fin 1) x) in
  Js.ToInt16 (if Js.lt s (Js.Fin 0)
              then Js.mul s (Js.Fin 32768) else Js.mul s (Js.Fin 32767)).

(** [convertFloat32ToInt16]: an [Int16Array] of the converted samples. *)
Definition convertFloat32ToInt16 (float32Array : list Js.num) : list Z :=
  map sample_to_i16 float32Array.

(** [dv.setInt16(i * 2, v, true)]: two bytes, low byte first. *)
Definition i16le_bytes (v : Z) : list Z :=
  [Z.land v 255; Z.land (Z.shiftr v 8) 255].

(** [f32ToI16] / [f32ToI16LEBytes]: the bytes of the converted samples. *)
Definition f32ToI16 (f32 : list Js.num) : list Z :=
  flat_map (fun x => i16le_bytes (sample_to_i16 x)) f32.

(** The conversion in the words of the specification: clip to [-1, 1],
    scale a negative value by 32768 and a non-negative one by 32767,
    keep the integer part. *)
Definition clip (q : Q) : Q := Qmax (-1) (Qmin 1 q).
Definition quantize (q : Q) : Z :=
  let s := clip q in
  Js.Qtruncate (if Js.Qltb s 0 then s * 32768 else s * 32767).

(** The amplitude a 16-bit sample stands for (the inverse scaling). *)
Definition i16_to_f32 (v : Z) : Q := if v <? 0 then v # 32768 else v # 32767.

(** [for (let i = start; i < start + count; i++) acc = body(i, acc)] *)
Fixpoint for_loop {A} (count start : nat) (body : nat -> A -> A) (acc : A) : A :=
  match count with
  | O => acc
  | S c => for_loop c (S start) body (body start acc)
  end.

(** A read of a typed array; outside the array it is [undefined], which
    an addition turns into NaN. *)
Definition at_index (a : list Js.num) (i : nat) : Js.num := default Js.NaN (a !! i).

(** [mono[i] = sum / numberOfChannels]: the quotient of two doubles,
    stored into a [Float32Array]. *)
Definition store_mean (sum : Js.num) (numberOfChannels : nat) : Js.num :=
  Ieee.fround (Ieee.div sum (Js.Fin (inject_Z (Z.of_nat numberOfChannels)))).

(** [convertToMono(audioData, numberOfChannels)].  With no channel the
    length [audioData.length / 0] is infinite (not a number for an empty
    array, which gives length 0) and [new Float32Array] throws. *)
Definition convertToMono (audioData : list Js.num) (numberOfChannels : nat)
  : result (list Js.num) :=
  if Nat.eqb numberOfChannels 1 then Ok audioData
  else if Nat.eqb numberOfChannels 0 && negb (Nat.eqb (length audioData) 0)
  then Throw (RangeError "Invalid typed array length")
  else
    let monoLength := (length audioData / numberOfChannels)%nat in
    Ok (for_loop monoLength 0
          (fun i monoData =>
             let sum :=
               for_loop numberOfChannels 0
                 (fun channel sum =>
                    Ieee.add sum (at_index audioData (i * numberOfChannels + channel)))
                 (Js.Fin 0) in
             <[i := store_mean sum numberOfChannels]> monoData)
          (replicate monoLength (Js.Fin 0))).

(** [mono.set(src)] for a source no longer than [mono]. *)
Definition typed_set (src mono : list Js.num) : list Js.num :=
  src ++ drop (length src) mono.

(** The planar mix of [pump]: [chBuf[ch][i]], one array per channel. *)
Definition mix_planar (chBuf : list (list Js.num)) (numCh numFr : nat) : list Js.num :=
  let mono := replicate numFr (Js.Fin 0) in
  if Nat.eqb numCh 1 then typed_set (default [] (chBuf !! 0%nat)) mono
  else
    for_loop numFr 0
      (fun i mono =>
         let s :=
           for_loop numCh 0
             (fun ch s => Ieee.add s (at_index (default [] (chBuf !! ch)) i))
             (Js.Fin 0) in
         <[i := store_mean s numCh]> mono)
      mono.

(** The interleaved mix of [pump]: [inter[i * numCh + ch]]. *)
Definition mix_interleaved (inter : list Js.num) (numCh numFr : nat) : list Js.num :=
  let mono := replicate numFr (Js.Fin 0) in
  if Nat.eqb numCh 1 then typed_set inter mono
  else
    for_loop numFr 0
      (fun i mono =>
         let s :=
           for_loop numCh 0
             (fun ch s => Ieee.add s (at_index inter (i * numCh + ch)))
             (Js.Fin 0) in
         <[i := store_mean s numCh]> mono)
      mono.

(** The mean of the samples of one frame as floating point gives it: the
    samples added from 0 in their order, each sum a double, the last one
    divided by their number and the quotient rounded to a float32. *)
Definition mean (l : list Js.num) : Js.num :=
  store_mean (fold_left Ieee.add l (Js.Fin 0)) (length l).

(** The same mean with no rounding at all. *)
Definition exact_mean (l : list Q) : Q :=
  (fold_left Qplus l 0 / inject_Z (Z.of_nat (length l)))%Q.

(** A finite sample between two bounds. *)
Definition within (lo hi : Q) (x : Js.num) : Prop :=
  exists q, x = Js.Fin q /\ (lo <= q)%Q /\ (q <= hi)%Q.

End Audio.

(** ** The Node side of [meetbot-v2.js]: per-participant streams
       ([sendParticipantAudioChunk], [closeAudioFiles]) *)

Module V2.

Record silenceStats : Type := {
  totalChunks : Z;
  silentChunks : Z;
  consecutiveSilence : Z;
  lastMaxAmplitude : Q
}.

(** One value of [participantAudioStreams].  The write stream is its
    [writable] flag, whether it has opened its file yet, and the bytes
    given to [write()] that have not reached the file: the stream opens
    and writes in the background. *)
Record streamInfo : Type := {
  writable : bool;
  opened : bool;
  pending : list Z;
  rawPath : string;
  wavPath : string;
  trackId : string;
  silence : option silenceStats
}.

(** The Node side: the files, the directories that exist, the paths at
    which the file system refuses to make a directory (a name it does
    not accept, a full disk), and the streams. *)
Record node : Type := {
  disk : Fs.t;
  dirs : gset string;
  mkdir_fails : string -> bool;
  participantAudioStreams : JsMap.t streamInfo
}.

Definition with_disk (d : Fs.t) (n : node) : node :=
  {| disk := d; dirs := dirs n; mkdir_fails := mkdir_fails n;
     participantAudioStreams := participantAudioStreams n |}.
Definition with_dirs (ds : gset string) (n : node) : node :=
  {| disk := disk n; dirs := ds; mkdir_fails := mkdir_fails n;
     participantAudioStreams := participantAudioStreams n |}.
Definition with_streams (m : JsMap.t streamInfo) (n : node) : node :=
  {| disk := disk n; dirs := dirs n; mkdir_fails := mkdir_fails n;
     participantAudioStreams := m |}.

(** [const SILENCE_THRESHOLD = 0.0001].  The amplitudes compared with it
    are k/32768 for an integer k, which a double holds exactly; the
    double nearest to 0.0001 and the rational 1/10000 both lie strictly
    between 3/32768 and 4/32768, so the comparison is the same. *)
Definition SILENCE_THRESHOLD : Q := 1 # 10000.

(** [new Int16Array(buffer.buffer, buffer.byteOffset, buffer.byteLength / 2)]:
    little-endian pairs; an odd last byte is not part of any sample. *)
Fixpoint int16_samples (bytes : list Z) : list Z :=
  match bytes with
  | lo :: hi :: r => Js.to_int16 (lo + 256 * hi) :: int16_samples r
  | _ => []
  end.

(** [Math.abs(audioData[i]) / 32768.0] *)
Definition amplitude (sample : Z) : Q := Z.abs sample # 32768.

(** The loop [if (amplitude > maxAmplitude) maxAmplitude = amplitude]. *)
Definition max_amplitude (audioData : list Z) : Q :=
  fold_left (fun mx a => if Js.Qltb mx (amplitude a) then amplitude a else mx)
            audioData 0%Q.

(** [Uint8Array.from(arr)] *)
Definition to_u8 (arr : list Z) : list Z := map (fun x => x mod 256) arr.

Definition is_silent (arr : list Z) : bool :=
  Js.Qltb (max_amplitude (int16_samples (to_u8 arr))) SILENCE_THRESHOLD.

(** [sanitizeFilename]: slash, colon, star, question mark, double quote,
    angle brackets and bar become an underscore. *)
Definition sanitize_char (c : ascii) : ascii :=
  if existsb (Ascii.eqb c) ["/"; ":"; "*"; "?"; "034"; "<"; ">"; "|"]%char
  then "_"%char else c.
Fixpoint sanitizeFilename (name : string) : string :=
  match name with
  | EmptyString => EmptyString
  | String c r => String (sanitize_char c) (sanitizeFilename r)
  end.

Definition participant_dir (participantsDir participantId displayName : string) : string :=
  let shown := if String.eqb displayName "" then "unknown"%string else displayName in
  (participantsDir ++ "/" ++ sanitizeFilename shown ++ "_" ++ participantId)%string.

(** [fs.existsSync(p)] *)
Definition existsSync (p : string) (n : node) : bool :=
  bool_decide (p ∈ dirs n) || bool_decide (is_Some (Fs.files (disk n) !! p)).

(** [fs.mkdirSync(p, { recursive: true })] *)
Definition mkdirSync (p : string) : M node unit :=
  fun n => if mkdir_fails n p then (Throw (EIO "mkdir"), n)
           else (Ok tt, with_dirs ({[ p ]} ∪ dirs n) n).

(** The three folders under [audio_tracks]. *)
Definition make_track_folders (audioTracksDir : string) : M node unit :=
  mkdirSync (audioTracksDir ++ "/raw") ;;
  mkdirSync (audioTracksDir ++ "/processed") ;;
  mkdirSync (audioTracksDir ++ "/wav").

(** "Verify directories were created" *)
Definition verify_folders (participantDir : string) : M node unit :=
  fun n =>
    let audioTracksDir := (participantDir ++ "/audio_tracks")%string in
    if existsSync participantDir n && existsSync audioTracksDir n
       && existsSync (audioTracksDir ++ "/raw") n
       && existsSync (audioTracksDir ++ "/processed") n
       && existsSync (audioTracksDir ++ "/wav") n
    then (Ok tt, n)
    else (Throw (EIO "Failed to verify directory creation"), n).

(** [userManager.getUser(participantId)] on the Node side.  From before
    the handler is exposed until the end of the run, [userManager] is
    the object [{ extractParticipantsFromDOM: () => {} }] that
    [startRTCAudioRecording] puts in place of the [UserManager] made by
    [recordGoogleMeet]; it has no [getUser], so the call throws and
    returns nothing. *)
Definition getUser (participantId : string) : M node Empty_set :=
  throw (TypeError "userManager.getUser is not a function").

(** The [try] of "Create participant directory if it doesn't exist".
    Its last statement throws, so the block never ends normally, and
    what follows it in the source (the participant's metadata, its
    [info.json], the entry in the meeting metadata) is never reached. *)
Definition directory_block (participantDir participantId : string) : M node Empty_set :=
  mkdirSync participantDir ;;
  mkdirSync (participantDir ++ "/audio_tracks") ;;
  make_track_folders (participantDir ++ "/audio_tracks") ;;
  verify_folders participantDir ;;
  getUser participantId.

(** The stream [fs.createWriteStream(rawPath)] returns: writable, its
    file not opened yet, nothing to write. *)
Definition new_stream (participantDir now : string) : streamInfo :=
  let tid := ("track_" ++ now)%string in
  {| writable := true; opened := false; pending := [];
     rawPath := (participantDir ++ "/audio_tracks/raw/" ++ tid ++ ".pcm16le.raw")%string;
     wavPath := (participantDir ++ "/audio_tracks/wav/" ++ tid ++ ".wav")%string;
     trackId := tid; silence := None |}.

(** "Get or create write stream for this participant"; [now] is the
    decimal text of [Date.now()].  No metadata exists for the
    participant (see [directory_block]), so none is updated. *)
Definition ensure_stream (participantDir participantId now : string) : M node unit :=
  fun n =>
    if JsMap.has participantId (participantAudioStreams n) then (Ok tt, n)
    else
      let audioTracksDir := (participantDir ++ "/audio_tracks")%string in
      ((if negb (existsSync audioTracksDir n)
        then mkdirSync audioTracksDir ;; make_track_folders audioTracksDir
        else ret tt) ;;
       modify (fun n => with_streams
                          (JsMap.set participantId (new_stream participantDir now)
                                     (participantAudioStreams n)) n)) n.

(** The silence statistics after one more chunk. *)
Definition next_stats (old : option silenceStats) (maxAmplitude : Q)
    (isSilent : bool) : silenceStats :=
  let s := default {| totalChunks := 0; silentChunks := 0;
                      consecutiveSilence := 0; lastMaxAmplitude := 0%Q |} old in
  {| totalChunks := totalChunks s + 1;
     silentChunks := if isSilent then silentChunks s + 1 else silentChunks s;
     consecutiveSilence := if isSilent then consecutiveSilence s + 1 else 0;
     lastMaxAmplitude := maxAmplitude |}.

(** "Write audio chunk": the statistics are brought up to date, then
    the buffer is given to the stream unless the stream has ended or the
    chunk prolongs a run of more than 30 silent ones. *)
Definition write_chunk (participantId : string) (arr : list Z) : M node unit :=
  fun n =>
    match JsMap.get participantId (participantAudioStreams n) with
    | None => (Ok tt, n)
    | Some streamInfo =>
        let buffer := to_u8 arr in
        let audioData := int16_samples buffer in
        let maxAmplitude := max_amplitude audioData in
        let isSilent := Js.Qltb maxAmplitude SILENCE_THRESHOLD in
        let stats := next_stats (silence streamInfo) maxAmplitude isSilent in
        let skipSilence := isSilent && (30 <? consecutiveSilence stats) in
        let written :=
          if writable streamInfo && negb skipSilence
          then pending streamInfo ++ buffer else pending streamInfo in
        (Ok tt,
         with_streams
           (JsMap.set participantId
              {| writable := writable streamInfo; opened := opened streamInfo;
                 pending := written;
                 rawPath := rawPath streamInfo; wavPath := wavPath streamInfo;
                 trackId := trackId streamInfo; silence := Some stats |}
              (participantAudioStreams n)) n)
    end.

(** [sendParticipantAudioChunk(participantId, displayName, arr)].  The
    log lines are left out.  A chunk that finds the participant's folder
    missing ends in the [catch] of the directory block, which returns. *)
Definition sendParticipantAudioChunk (participantsDir participantId displayName : string)
    (arr : list Z) (now : string) : M node unit :=
  try_catch
    (match arr with
     | [] => ret tt
     | _ =>
         let participantDir := participant_dir participantsDir participantId displayName in
         fun n =>
           if negb (existsSync participantDir n)
           then try_catch
                  (never ← directory_block participantDir participantId;
                   match never : Empty_set with end)
                  (fun dirError => ret tt) n
           else (ensure_stream participantDir participantId now ;;
                 write_chunk participantId arr) n
     end)
    (fun e => ret tt).

(** The node after a call of the handler. *)
Definition after_chunk (participantsDir participantId displayName : string)
    (arr : list Z) (now : string) (n : node) : node :=
  snd (sendParticipantAudioChunk participantsDir participantId displayName arr now n).

(** The consecutive-silence counter of a participant's stream. *)
Definition counter (participantId : string) (n : node) : Z :=
  match JsMap.get participantId (participantAudioStreams n) with
  | Some {| silence := Some s |} => consecutiveSilence s
  | _ => 0
  end.

(** The bytes a participant's stream still has to write. *)
Definition queued (participantId : string) (n : node) : list Z :=
  match JsMap.get participantId (participantAudioStreams n) with
  | Some i => pending i
  | None => []
  end.

(** Chunks of one participant, in arrival order. *)
Definition send_all (participantsDir participantId displayName now : string)
    (chunks : list (list Z)) (n : node) : node :=
  fold_left (fun n arr => after_chunk participantsDir participantId displayName arr now n)
            chunks n.

(** The background work of a participant's stream, done: the stream
    opens its file if it has not yet (flag 'w': the file is created, or
    emptied) and writes what it holds.  Writes to a file that was
    deleted after the stream opened it are lost. *)
Definition flush (participantId : string) (n : node) : node :=
  match JsMap.get participantId (participantAudioStreams n) with
  | None => n
  | Some i =>
      let content :=
        if opened i
        then (old ← Fs.files (disk n) !! rawPath i; Some (old ++ pending i))
        else Some (pending i) in
      let d := match content with
               | Some c => Fs.with_files (<[rawPath i := c]> (Fs.files (disk n))) (disk n)
               | None => disk n
               end in
      with_streams
        (JsMap.set participantId
           {| writable := writable i; opened := true; pending := [];
              rawPath := rawPath i; wavPath := wavPath i; trackId := trackId i;
              silence := silence i |}
           (participantAudioStreams n))
        (with_disk d n)
  end.

(** A file call of the Node side. *)
Definition on_disk {A} (m : M Fs.t A) : M node A :=
  fun n => let '(r, d) := m (disk n) in (r, with_disk d n).

(** [writeStream.end()]: no further write is accepted; what the stream
    holds is still written in the background. *)
Definition end_stream (i : streamInfo) : streamInfo :=
  {| writable := false; opened := opened i; pending := pending i;
     rawPath := rawPath i; wavPath := wavPath i;
     trackId := trackId i; silence := silence i |}.

(** The file calls of one round of the loop of [closeAudioFiles]:
    finalize the artifact only if it holds data, else delete it. *)
Definition finalize_or_delete (streamInfo : streamInfo) : M Fs.t unit :=
  size ← Fs.statSync (rawPath streamInfo);
  if 0 <? size
  then Wav.finalizeRawToWav (rawPath streamInfo) (wavPath streamInfo) 16000
  else try_catch (Fs.unlinkSync (rawPath streamInfo)) (fun _ => mret tt).

(** One round of the loop over [participantAudioStreams.entries()]: end
    the stream, then look at the file as it is at that moment.  Any
    exception is caught and logged by the round itself.  No metadata
    exists for the participant, so none is updated. *)
Definition close_participant (participantId : string) (streamInfo : streamInfo)
  : M node unit :=
  try_catch
    (modify (fun n => with_streams
                        (JsMap.set participantId (end_stream streamInfo)
                                   (participantAudioStreams n)) n) ;;
     on_disk (finalize_or_delete streamInfo))
    (fun _ => ret tt).

Fixpoint close_entries (es : list (string * streamInfo)) (n : node) : node :=
  match es with
  | [] => n
  | (participantId, i) :: r => close_entries r (snd (close_participant participantId i n))
  end.

(** The audio part of [closeAudioFiles]: the mixed artifact first, with
    no look at its size, then every participant stream.  The JSON
    documents written afterwards are other files. *)
Definition closeAudioFiles (mixedRaw mixedWav : string) (n : node) : node :=
  let n1 := snd (try_catch (on_disk (Wav.finalizeRawToWav mixedRaw mixedWav 16000))
                           (fun _ => ret tt) n) in
  close_entries (participantAudioStreams n1) n1.

(** The start of a run: the folder of the participants exists and is
    empty, no stream yet. *)
Definition start : node :=
  {| disk := {| Fs.files := ∅; Fs.fds := ∅; Fs.next_fd := 3 |};
     dirs := {[ "p"%string ]}; mkdir_fails := fun _ => false;
     participantAudioStreams := [] |}.

(** A participant whose stream was created and never written to, after
    the stream has opened its file. *)
Definition quiet_stream : streamInfo :=
  {| writable := true; opened := true; pending := [];
     rawPath := "p/Ann_u1/audio_tracks/raw/track_1.pcm16le.raw";
     wavPath := "p/Ann_u1/audio_tracks/wav/track_1.wav"; trackId := "track_1";
     silence := None |}.
Definition quiet_node : node :=
  {| disk := {| Fs.files := {[ rawPath quiet_stream := [] ]}; Fs.fds := ∅;
                Fs.next_fd := 3 |};
     dirs := {[ "p"%string; "p/Ann_u1"%string; "p/Ann_u1/audio_tracks"%string;
                "p/Ann_u1/audio_tracks/raw"%string;
                "p/Ann_u1/audio_tracks/processed"%string;
                "p/Ann_u1/audio_tracks/wav"%string ]};
     mkdir_fails := fun _ => false;
     participantAudioStreams := [("u1"%string, quiet_stream)] |}.

End V2.


(** ** The user manager of the page ([UserManager]) and the scan for
       the loudest contributing source *)

Module Resolver.

(** A string in a boolean position: empty is falsy. *)
Definition truthy (s : string) : bool := negb (String.eqb s "").
Definition truthy_opt (s : option string) : bool :=
  match s with Some x => truthy x | None => false end.

Record user : Type := {
  participantId : string;
  displayName : string;
  streamIds : list string;
  joinTime : string
}.

Record UserManager : Type := {
  users : JsMap.t user;
  streamToParticipant : JsMap.t string
}.

(** An entry of [getContributingSources()]: the source identifier and
    the optional audio level in [0, 1]. *)
Record csrc : Type := {
  source : Z;
  audioLevel : option Q
}.

(** [set.add(x)] *)
Definition set_add (x : string) (l : list string) : list string :=
  if existsb (String.eqb x) l then l else l ++ [x].

(** [addUser(participantId, displayName)] *)
Definition addUser (pid name now : string) (um : UserManager) : UserManager :=
  if JsMap.has pid (users um) then um
  else {| users := JsMap.set pid
                     {| participantId := pid;
                        displayName := if truthy name then name else "Unknown";
                        streamIds := []; joinTime := now |} (users um);
          streamToParticipant := streamToParticipant um |}.

(** [associateStream(participantId, streamId)] *)
Definition associateStream (pid : string) (streamId : option string)
    (um : UserManager) : UserManager :=
  match streamId with
  | Some sid =>
      if truthy sid then
        match JsMap.get pid (users um) with
        | Some u =>
            {| users := JsMap.set pid
                          {| participantId := participantId u;
                             displayName := displayName u;
                             streamIds := set_add sid (streamIds u);
                             joinTime := joinTime u |} (users um);
               streamToParticipant := JsMap.set sid pid (streamToParticipant um) |}
        | None => um
        end
      else um
  | None => um
  end.

(** [getParticipantByStreamId(streamId)] *)
Definition getParticipantByStreamId (sid : string) (um : UserManager) : option user :=
  match JsMap.get sid (streamToParticipant um) with
  | Some pid => if truthy pid then JsMap.get pid (users um) else None
  | None => None
  end.

(** The name test of [getFirstParticipant]. *)
Definition suitable (u : user) : bool :=
  truthy (displayName u)
  && negb (String.eqb (displayName u) "You")
  && negb (String.eqb (displayName u) "Unknown").

(** [getFirstParticipant()] *)
Definition getFirstParticipant (um : UserManager) : option user :=
  match find suitable (JsMap.values (users um)) with
  | Some u => Some u
  | None => head (JsMap.values (users um))
  end.

(** The [forEach] that looks for the loudest source: the state is
    [(maxLevel, loudestSource)], from [(0, null)]. *)
Definition louder (acc : Q * option Z) (s : csrc) : Q * option Z :=
  if negb (source s =? 0)
  then match audioLevel s with
       | Some l =>
           if negb (Qeq_bool l 0) && Js.Qltb (fst acc) l
           then (l, Some (source s)) else acc
       | None => acc
       end
  else acc.

Definition loudest_scan (sources : list csrc) : option Z :=
  snd (fold_left louder sources (0%Q, None)).

(** ... and "if no loudest source found but we have audio, use the first
    source". *)
Definition loudest_source (sources : list csrc) : option Z :=
  match loudest_scan sources with
  | Some src => Some src
  | None =>
      match sources with
      | s :: _ => if negb (source s =? 0) then Some (source s) else None
      | [] => None
      end
  end.

(** The variables [participantId] and [displayName] of the resolver. *)
Definition found (p : option user) : option string * option string :=
  match p with
  | Some u => (Some (participantId u), Some (displayName u))
  | None => (None, None)
  end.

(** A call of one of the two methods that change a [UserManager]. *)
Inductive um_call : Type :=
| AddUser (participantId displayName now : string)
| AssociateStream (participantId : string) (streamId : option string).

Definition um_step (um : UserManager) (c : um_call) : UserManager :=
  match c with
  | AddUser pid name now => addUser pid name now um
  | AssociateStream pid streamId => associateStream pid streamId um
  end.

Definition um_run (calls : list um_call) (um : UserManager) : UserManager :=
  fold_left um_step calls um.

(** The calls that leave the association of a stream alone. *)
Definition spares (sid : string) (c : um_call) : Prop :=
  match c with
  | AddUser _ _ _ => True
  | AssociateStream _ streamId => streamId <> Some sid
  end.

Definition empty_manager : UserManager := {| users := []; streamToParticipant := [] |}.

(** A directory with the bot itself and one named participant whose
    stream "s1" is already associated. *)
Definition example_manager : UserManager :=
  {| users := [("p0"%string, {| participantId := "p0"; displayName := "You";
                                streamIds := []; joinTime := "t0" |});
               ("p1"%string, {| participantId := "p1"; displayName := "Ann";
                                streamIds := ["s1"%string]; joinTime := "t0" |})];
     streamToParticipant := [("s1"%string, "p1"%string)] |}.

(** Every user is stored under its own, non-empty identifier; the
    callers of [addUser] only pass such identifiers. *)
Definition well_keyed (um : UserManager) : Prop :=
  Forall (fun e => participantId (snd e) = fst e /\ truthy (fst e) = true) (users um).

End Resolver.


(** ** The atomic JSON writer ([writeJsonAtomic])

    The promise-based file calls can fail for reasons the program does
    not control.  What the operating system does on one run is an input,
    [env]: for each call, success or the error it fails with, and for
    the calls that write, what a failure leaves behind.  [fsp.rename]
    replaces the destination in one step or not at all; for
    [fsp.copyFile] Node documents no atomicity: a failed copy leaves the
    destination removed or holding a prefix of the source. *)

Module Atomic.

Inductive op : Type :=
| OpMkdir (of_file : string)
| OpWriteFile (path : string)
| OpRename (from to : string)
| OpCopyFile (from to : string)
| OpUnlink (path : string).

Record disk : Type := {
  files : gmap string (list Z);
  ops : list op              (* the file calls made so far, in order *)
}.

Record env : Type := {
  on_mkdir : option error;
  on_write : option (option nat * error);    (* bytes left at the path, if it was made *)
  on_rename : option error;
  on_copy : option (option nat * error);     (* bytes left at the destination *)
  on_unlink : option error
}.

Definition log_op (o : op) (d : disk) : disk :=
  {| files := files d; ops := ops d ++ [o] |}.

(** [ensureDir(path.dirname(file))] *)
Definition ensureDir (e : env) (file : string) : M disk unit :=
  fun d => match on_mkdir e with
           | None => (Ok tt, log_op (OpMkdir file) d)
           | Some err => (Throw err, log_op (OpMkdir file) d)
           end.

(** [fsp.writeFile(path, data)].  A call that fails before the file is
    opened leaves the disk as it was; one that fails later leaves the
    bytes written so far. *)
Definition writeFile (e : env) (path : string) (data : list Z) : M disk unit :=
  fun d => match on_write e with
           | None =>
               (Ok tt, log_op (OpWriteFile path)
                         {| files := <[path := data]> (files d); ops := ops d |})
           | Some (Some n, err) =>
               (Throw err, log_op (OpWriteFile path)
                             {| files := <[path := take n data]> (files d);
                                ops := ops d |})
           | Some (None, err) => (Throw err, log_op (OpWriteFile path) d)
           end.

(** [fsp.rename(from, to)] *)
Definition rename (e : env) (from to : string) : M disk unit :=
  fun d => match on_rename e with
           | None =>
               match files d !! from with
               | Some c =>
                   (Ok tt, log_op (OpRename from to)
                             {| files := <[to := c]> (delete from (files d));
                                ops := ops d |})
               | None => (Throw (ENOENT from), log_op (OpRename from to) d)
               end
           | Some err => (Throw err, log_op (OpRename from to) d)
           end.

(** [fsp.copyFile(from, to)] *)
Definition copyFile (e : env) (from to : string) : M disk unit :=
  fun d => match files d !! from with
           | None => (Throw (ENOENT from), log_op (OpCopyFile from to) d)
           | Some c =>
               match on_copy e with
               | None =>
                   (Ok tt, log_op (OpCopyFile from to)
                             {| files := <[to := c]> (files d); ops := ops d |})
               | Some (Some n, err) =>
                   (Throw err, log_op (OpCopyFile from to)
                                 {| files := <[to := take n c]> (files d);
                                    ops := ops d |})
               | Some (None, err) =>
                   (Throw err, log_op (OpCopyFile from to)
                                 {| files := delete to (files d); ops := ops d |})
               end
           end.

(** [fsp.unlink(path)] *)
Definition unlink (e : env) (path : string) : M disk unit :=
  fun d => match on_unlink e with
           | None =>
               (Ok tt, log_op (OpUnlink path)
                         {| files := delete path (files d); ops := ops d |})
           | Some err => (Throw err, log_op (OpUnlink path) d)
           end.

(** [`${file}.${process.pid}.${Date.now()}.${random}.tmp`] *)
Definition tmp_path (file pid now rnd : string) : string :=
  (file ++ "." ++ pid ++ "." ++ now ++ "." ++ rnd ++ ".tmp")%string.

Definition is_EXDEV (err : error) : bool :=
  match err with EXDEV => true | _ => false end.

(** The closure [run] of [writeJsonAtomic]; [data] is the text
    [JSON.stringify(obj, null, 2)]. *)
Definition run (e : env) (file tmp : string) (data : list Z) : M disk unit :=
  writeFile e tmp data;;
  try_catch (rename e tmp file)
    (fun err =>
       if is_EXDEV err
       then copyFile e tmp file;; unlink e tmp
       else throw err).

(** [writeJsonAtomic(file, obj)].  [prev] is how the write queued before
    this one for the same file ended, if it was rejected: [prev.then(run)]
    then skips [run] and passes the rejection on. *)
Definition writeJsonAtomic (e : env) (prev : option error)
    (file pid now rnd : string) (data : list Z) : M disk unit :=
  ensureDir e file;;
  match prev with
  | Some err => throw err
  | None => run e file (tmp_path file pid now rnd) data
  end.

(** The file calls of one [writeJsonAtomic], read off the claim: the
    temporary file is written, then renamed over the destination; the
    copy and the unlink follow if and only if the rename failed with
    EXDEV. *)
Definition calls_expected (e : env) (prev : option error) (file tmp : string)
  : list op :=
  OpMkdir file ::
  match on_mkdir e, prev with
  | None, None =>
      OpWriteFile tmp ::
      match on_write e with
      | None =>
          OpRename tmp file ::
          match on_rename e with
          | Some EXDEV =>
              OpCopyFile tmp file ::
              match on_copy e with
              | None => [OpUnlink tmp]
              | Some _ => []
              end
          | _ => []
          end
      | Some _ => []
      end
  | _, _ => []
  end.

(** All calls succeed. *)
Definition fair : env :=
  {| on_mkdir := None; on_write := None; on_rename := None; on_copy := None;
     on_unlink := None |}.

(** The destination is on another volume and the disk fills up during
    the fallback copy, after 3 bytes. *)
Definition cross_volume_full : env :=
  {| on_mkdir := None; on_write := None; on_rename := Some EXDEV;
     on_copy := Some (Some 3%nat, EIO "ENOSPC"); on_unlink := None |}.

(** A disk holding a valid document at "m.json". *)
Definition example_disk : disk :=
  {| files := {[ "m.json"%string := [123; 34; 97; 34; 58; 49; 125] ]}; ops := [] |}.

End Atomic.


(** ** What the writers hold between calls *)

Module Tracks.
Import Writers.

(** The rate [closeWriter(key, 16000)] hands to the finalizer for a
    writer opened with the metadata [mt]. *)
Definition header_rate (mt : track_meta) : Z :=
  rrate {| fd := 0; rawPath := ""; wavPath := ""; bytes := 0; meta := mt |} 16000.

(** The bytes a sequence of [webrtcWriteTrack(key, arr)] calls carries
    for one key, in call order. *)
Definition written (key : string) (ws : list (string * list Z)) : list Z :=
  concat (map (fun kc => if String.eqb (fst kc) key
                         then map (fun x => x mod 256) (snd kc) else []) ws).

Definition write_calls (ws : list (string * list Z)) : list call :=
  map (fun kc => WebrtcWriteTrack (fst kc) (snd kc)) ws.

(** A writer whose descriptor is open for append at the end of its raw
    artifact, which holds [content]. *)
Definition open_at (n : node) (w : writer) (content : list Z) : Prop :=
  Fs.fds (disk n) !! fd w
    = Some {| Fs.fd_path := rawPath w; Fs.fd_pos := length content;
              Fs.fd_flag := Fs.FlagW |}
  /\ Fs.files (disk n) !! rawPath w = Some content
  /\ bytes w = Z.of_nat (length content)
  /\ (fd w < Fs.next_fd (disk n))%nat.

(** The file [q] is another file in the folder of [p], under a name of
    the same length: where the file system took [p], it takes [q]. *)
Definition beside (p q : string) : Prop :=
  p <> q
  /\ exists folder a b : string,
       p = (folder ++ "/" ++ a)%string /\ q = (folder ++ "/" ++ b)%string
       /\ String.length a = String.length b
       /\ String.index 0 "/" a = None /\ String.index 0 "/" b = None.

(** Every writer is open at the end of its own artifact, and no two
    writers share a descriptor or an artifact. *)
Definition consistent (n : node) : Prop :=
  (forall k w, JsMap.get k (writers n) = Some w -> exists content, open_at n w content)
  /\ (forall k1 k2 w1 w2, k1 <> k2 ->
        JsMap.get k1 (writers n) = Some w1 -> JsMap.get k2 (writers n) = Some w2 ->
        fd w1 <> fd w2 /\ rawPath w1 <> rawPath w2).

(** What the end-of-run loop needs of the open writers: each has its
    descriptor and its artifact, of a size and at a rate the header can
    hold; no container path is an artifact path; and two writers share
    neither a descriptor nor a container. *)
Definition finalizable (n : node) : Prop :=
  (forall k w, JsMap.get k (writers n) = Some w ->
     is_Some (Fs.fds (disk n) !! fd w) /\ (fd w < Fs.next_fd (disk n))%nat
     /\ 0 <= rrate w 16000 <= 2147483647
     /\ exists content, Fs.files (disk n) !! rawPath w = Some content
          /\ Z.of_nat (length content) <= 4294967259)
  /\ (forall k1 k2 w1 w2,
        JsMap.get k1 (writers n) = Some w1 -> JsMap.get k2 (writers n) = Some w2 ->
        rawPath w1 <> wavPath w2)
  /\ (forall k1 k2 w1 w2, k1 <> k2 ->
        JsMap.get k1 (writers n) = Some w1 -> JsMap.get k2 (writers n) = Some w2 ->
        fd w1 <> fd w2 /\ wavPath w1 <> wavPath w2).

(** Two tracks open side by side, as the page hook opens them. *)
Definition two_tracks : node :=
  run "rec" [WebrtcOpenTrack "k1" (hook_meta "t1" "s1");
             WebrtcOpenTrack "k2" (hook_meta "t2" "s2")] boot.

(** ... after a few interleaved chunks. *)
Definition two_tracks_written : node :=
  run "rec" (write_calls [("k1"%string, [1; 2]); ("k2"%string, [9; 9]);
                          ("k1"%string, [3; 4])]) two_tracks.

(** ... and with the artifact of the first track removed from the disk
    behind the program's back. *)
Definition artifact_lost : node :=
  with_disk (Fs.with_files (delete "rec/track_k1.pcm16le.raw"%string
                              (Fs.files (disk two_tracks_written)))
               (disk two_tracks_written)) two_tracks_written.

(** A track opened under a key with a space, and written to. *)
Definition spaced_key : node :=
  run "rec" [WebrtcOpenTrack "a b" (hook_meta "t1" "s1");
             WebrtcWriteTrack "a b" [1; 2]] boot.

End Tracks.


(** ** What the participant streams hold between calls *)

Module Streams.
Import V2.

Definition zero_stats : silenceStats :=
  {| totalChunks := 0; silentChunks := 0; consecutiveSilence := 0;
     lastMaxAmplitude := 0%Q |}.

(** The silence statistics of a participant's stream; those of a stream
    that has none yet are the initial ones. *)
Definition stats (participantId : string) (n : node) : silenceStats :=
  match JsMap.get participantId (participantAudioStreams n) with
  | Some i => default zero_stats (silence i)
  | None => zero_stats
  end.

Definition stats_ok (s : silenceStats) : Prop :=
  0 <= consecutiveSilence s <= silentChunks s /\ silentChunks s <= totalChunks s.

(** The chunks the handler does not reject as empty. *)
Definition accepted (chunks : list (list Z)) : list (list Z) :=
  filter (fun c => negb (Nat.eqb (length c) 0)) chunks.

(** A step of the handler that touches neither the files nor the
    streams, and removes no folder. *)
Definition keeps_audio {A} (m : M node A) : Prop :=
  forall n, disk (snd (m n)) = disk n
    /\ participantAudioStreams (snd (m n)) = participantAudioStreams n
    /\ mkdir_fails (snd (m n)) = mkdir_fails n
    /\ dirs n ⊆ dirs (snd (m n)).

(** The bytes of a chunk as [Uint8Array.from] stores them. *)
Definition as_bytes (arr : list Z) : list Z := map (fun x => x mod 256) arr.

(** The 16-bit samples the Node side reads in a chunk. *)
Definition samples_of (arr : list Z) : list Z := int16_samples (as_bytes arr).



End Streams.


(** ** Helpers of the transforms of [meetbot-v2.js] *)

Module Transform.

(** [Math.abs(x)] *)
Definition Math_abs (x : Js.num) : Js.num :=
  match x with
  | Js.NaN => Js.NaN
  | Js.Inf _ => Js.Inf false
  | Js.Fin q => Js.Fin (Qabs q)
  end.

(** [calculateMaxAmplitude(float32Array)]; [absValue > max] is
    [max < absValue]. *)
Definition calculateMaxAmplitude (float32Array : list Js.num) : Js.num :=
  fold_left (fun max x =>
               let absValue := Math_abs x in
               if Js.lt max absValue then absValue else max)
            float32Array (Js.Fin 0).

(** What the second transform hands over: [Array.from(i16)] for the
    [Uint8Array] of [f32ToI16LEBytes], two numbers per sample. *)
Definition second_transform_chunk (audioData : list Js.num) : list Z :=
  Audio.f32ToI16 audioData.

End Transform.

(** ** The frame handler of the second transform of [meetbot-v2.js]

    The handler runs in the page, on [userManager] and [receiverManager]
    made by [new UserManager()] and [new ReceiverManager()] from the
    classes the same [page.evaluate] defines. *)

Module Frames.
Import Resolver.

(** The methods the page's [ReceiverManager] class defines. *)
Definition ReceiverManager : list string :=
  ["addReceiver"; "getReceiverId"; "mapSourceToStream"; "getStreamIdBySourceId";
   "getReceiverByStreamId"]%string.

(** [obj.name(...)] on an instance of a class with the methods [cls].
    A name the class does not define reads as [undefined], and calling
    it throws; [value] is what the method returns where it exists. *)
Definition call {A} (cls : list string) (name : string) (value : A) : result A :=
  if existsb (String.eqb name) cls then Ok value
  else Throw (TypeError (name ++ " is not a function")).

(** The attribution of one frame, lines "Get contributing sources" to
    "Create a synthetic ID based on track as last resort": the chosen
    [(participantId, displayName)] and the user manager afterwards.
    [contributingSources] and [getStreamIdForSource] are what
    [receiverManager.getContributingSources(event.receiver)] and
    [receiverManager.getStreamIdForSource(source)] return, for a class
    that has these methods. *)
Definition resolve (cls : list string) (um : UserManager)
    (contributingSources : list csrc) (getStreamIdForSource : Z -> option string)
    (streamId : option string) (trackId now : string)
  : result ((string * string) * UserManager) :=
  match call cls "getContributingSources" contributingSources with
  | Throw e => Throw e
  | Ok contributingSources =>
      let loudestSource := loudest_source contributingSources in
      (* first try by contributing source *)
      let by_source :=
        match loudestSource with
        | Some src =>
            match call cls "getStreamIdForSource" (getStreamIdForSource src) with
            | Throw e => Throw e
            | Ok (Some sourceStreamId) =>
                Ok (if truthy sourceStreamId
                    then found (getParticipantByStreamId sourceStreamId um)
                    else (None, None))
            | Ok None => Ok (None, None)
            end
        | None => Ok (None, None)
        end in
      match by_source with
      | Throw e => Throw e
      | Ok (participantId1, displayName1) =>
          (* if not found, try by stream id *)
          let '(participantId2, displayName2, um2) :=
            if negb (truthy_opt participantId1) && truthy_opt streamId
            then match getParticipantByStreamId (default "" streamId) um with
                 | Some u =>
                     (Some (participantId u), Some (displayName u),
                      associateStream (participantId u) streamId um)
                 | None => (participantId1, displayName1, um)
                 end
            else (participantId1, displayName1, um) in
          (* if still not found, use any available participant, else a
             synthetic one *)
          if negb (truthy_opt participantId2)
          then match getFirstParticipant um2 with
               | Some u =>
                   Ok ((participantId u, displayName u),
                       associateStream (participantId u) streamId um2)
               | None =>
                   let pid := ("unknown_" ++ trackId)%string in
                   Ok ((pid, "Unknown Speaker"%string),
                       associateStream pid streamId
                         (addUser pid "Unknown Speaker" now um2))
               end
          else Ok ((default "" participantId2, default "" displayName2), um2)
      end
  end.

(** An [AudioData] frame: its counts and the samples of each plane. *)
Record AudioData : Type := {
  numberOfChannels : nat;
  numberOfFrames : nat;
  planes : list (list Js.num)
}.

(** [frame.copyTo(dest, { planeIndex })] into a [Float32Array] of
    [numberOfFrames] elements: the samples of the plane, and a
    RangeError for a plane the frame lacks or one of another size. *)
Definition copyTo (frame : AudioData) (planeIndex : nat) : result (list Js.num) :=
  match planes frame !! planeIndex with
  | Some samples =>
      if Nat.eqb (length samples) (numberOfFrames frame) then Ok samples
      else Throw (RangeError "copyTo")
  | None => Throw (RangeError "copyTo")
  end.

(** [for (i ...) audioData[i] += channelData[i]] on two [Float32Array]s
    of one length: each sum is stored as a float32. *)
Definition accumulate (audioData channelData : list Js.num) : list Js.num :=
  zip_with (fun a c => Ieee.fround (Ieee.add a c)) audioData channelData.

(** The loop over the channels. *)
Fixpoint add_channels (frame : AudioData) (channels : list nat)
    (audioData : list Js.num) : result (list Js.num) :=
  match channels with
  | [] => Ok audioData
  | channel :: rest =>
      match copyTo frame channel with
      | Ok channelData => add_channels frame rest (accumulate audioData channelData)
      | Throw e => Throw e
      end
  end.

(** "Extract audio data" and "Convert multi-channel to mono if needed". *)
Definition extract (frame : AudioData) : result (list Js.num) :=
  let numChannels := numberOfChannels frame in
  let numSamples := numberOfFrames frame in
  if (1 <? numChannels)%nat
  then match add_channels frame (seq 0 numChannels) (replicate numSamples (Js.Fin 0)) with
       | Ok audioData =>
           Ok (map (fun a =>
                      Ieee.fround (Ieee.div a (Js.Fin (inject_Z (Z.of_nat numChannels)))))
                   audioData)
       | Throw e => Throw e
       end
  else copyTo frame 0.

(** [maxAmplitude = Math.max(maxAmplitude, Math.abs(audioData[i]))] *)
Definition maxAmplitude (audioData : list Js.num) : Js.num :=
  fold_left (fun m x => Js.Math_max m (Transform.Math_abs x)) audioData (Js.Fin 0).

(** [maxAmplitude < 0.0001], the literal being a double. *)
Definition isSilent (audioData : list Js.num) : bool :=
  Js.lt (maxAmplitude audioData) (Ieee.double (1 # 10000)).

(** A call [window.sendParticipantAudioChunk(participantId, displayName,
    Array.from(i16))]. *)
Record sent : Type := {
  sent_participantId : string;
  sent_displayName : string;
  sent_bytes : list Z
}.

(** What becomes of the frame: [controller.enqueue(frame)],
    [frame.close()], or neither. *)
Inductive fate : Type := Enqueued | Closed | Untouched.

Record handled : Type := {
  sends : list sent;
  frame_fate : fate;
  manager : UserManager
}.

(** [transform(frame, controller)].  Every exception of the body is
    caught by the handler's own [catch], which closes the frame. *)
Definition transform (cls : list string) (um : UserManager)
    (contributingSources : list csrc) (getStreamIdForSource : Z -> option string)
    (streamId : option string) (trackId now : string) (frame : option AudioData)
  : handled :=
  match frame with
  | None => {| sends := []; frame_fate := Untouched; manager := um |}
  | Some frame =>
      match extract frame with
      | Throw _ => {| sends := []; frame_fate := Closed; manager := um |}
      | Ok audioData =>
          if isSilent audioData
          then {| sends := []; frame_fate := Enqueued; manager := um |}
          else
            match resolve cls um contributingSources getStreamIdForSource
                          streamId trackId now with
            | Throw _ => {| sends := []; frame_fate := Closed; manager := um |}
            | Ok ((participantId, displayName), um') =>
                {| sends := [{| sent_participantId := participantId;
                                sent_displayName := displayName;
                                sent_bytes := Audio.f32ToI16 audioData |}];
                   frame_fate := Enqueued; manager := um' |}
            end
      end
  end.

(** The functions declared where the handlers of the page are defined,
    inside [page.evaluate].  The helpers [convertToMono],
    [calculateMaxAmplitude] and [convertFloat32ToInt16] are functions of
    the Node program and are not among them. *)
Definition page_functions : list string := ["f32ToI16LEBytes"]%string.

(** [name(...)] for a function name: a name that is not declared is a
    ReferenceError; [value] is what the function returns where it
    exists. *)
Definition call_function {A} (scope : list string) (name : string) (value : A)
  : result A :=
  if existsb (String.eqb name) scope then Ok value
  else Throw (ReferenceError (name ++ " is not defined")).

(** The lines of the first transform from [convertToMono] to the choice
    of the participant; [buffer] is what [frame.copyTo(buffer)] filled
    in, and the stream is [streams[0]?.id || track.id]. *)
Definition first_resolve (scope : list string) (um : UserManager)
    (buffer : list Js.num) (numberOfChannels : nat) (streamId now : string)
  : result (option sent * UserManager) :=
  match call_function scope "convertToMono"
          (Audio.convertToMono buffer numberOfChannels) with
  | Throw e | Ok (Throw e) => Throw e
  | Ok (Ok monoData) =>
      match call_function scope "calculateMaxAmplitude"
              (Transform.calculateMaxAmplitude monoData) with
      | Throw e => Throw e
      | Ok maxAmplitude =>
          if Js.lt maxAmplitude (Ieee.double (1 # 10000)) then Ok (None, um)
          else
            match call_function scope "convertFloat32ToInt16"
                    (Audio.convertFloat32ToInt16 monoData) with
            | Throw e => Throw e
            | Ok i16 =>
                let '(participantId, displayName, um') :=
                  match getParticipantByStreamId streamId um with
                  | Some u => (participantId u, displayName u, um)
                  | None =>
                      let '(pid, name) :=
                        match getFirstParticipant um with
                        | Some u => (participantId u, displayName u)
                        | None => (("unknown_" ++ now)%string,
                                   "Unknown Participant"%string)
                        end in
                      (pid, name, associateStream pid (Some streamId) um)
                  end in
                Ok (Some {| sent_participantId := participantId;
                            sent_displayName := displayName;
                            sent_bytes := i16 |}, um')
            end
      end
  end.

(** [transform(frame, controller)] of the first transform.  [copied] is
    how [frame.copyTo(buffer)] ends.  A silent frame is closed, a frame
    that was sent is passed on, and every exception closes the frame. *)
Definition first_transform (scope : list string) (um : UserManager)
    (copied : result (list Js.num)) (numberOfChannels : nat) (streamId now : string)
  : handled :=
  match copied with
  | Throw _ => {| sends := []; frame_fate := Closed; manager := um |}
  | Ok buffer =>
      match first_resolve scope um buffer numberOfChannels streamId now with
      | Throw _ => {| sends := []; frame_fate := Closed; manager := um |}
      | Ok (None, um') => {| sends := []; frame_fate := Closed; manager := um' |}
      | Ok (Some chunk, um') =>
          {| sends := [chunk]; frame_fate := Enqueued; manager := um' |}
      end
  end.

(** The scope a handler would need for the first transform to work. *)
Definition with_node_helpers : list string :=
  ("convertToMono" :: "calculateMaxAmplitude" :: "convertFloat32ToInt16"
     :: page_functions)%string.

(** A one-channel frame holding the sample one half. *)
Definition loud_frame : AudioData :=
  {| numberOfChannels := 1; numberOfFrames := 1; planes := [[Js.Fin (1 # 2)]] |}.

(** A class like [ReceiverManager] that has the two methods besides. *)
Definition with_both_methods : list string :=
  ("getContributingSources" :: "getStreamIdForSource" :: ReceiverManager)%string.

End Frames.



(** ** The session tables of [botv3.js] ([RecordingSession])

    As for [onTrackOpen] above, the tables in memory are modelled; the
    JSON documents written from them and the activity log are not.  A
    table is a plain object; its keys are taken not to name a member of
    [Object.prototype]. *)

Module Session.

Record participant : Type := {
  p_id : string;
  display_name : string;
  first_seen : string;
  last_seen : string
}.

(** One element of the array that comes with a participants event. *)
Record seen : Type := {
  seen_participant_id : option string;
  seen_id : option string;
  seen_display_name : option string;
  seen_name : option string
}.

Definition truthy (s : option string) : bool :=
  match s with Some x => negb (String.eqb x "") | None => false end.

(** [a || b] *)
Definition or_else (a b : option string) : option string :=
  if truthy a then a else b.

(** [const id = p.participant_id || p.id; if (!id) continue;]: the
    identifier a round of the loop works on, if it works at all. *)
Definition key (p : seen) : option string :=
  let id := or_else (seen_participant_id p) (seen_id p) in
  if truthy id then id else None.

(** One round of the loop of [onParticipants]. *)
Definition upsert (now : string) (participants : gmap string participant)
    (p : seen) : gmap string participant :=
  match key p with
  | None => participants
  | Some id =>
      let display_name :=
        default "Unknown"%string
          (or_else (or_else (seen_display_name p) (seen_name p)) (Some "Unknown"%string)) in
      match participants !! id with
      | None =>
          <[id := {| p_id := id; display_name := display_name;
                     first_seen := now; last_seen := now |}]> participants
      | Some old =>
          <[id := {| p_id := p_id old; display_name := display_name;
                     first_seen := first_seen old; last_seen := now |}]> participants
      end
  end.

(** [onParticipants(arr)]; [now] is the time read once, before the loop. *)
Definition onParticipants (arr : list seen) (now : string)
    (participants : gmap string participant) : gmap string participant :=
  fold_left (upsert now) arr participants.








Definition ann : seen :=
  {| seen_participant_id := Some "u1"%string; seen_id := None;
     seen_display_name := Some "Ann"%string; seen_name := None |}.

End Session.


(** ** The page hook [webrtc-hook.js]

    Identifiers that reach the hook as values of any type are taken to
    be strings already; [String(x)] is then the identity. *)

Module Hook.

(** An element of the array passed to [hookUpdateStreamMap]; a [null]
    element is [None]. *)
Record pair : Type := {
  stream_id : option string;
  participant_id : option string
}.

(** [p && p.stream_id && p.participant_id]: what the element sets, if
    anything. *)
Definition assigns (p : option pair) : option (string * string) :=
  match p with
  | Some {| stream_id := Some sid; participant_id := Some pid |} =>
      if Resolver.truthy sid && Resolver.truthy pid then Some (sid, pid) else None
  | _ => None
  end.

(** [hookUpdateStreamMap(pairs)] *)
Definition hookUpdateStreamMap (pairs : list (option pair))
    (StreamMap : JsMap.t string) : JsMap.t string :=
  fold_left (fun m p => match assigns p with
                        | Some (sid, pid) => JsMap.set sid pid m
                        | None => m
                        end) pairs StreamMap.

(** [(a.audioLevel || 0)] *)
Definition level (s : Resolver.csrc) : Q := default 0%Q (Resolver.audioLevel s).

(** [sources.sort((a, b) => (b.audioLevel||0) - (a.audioLevel||0))].
    [Array.prototype.sort] is stable, and the comparator orders by level
    alone, so the result is the one order that is descending by level
    and keeps sources of equal level as they were; it is built here by
    insertion from the right. *)
Fixpoint insert_desc (x : Resolver.csrc) (sorted : list Resolver.csrc)
  : list Resolver.csrc :=
  match sorted with
  | [] => [x]
  | y :: r => if Js.Qltb (level x) (level y) then y :: insert_desc x r
              else x :: y :: r
  end.
Definition sort_desc (sources : list Resolver.csrc) : list Resolver.csrc :=
  fold_right insert_desc [] sources.

(** The [participantId] a frame of [pump] ends up with:
    [StreamMap.get(String(top.source)) || null] for the first source of
    the sorted list, [null] when there is no source. *)
Definition speaker (sources : list Resolver.csrc) (StreamMap : JsMap.t string)
  : option string :=
  match sort_desc sources with
  | [] => None
  | top :: _ =>
      match JsMap.get (pretty (Resolver.source top)) StreamMap with
      | Some pid => if Resolver.truthy pid then Some pid else None
      | None => None
      end
  end.

(** A [track] event of a peer connection: the track's identifier and
    kind if the event has a track, the identifier of its first stream
    and the transceiver's mid. *)
Record track_event : Type := {
  ev_track : option (string * string);
  ev_streamId : option string;
  ev_mid : option string
}.

(** The arguments of one call of [startProcessor]; the receiver object
    is left out. *)
Record item : Type := {
  it_track : string;
  it_streamId : option string;
  it_mid : option string
}.

(** The hook's state: [ACTIVE], [pending], and the calls of
    [startProcessor] made so far. *)
Record page : Type := {
  ACTIVE : bool;
  pending : JsMap.t item;
  started : list item
}.

(** [x || null] *)
Definition or_null (s : option string) : option string :=
  if Resolver.truthy_opt s then s else None.

(** [if (!ev?.track || ev.track.kind !== 'audio') return;] and the three
    values read from the event. *)
Definition audio_item (ev : track_event) : option item :=
  match ev_track ev with
  | Some (id, kind) =>
      if String.eqb kind "audio"
      then Some {| it_track := id; it_streamId := or_null (ev_streamId ev);
                   it_mid := or_null (ev_mid ev) |}
      else None
  | None => None
  end.

(** The listener [attachTrackListener] installs. *)
Definition on_track (ev : track_event) (p : page) : page :=
  match audio_item ev with
  | None => p
  | Some it =>
      if ACTIVE p
      then {| ACTIVE := ACTIVE p; pending := pending p; started := started p ++ [it] |}
      else {| ACTIVE := ACTIVE p; pending := JsMap.set (it_track it) it (pending p);
              started := started p |}
  end.

(** [window.webrtcActivate()] *)
Definition webrtcActivate (p : page) : page :=
  {| ACTIVE := true; pending := [];
     started := started p ++ JsMap.values (pending p) |}.

Inductive event : Type :=
| Track (ev : track_event)
| Activate.

Definition step (p : page) (e : event) : page :=
  match e with
  | Track ev => on_track ev p
  | Activate => webrtcActivate p
  end.

Definition run (es : list event) (p : page) : page := fold_left step es p.

Definition installed : page := {| ACTIVE := false; pending := []; started := [] |}.

(** The audio tracks among some [track] events, in order. *)
Definition audio_items (evs : list track_event) : list item := omap audio_item evs.

(** The items waiting after some [track] events that came before the
    activation. *)
Definition waiting (evs : list track_event) : JsMap.t item :=
  fold_left (fun m it => JsMap.set (it_track it) it m) (audio_items evs) [].

(** Every value of the waiting map sits under its own track identifier. *)
Definition keyed (m : JsMap.t item) : Prop :=
  Forall (fun e => it_track (snd e) = fst e) m.

Definition audio_event (id : string) (stream : string) : track_event :=
  {| ev_track := Some (id, "audio"%string); ev_streamId := Some stream;
     ev_mid := Some "0"%string |}.

End Hook.


(** ** The participant list of the meeting metadata
       ([updateMeetingParticipants] of [meetbot-v2.js])

    A participant is a plain object with properties that are strings or
    [null].  [cleanDisplayName], a list of text replacements, is an
    argument: what is modelled does not depend on what it returns. *)

Module Meeting.

Inductive value : Type :=
| Str (s : string)
| Null.

Global Instance value_eq_dec : EqDecision value.
Proof. solve_decision. Defined.

(** A value in a boolean position. *)
Definition truthy (v : option value) : bool :=
  match v with
  | Some (Str s) => negb (String.eqb s "")
  | _ => false
  end.

(** [if (participant.display_name)
       participant.display_name = cleanDisplayName(participant.display_name)] *)
Definition cleaned (cleanDisplayName : string -> string)
    (participant : gmap string value) : gmap string value :=
  match participant !! "display_name"%string with
  | Some (Str s) =>
      if truthy (Some (Str s))
      then <["display_name"%string := Str (cleanDisplayName s)]> participant
      else participant
  | _ => participant
  end.

(** [participants.findIndex(p => p.participant_id === id)]; a missing
    property is [undefined] on both sides. *)
Fixpoint findIndex (id : option value) (participants : list (gmap string value))
  : option nat :=
  match participants with
  | [] => None
  | p :: r =>
      if decide (p !! "participant_id"%string = id) then Some 0%nat
      else S <$> findIndex id r
  end.

(** One round of the [forEach]; [{...old, ...participant}] keeps the
    properties of [old] that [participant] does not have. *)
Definition update_one (cleanDisplayName : string -> string)
    (participants : list (gmap string value)) (participant : gmap string value)
  : list (gmap string value) :=
  let participant := cleaned cleanDisplayName participant in
  match findIndex (participant !! "participant_id"%string) participants with
  | Some existingIndex =>
      match participants !! existingIndex with
      | Some old => <[existingIndex := participant ∪ old]> participants
      | None => participants
      end
  | None => participants ++ [participant]
  end.

(** [updateMeetingParticipants(participantData)] for an array; a single
    participant is the array of that one element. *)
Definition updateMeetingParticipants (cleanDisplayName : string -> string)
    (participantData participants : list (gmap string value))
  : list (gmap string value) :=
  fold_left (update_one cleanDisplayName) participantData participants.

(** The [participant_id] properties of a list, in order. *)
Definition ids (l : list (gmap string value)) : list (option value) :=
  map (fun p : gmap string value => p !! "participant_id"%string) l.

(** The identifiers of an update that the list does not know, each once,
    in the order of their first mention. *)
Fixpoint new_ids (known data : list (option value)) : list (option value) :=
  match data with
  | [] => []
  | id :: r =>
      if decide (id ∈ known) then new_ids known r
      else id :: new_ids (known ++ [id]) r
  end.

Definition person (id name : string) : gmap string value :=
  {[ "participant_id"%string := Str id; "display_name"%string := Str name ]}.

End Meeting.


(** ** Proof steps used more than once *)

(** The loudest source found so far stays the one found when the scan
    passes over a source that does not beat it. *)
Ltac keep_loudest Ho :=
  match type of Ho with
  | match ?o with _ => _ end =>
      destruct o as [?src|]; [|exact Ho];
      let x := fresh "x" in
      let Hx := fresh "Hx" in
      destruct Ho as (? & ? & x & Hx & ? & ?);
      repeat split; try assumption;
      exists x; split; [apply in_or_app; now left|auto]
  end.

(** Case analysis on a lookup in an insertion-ordered map, by key. *)
Ltac by_key k k' :=
  let E := fresh "E" in
  destruct (String.eqb k k') eqn:E; cbn;
  rewrite ?String.eqb_refl, ?E.

(** Case analysis on which of the two example writers a key finds. *)
Ltac which_writer H :=
  cbn [JsMap.get] in H;
  repeat match type of H with
         | context [String.eqb ?k ?c] =>
             destruct (String.eqb_spec k c); [subst|]
         end;
  try discriminate H; try (injection H as <-).

(** * Properties *)

(** ** Little-endian fields *)

Section LittleEndian.

Lemma byte_land (v : Z) : Z.land v 255 = v mod 256.
Proof. exact (Z.land_ones v 8 ltac:(lia)). Qed.

Lemma le_decode_u32le (v : Z) :
  0 <= v <= 4294967295 -> Wav.le_decode (Wav.u32le_bytes v) = v.
Proof.
  intros Hv. unfold Wav.u32le_bytes, Wav.le_decode.
  rewrite !byte_land, !Z.shiftr_div_pow2 by lia.
  change (2 ^ 8) with 256. change (2 ^ 16) with 65536.
  change (2 ^ 24) with 16777216.
  Z.div_mod_to_equations. lia.
Qed.

Lemma length_u32le (v : Z) : length (Wav.u32le_bytes v) = 4%nat.
Proof. reflexivity. Qed.

End LittleEndian.

(** ** The header writer *)

Section Header.

Lemma u32_range_true (v : Z) :
  0 <= v <= 4294967295 -> (0 <=? v) && (v <=? 4294967295) = true.
Proof. intros. apply andb_true_iff. split; apply Z.leb_le; lia. Qed.

Lemma u32_range_false (v : Z) :
  4294967295 < v -> (0 <=? v) && (v <=? 4294967295) = false.
Proof.
  intros. apply andb_false_iff. right. apply Z.leb_gt. lia.
Qed.

Lemma wav_header_ok {S} (dataLength sampleRate : Z) (s : S) :
  0 <= dataLength -> 36 + dataLength <= 4294967295 ->
  0 <= sampleRate <= 2147483647 ->
  Wav.wav_header dataLength sampleRate s
  = (Ok (Wav.canonical_header dataLength sampleRate), s).
Proof.
  intros Hd Hd' Hr. unfold Wav.wav_header, Wav.writeUInt32LE, Wav.writeUInt16LE,
    Wav.write_ascii, ret, mbind, M_bind, mret, M_ret.
  rewrite (u32_range_true (36 + dataLength)) by lia.
  rewrite (u32_range_true sampleRate) by lia.
  rewrite (u32_range_true (sampleRate * 2)) by lia.
  rewrite (u32_range_true dataLength) by lia.
  reflexivity.
Qed.

Lemma length_canonical_header (d r : Z) :
  length (Wav.canonical_header d r) = 44%nat.
Proof. reflexivity. Qed.

End Header.

(** ** The sequential copy of the finalizer *)

Section Finalizer.

Lemma take_drop_length {A} (n : nat) (l : list A) :
  take n l ++ drop (length (take n l)) l = l.
Proof.
  rewrite length_take. destruct (Nat.le_gt_cases n (length l)) as [H|H].
  - rewrite Nat.min_l by lia. apply take_drop.
  - rewrite Nat.min_r by lia. rewrite take_ge by lia.
    rewrite drop_all. apply app_nil_r.
Qed.

Lemma take_nil_inv {A} (n : nat) (l : list A) :
  (0 < n)%nat -> take n l = [] -> l = [].
Proof. destruct n; [lia|]. destruct l; [reflexivity|discriminate]. Qed.

Lemma write_at_end (buf old : list Z) :
  Fs.write_at (length old) buf old = old ++ buf.
Proof.
  unfold Fs.write_at. rewrite Nat.sub_diag. simpl. rewrite app_nil_r.
  rewrite take_ge by lia. rewrite drop_ge by lia. now rewrite app_nil_r.
Qed.

Lemma bind_ok {S A B} (m : M S A) (k : A -> M S B) (s s' : S) (a : A) :
  m s = (Ok a, s') -> (mbind k m) s = k a s'.
Proof. intros H. unfold mbind, M_bind. now rewrite H. Qed.

Lemma bind_throw {S A B} (m : M S A) (k : A -> M S B) (s s' : S) (e : error) :
  m s = (Throw e, s') -> (mbind k m) s = (Throw e, s').
Proof. intros H. unfold mbind, M_bind. now rewrite H. Qed.

Lemma readSync_eq (s : Fs.t) (fd n pos : nat) (p : string) (c : list Z) :
  Fs.fds s !! fd
    = Some {| Fs.fd_path := p; Fs.fd_pos := pos; Fs.fd_flag := Fs.FlagR |} ->
  Fs.files s !! p = Some c ->
  Fs.readSync fd n s
  = (Ok (take n (drop pos c)),
     Fs.with_fds (<[fd := {| Fs.fd_path := p;
                             Fs.fd_pos := pos + length (take n (drop pos c));
                             Fs.fd_flag := Fs.FlagR |}]> (Fs.fds s)) s).
Proof. intros Hfd Hc. unfold Fs.readSync. now rewrite Hfd, Hc. Qed.

Lemma writeSync_eq (s : Fs.t) (fd pos : nat) (p : string) (buf c : list Z) :
  Fs.fds s !! fd
    = Some {| Fs.fd_path := p; Fs.fd_pos := pos; Fs.fd_flag := Fs.FlagW |} ->
  Fs.files s !! p = Some c ->
  Fs.writeSync fd buf s
  = (Ok tt,
     {| Fs.files := <[p := Fs.write_at pos buf c]> (Fs.files s);
        Fs.fds := <[fd := {| Fs.fd_path := p; Fs.fd_pos := pos + length buf;
                             Fs.fd_flag := Fs.FlagW |}]> (Fs.fds s);
        Fs.next_fd := Fs.next_fd s |}).
Proof. intros Hfd Hc. unfold Fs.writeSync. now rewrite Hfd, Hc. Qed.

Lemma copy_loop_spec (fuel size rawFd wavFd : nat) (rawPath wavPath : string)
    (raw : list Z) :
  (0 < size)%nat -> rawFd <> wavFd -> rawPath <> wavPath ->
  forall (s : Fs.t) (p : nat) (w : list Z),
  Fs.files s !! rawPath = Some raw ->
  Fs.files s !! wavPath = Some w ->
  Fs.fds s !! rawFd
    = Some {| Fs.fd_path := rawPath; Fs.fd_pos := p; Fs.fd_flag := Fs.FlagR |} ->
  Fs.fds s !! wavFd
    = Some {| Fs.fd_path := wavPath; Fs.fd_pos := length w; Fs.fd_flag := Fs.FlagW |} ->
  (length raw - p < fuel)%nat ->
  exists s', Wav.copy_loop fuel size rawFd wavFd s = (Ok tt, s')
    /\ Fs.files s' = <[wavPath := w ++ drop p raw]> (Fs.files s)
    /\ Fs.next_fd s' = Fs.next_fd s
    /\ (forall fd, fd <> rawFd -> fd <> wavFd -> Fs.fds s' !! fd = Fs.fds s !! fd)
    /\ is_Some (Fs.fds s' !! rawFd) /\ is_Some (Fs.fds s' !! wavFd).
Proof.
  intros Hsize Hfd Hpath. induction fuel as [|fuel IH]; intros s p w Hraw Hwav Hr Hw Hfuel.
  - lia.
  - cbn [Wav.copy_loop].
    erewrite bind_ok by (eapply readSync_eq; eassumption).
    destruct (take size (drop p raw)) as [|b got] eqn:Hgot.
    + apply take_nil_inv in Hgot; [|exact Hsize].
      eexists. split; [reflexivity|]. cbn. rewrite Hgot, app_nil_r.
      repeat split.
      * symmetry. now apply insert_id.
      * intros fd H1 _. now rewrite lookup_insert_ne.
      * rewrite lookup_insert_eq. eauto.
      * rewrite lookup_insert_ne by exact Hfd. rewrite Hw. eauto.
    + erewrite bind_ok; cycle 1.
      { eapply writeSync_eq; cbn; [|eassumption].
        rewrite lookup_insert_ne by exact Hfd. exact Hw. }
      rewrite write_at_end.
      match goal with |- context [Wav.copy_loop fuel size rawFd wavFd ?s2] =>
        destruct (IH s2 (p + length (b :: got))%nat (w ++ b :: got))
          as (s' & Hrun & Hf & Hn & Hother & Hr' & Hw')
      end.
      * cbn. now rewrite lookup_insert_ne by (intro; now apply Hpath).
      * cbn. now rewrite lookup_insert_eq.
      * cbn. rewrite lookup_insert_ne by (intro; now apply Hfd).
        now rewrite lookup_insert_eq.
      * cbn [Fs.fds]. rewrite lookup_insert_eq. now rewrite length_app.
      * assert (p < length raw)%nat.
        { destruct (Nat.lt_ge_cases p (length raw)) as [?|Hge]; [assumption|].
          rewrite drop_ge in Hgot by lia. now destruct size. }
        cbn [length]. lia.
      * exists s'. split; [exact Hrun|]. cbn in Hf, Hn. rewrite Hf, Hn.
        rewrite insert_insert_eq, <- app_assoc, <- drop_drop.
        change (S (length got)) with (length (b :: got)).
        rewrite <- Hgot, take_drop_length.
        repeat split; try assumption.
        intros fd H1 H2. rewrite Hother by assumption. cbn.
        rewrite !lookup_insert_ne by congruence. reflexivity.
Qed.

Lemma closeSync_eq (s : Fs.t) (fd : nat) :
  is_Some (Fs.fds s !! fd) ->
  Fs.closeSync fd s = (Ok tt, Fs.with_fds (delete fd (Fs.fds s)) s).
Proof. intros [d Hd]. unfold Fs.closeSync. now rewrite Hd. Qed.

Lemma bufSize_pos : (0 < Wav.bufSize)%nat.
Proof.
  unfold Wav.bufSize. rewrite Nat.shiftl_1_l.
  apply Nat.neq_0_lt_0, Nat.pow_nonzero. discriminate.
Qed.

(** The finalizer on a well-formed request: it returns normally, the
    container holds the canonical header followed by the raw bytes, and
    no other file changes. *)
Lemma finalize_with_ok (size : nat) (s : Fs.t) (rawPath wavPath : string)
    (raw : list Z) (r : Z) :
  (0 < size)%nat ->
  Fs.files s !! rawPath = Some raw ->
  rawPath <> wavPath ->
  36 + Z.of_nat (length raw) <= 4294967295 ->
  0 <= r <= 2147483647 ->
  exists s', Wav.finalize_with size rawPath wavPath r s = (Ok tt, s')
    /\ Fs.files s'
       = <[wavPath := Wav.canonical_header (Z.of_nat (length raw)) r ++ raw]> (Fs.files s)
    /\ (forall fd, (fd < Fs.next_fd s)%nat -> Fs.fds s' !! fd = Fs.fds s !! fd).
Proof.
  intros Hsize Hraw Hne HS Hr. unfold Wav.finalize_with.
  erewrite bind_ok by (unfold Fs.statSync; rewrite Hraw; reflexivity).
  erewrite bind_ok by reflexivity.
  unfold Wav.writeWavHeader.
  erewrite bind_ok; cycle 1.
  { erewrite bind_ok by (apply wav_header_ok; lia).
    eapply writeSync_eq; cbn; apply lookup_insert_eq. }
  change 0%nat with (length (@nil Z)) at 1. rewrite write_at_end. cbn [app].
  erewrite bind_ok; cycle 1.
  { unfold Fs.openSync. cbn [Fs.files].
    rewrite !lookup_insert_ne by congruence. rewrite Hraw. reflexivity. }
  cbn [Fs.next_fd Fs.files Fs.fds]. rewrite Nat2Z.id.
  match goal with |- context [mbind _ (Wav.copy_loop _ size ?rfd ?wfd) ?s3] =>
    destruct (copy_loop_spec (S (length raw)) size rfd wfd rawPath wavPath raw
                Hsize ltac:(lia) Hne s3 0%nat
                (Wav.canonical_header (Z.of_nat (length raw)) r))
      as (s4 & Hrun & Hf & Hn & Hother & Hr' & Hw')
  end.
  - cbn. now rewrite !lookup_insert_ne by congruence.
  - cbn. rewrite insert_insert_eq. apply lookup_insert_eq.
  - cbn. apply lookup_insert_eq.
  - cbn [Fs.fds]. rewrite lookup_insert_ne by lia. rewrite insert_insert_eq.
    rewrite lookup_insert_eq. reflexivity.
  - lia.
  - erewrite bind_ok by exact Hrun.
    erewrite bind_ok by (apply closeSync_eq; exact Hr').
    rewrite closeSync_eq; cycle 1.
    { cbn. rewrite lookup_delete_ne by lia. exact Hw'. }
    eexists. split; [reflexivity|]. cbn. rewrite Hf. cbn. rewrite drop_0.
    split.
    + now rewrite !insert_insert_eq.
    + intros fd Hfd. rewrite !lookup_delete_ne by lia.
      rewrite Hother by lia. cbn. now rewrite !lookup_insert_ne by lia.
Qed.

Lemma finalize_size_overflow (s : Fs.t) (rawPath wavPath : string)
    (raw : list Z) (r : Z) :
  Fs.files s !! rawPath = Some raw ->
  4294967259 < Z.of_nat (length raw) ->
  exists s', Wav.finalizeRawToWav rawPath wavPath r s
             = (Throw (ERR_OUT_OF_RANGE (36 + Z.of_nat (length raw))), s')
    /\ Fs.files s' !! wavPath = Some [].
Proof.
  intros Hraw HS. unfold Wav.finalizeRawToWav, Wav.finalize_with.
  erewrite bind_ok by (unfold Fs.statSync; rewrite Hraw; reflexivity).
  erewrite bind_ok by reflexivity.
  erewrite bind_throw; cycle 1.
  { unfold Wav.writeWavHeader. eapply bind_throw.
    unfold Wav.wav_header. erewrite bind_ok by reflexivity.
    eapply bind_throw. unfold Wav.writeUInt32LE.
    rewrite u32_range_false by lia. reflexivity. }
  eexists. split; [reflexivity|]. cbn. apply lookup_insert_eq.
Qed.

(** C2, amended: for a raw artifact of S bytes with 0 < S <= 4294967259
    and an integer sample rate r with 0 <= r <= 2147483647 (so that
    36 + S and the byte rate 2r fit the header's 32-bit fields),
    finalization returns normally and leaves a container of exactly
    S + 44 bytes whose bytes 40-43 are S in little-endian order, whose
    bytes 4-7 are 36 + S, whose bytes 24-27 are r, and whose bytes from
    44 on are the raw artifact, byte for byte; the raw artifact itself is
    unchanged. *)
Theorem finalize_container (s : Fs.t) (rawPath wavPath : string)
    (raw : list Z) (r : Z) :
  Fs.files s !! rawPath = Some raw ->
  rawPath <> wavPath ->
  (0 < length raw)%nat ->
  Z.of_nat (length raw) <= 4294967259 ->
  0 <= r <= 2147483647 ->
  exists s' wav,
    Wav.finalizeRawToWav rawPath wavPath r s = (Ok tt, s')
    /\ Fs.files s' !! wavPath = Some wav
    /\ length wav = (length raw + 44)%nat
    /\ take 4 (drop 40 wav) = Wav.u32le_bytes (Z.of_nat (length raw))
    /\ Wav.le_decode (take 4 (drop 40 wav)) = Z.of_nat (length raw)
    /\ Wav.le_decode (take 4 (drop 4 wav)) = 36 + Z.of_nat (length raw)
    /\ Wav.le_decode (take 4 (drop 24 wav)) = r
    /\ drop 44 wav = raw
    /\ Fs.files s' !! rawPath = Some raw.
Proof.
  intros Hraw Hne Hpos HS Hr.
  destruct (finalize_with_ok Wav.bufSize s rawPath wavPath raw r bufSize_pos
              Hraw Hne ltac:(lia) Hr) as (s' & Hrun & Hf & _).
  exists s', (Wav.canonical_header (Z.of_nat (length raw)) r ++ raw).
  split; [exact Hrun|]. rewrite Hf, lookup_insert_eq.
  rewrite lookup_insert_ne by congruence.
  repeat split; try assumption.
  - rewrite length_app, length_canonical_header. lia.
  - change (take 4 (drop 40 (Wav.canonical_header (Z.of_nat (length raw)) r ++ raw)))
      with (Wav.u32le_bytes (Z.of_nat (length raw)) ++ take 0 raw).
    rewrite take_0, app_nil_r. apply le_decode_u32le. lia.
  - change (take 4 (drop 4 (Wav.canonical_header (Z.of_nat (length raw)) r ++ raw)))
      with (Wav.u32le_bytes (36 + Z.of_nat (length raw))).
    apply le_decode_u32le. lia.
  - change (take 4 (drop 24 (Wav.canonical_header (Z.of_nat (length raw)) r ++ raw)))
      with (Wav.u32le_bytes r).
    apply le_decode_u32le. lia.
Qed.

Lemma finalize_container_witness :
  exists s' wav,
    Wav.finalizeRawToWav "t.pcm16le.raw" "t.pcm16le.wav" 48000 Wav.example_disk
      = (Ok tt, s')
    /\ Fs.files s' !! "t.pcm16le.wav"%string = Some wav
    /\ length wav = 48%nat
    /\ take 4 (drop 40 wav) = [4; 0; 0; 0]
    /\ Wav.le_decode (take 4 (drop 40 wav)) = 4
    /\ Wav.le_decode (take 4 (drop 4 wav)) = 40
    /\ Wav.le_decode (take 4 (drop 24 wav)) = 48000
    /\ drop 44 wav = [1; 2; 3; 4]
    /\ Fs.files s' !! "t.pcm16le.raw"%string = Some [1; 2; 3; 4].
Proof.
  apply (finalize_container Wav.example_disk "t.pcm16le.raw" "t.pcm16le.wav"
           [1; 2; 3; 4] 48000).
  - reflexivity.
  - discriminate.
  - simpl. lia.
  - simpl. lia.
  - lia.
Defined.

(** C2 as stated fails where a header field overflows.  A raw artifact
    of 4294967260 bytes makes the RIFF size 36 + S equal to 4294967296;
    the rate 2147483648 makes the byte rate equal to 4294967296.  In both
    cases the header writer throws and the container, already opened for
    writing, is left with 0 bytes instead of S + 44. *)
Lemma finalize_container_counterexample :
  (exists raw, Fs.files Wav.long_disk !! "t.pcm16le.raw"%string = Some raw
     /\ Z.of_nat (length raw) = 4294967260
     /\ exists s',
          Wav.finalizeRawToWav "t.pcm16le.raw" "t.pcm16le.wav" 16000 Wav.long_disk
          = (Throw (ERR_OUT_OF_RANGE 4294967296), s')
          /\ Fs.files s' !! "t.pcm16le.wav"%string = Some [])
  /\ Fs.files Wav.example_disk !! "t.pcm16le.raw"%string = Some [1; 2; 3; 4]
  /\ exists s',
       Wav.finalizeRawToWav "t.pcm16le.raw" "t.pcm16le.wav" 2147483648
         Wav.example_disk
       = (Throw (ERR_OUT_OF_RANGE 4294967296), s')
       /\ Fs.files s' !! "t.pcm16le.wav"%string = Some [].
Proof.
  split.
  - exists (replicate (Z.to_nat 4294967260) 0).
    assert (Hlook : Fs.files Wav.long_disk !! "t.pcm16le.raw"%string
                    = Some (replicate (Z.to_nat 4294967260) 0))
      by apply lookup_singleton_eq.
    assert (Hlen : Z.of_nat (length (replicate (Z.to_nat 4294967260) 0)) = 4294967260)
      by (rewrite length_replicate; apply Z2Nat.id; discriminate).
    split; [exact Hlook|]. split; [exact Hlen|].
    destruct (finalize_size_overflow Wav.long_disk "t.pcm16le.raw" "t.pcm16le.wav"
                _ 16000 Hlook) as (s' & Hrun & Hwav).
    + rewrite Hlen. reflexivity.
    + exists s'. split; [|exact Hwav]. rewrite Hrun, Hlen. reflexivity.
  - split; [reflexivity|]. eexists. split; vm_compute; reflexivity.
Qed.

End Finalizer.

(** ** Insertion-ordered maps *)

Section JsMapFacts.
Context {V : Type}.
Implicit Types (m : JsMap.t V) (k : string) (v : V).

Lemma get_set_eq m k v : JsMap.get k (JsMap.set k v m) = Some v.
Proof.
  induction m as [|[k' v'] m IH]; cbn.
  - now rewrite String.eqb_refl.
  - by_key k k'; [reflexivity|exact IH].
Qed.

Lemma get_set_ne m k k' v :
  k <> k' -> JsMap.get k' (JsMap.set k v m) = JsMap.get k' m.
Proof.
  intros Hne. induction m as [|[k0 v0] m IH]; cbn.
  - apply not_eq_sym, String.eqb_neq in Hne. now rewrite Hne.
  - destruct (String.eqb k k0) eqn:E; cbn.
    + apply String.eqb_eq in E. subst k0.
      apply not_eq_sym, String.eqb_neq in Hne. now rewrite Hne.
    + now rewrite IH.
Qed.

Lemma get_delete_eq m k : JsMap.get k (JsMap.delete k m) = None.
Proof.
  induction m as [|[k' v'] m IH]; cbn; [reflexivity|].
  by_key k k'; exact IH.
Qed.

Lemma get_delete_none m k k' :
  JsMap.get k m = None -> JsMap.get k (JsMap.delete k' m) = None.
Proof.
  induction m as [|[k0 v0] m IH]; cbn; [reflexivity|].
  destruct (String.eqb k k0) eqn:E; [discriminate|]. intros H.
  destruct (String.eqb k' k0); cbn; [now apply IH|]. rewrite E. now apply IH.
Qed.

Lemma get_none_not_key m k : JsMap.get k m = None -> k ∉ JsMap.keys m.
Proof.
  induction m as [|[k' v'] m IH]; cbn.
  - intros _. apply not_elem_of_nil.
  - destruct (String.eqb k k') eqn:E; [discriminate|]. intros H.
    apply String.eqb_neq in E. rewrite not_elem_of_cons. split; [exact E|].
    now apply IH.
Qed.

End JsMapFacts.

(** ** The raw writers *)

Section WriterFacts.
Import Writers.

Lemma on_disk_frame {A} (m : M Fs.t A) (n n' : node) (r : result A) :
  on_disk m n = (r, n') ->
  writers n' = writers n /\ tracks n' = tracks n /\ console n' = console n
  /\ m (disk n) = (r, disk n').
Proof.
  unfold on_disk. destruct (m (disk n)) as [r0 d] eqn:E.
  intros [= <- <-]. cbn. auto.
Qed.

Lemma on_disk_eq {A} (m : M Fs.t A) (n : node) (r : result A) (d : Fs.t) :
  m (disk n) = (r, d) -> on_disk m n = (r, with_disk d n).
Proof. intros H. unfold on_disk. now rewrite H. Qed.

(** What a call to [closeWriter] can do to the [writers] map. *)
Lemma closeWriter_writers (key : string) (rate : Z) (n n' : node) (r : result unit) :
  closeWriter key rate n = (r, n') ->
  (r = Ok tt /\ writers n' = JsMap.delete key (writers n))
  \/ (writers n' = writers n
      /\ (r = Ok tt -> JsMap.get key (writers n) = None /\ n' = n)).
Proof.
  unfold closeWriter. destruct (JsMap.get key (writers n)) as [w|] eqn:Hw.
  - unfold mbind, M_bind.
    destruct (on_disk (Fs.closeSync (fd w)) n) as [[[]|e] n1] eqn:E1.
    + apply on_disk_frame in E1 as (W1 & _).
      destruct (on_disk (Wav.finalizeRawToWav _ _ _) n1) as [[[]|e] n2] eqn:E2.
      * apply on_disk_frame in E2 as (W2 & _).
        unfold modify. intros [= <- <-]. left. cbn. split; [reflexivity|]. congruence.
      * apply on_disk_frame in E2 as (W2 & _).
        intros [= <- <-]. right. split; [congruence|discriminate].
    + apply on_disk_frame in E1 as (W1 & _).
      intros [= <- <-]. right. split; [congruence|discriminate].
  - intros [= <- <-]. right. auto.
Qed.

Lemma writeChunk_unknown (key : string) (u8 : list Z) (n : node) :
  JsMap.get key (writers n) = None -> writeChunk key u8 n = (Ok tt, n).
Proof. intros H. unfold writeChunk. now rewrite H. Qed.

Lemma closeWriter_unknown (key : string) (rate : Z) (n : node) :
  JsMap.get key (writers n) = None -> closeWriter key rate n = (Ok tt, n).
Proof. intros H. unfold closeWriter. now rewrite H. Qed.

Lemma closeWriter_keeps_closed (key k : string) (rate : Z) (n : node) :
  JsMap.get key (writers n) = None ->
  JsMap.get key (writers (snd (closeWriter k rate n))) = None.
Proof.
  intros H. destruct (closeWriter k rate n) as [r n'] eqn:E. cbn.
  apply closeWriter_writers in E as [[_ ->]|[-> _]]; [|exact H].
  now apply get_delete_none.
Qed.

Lemma close_each_keeps_closed (key : string) (ks : list string) (n : node) :
  JsMap.get key (writers n) = None ->
  JsMap.get key (writers (snd (close_each ks n))) = None.
Proof.
  revert n. induction ks as [|k ks IH]; intros n H; cbn; [exact H|].
  unfold mbind, M_bind.
  pose proof (closeWriter_keeps_closed key k 16000 n H) as H1.
  destruct (closeWriter k 16000 n) as [[[]|e] n1]; cbn in H1 |- *.
  - now apply IH.
  - exact H1.
Qed.

Lemma writeChunk_keeps_closed (key k : string) (u8 : list Z) (n : node) :
  JsMap.get key (writers n) = None ->
  JsMap.get key (writers (snd (writeChunk k u8 n))) = None.
Proof.
  intros H. unfold writeChunk.
  destruct (JsMap.get k (writers n)) as [w|] eqn:Hw; [|exact H].
  assert (k <> key) by congruence.
  unfold mbind, M_bind.
  destruct (on_disk (Fs.writeSync (fd w) u8) n) as [[[]|e] n1] eqn:E1;
    apply on_disk_frame in E1 as (W1 & _); cbn.
  - rewrite get_set_ne by assumption. congruence.
  - congruence.
Qed.

Lemma openWriter_keeps_closed (key k dir : string) (mt : track_meta) (n : node) :
  k <> key ->
  JsMap.get key (writers n) = None ->
  JsMap.get key (writers (snd (openWriter k dir mt n))) = None.
Proof.
  intros Hne H. unfold openWriter, mbind, M_bind.
  destruct (on_disk (Fs.openSync _ Fs.FlagW) n) as [[f|e] n1] eqn:E1;
    apply on_disk_frame in E1 as (W1 & _); cbn.
  - rewrite get_set_ne by assumption. congruence.
  - congruence.
Qed.

Lemma run_call_keeps_closed (dir key : string) (c : call) (n : node) :
  opens key c = false ->
  JsMap.get key (writers n) = None ->
  JsMap.get key (writers (run_call dir c n)) = None.
Proof.
  intros Hc H. destruct c; cbn [run_call].
  - apply openWriter_keeps_closed; [|exact H].
    cbn in Hc. now apply String.eqb_neq.
  - now apply writeChunk_keeps_closed.
  - now apply closeWriter_keeps_closed.
  - unfold onTrackOpen. now destruct (String.eqb _ _).
  - unfold onTrackMeta. destruct (String.eqb _ _); [exact H|].
    now destruct (tracks n !! key0).
  - unfold finalize_writers. now apply close_each_keeps_closed.
Qed.

Lemma run_keeps_closed (dir key : string) (cs : list call) (n : node) :
  forallb (fun c => negb (opens key c)) cs = true ->
  JsMap.get key (writers n) = None ->
  JsMap.get key (writers (run dir cs n)) = None.
Proof.
  revert n. induction cs as [|c cs IH]; intros n Hcs H; cbn; [exact H|].
  cbn in Hcs. apply andb_true_iff in Hcs as [Hc Hcs].
  apply IH; [exact Hcs|]. apply run_call_keeps_closed; [|exact H].
  now apply negb_true_iff.
Qed.

(** C8, amended: a chunk written for a key that has no open writer
    (never opened, or arriving after close) returns normally and leaves
    the whole process state as it was: no file is modified and, unlike
    what the claim says, nothing is logged, the console keeps its lines. *)
Theorem writeChunk_unknown_key (key : string) (u8 : list Z) (n : node) :
  JsMap.get key (writers n) = None ->
  writeChunk key u8 n = (Ok tt, n)
  /\ Fs.files (disk (snd (writeChunk key u8 n))) = Fs.files (disk n)
  /\ console (snd (writeChunk key u8 n)) = console n.
Proof.
  intros H. rewrite (writeChunk_unknown key u8 n H). cbn [snd]. auto.
Qed.

Lemma writeChunk_unknown_key_witness :
  writeChunk "late" [1; 2] boot = (Ok tt, boot)
  /\ Fs.files (disk (snd (writeChunk "late" [1; 2] boot))) = Fs.files (disk boot)
  /\ console (snd (writeChunk "late" [1; 2] boot)) = console boot.
Proof. apply (writeChunk_unknown_key "late" [1; 2] boot). reflexivity. Defined.

(** C8 as stated fails on its last part: the chunk dropped for the
    unknown key "late" adds no line to the console. *)
Lemma writeChunk_unknown_key_counterexample :
  JsMap.get "late" (writers boot) = None
  /\ ~ (exists line, console (snd (writeChunk "late" [1; 2] boot))
                    = console boot ++ [line]).
Proof.
  split; [reflexivity|]. intros [line H]. cbn in H. discriminate H.
Qed.

(** C10: once [closeWriter key] has returned normally the [writers] map
    has no entry for the key, and this stays so through any later calls
    that do not open the key again, the end-of-run loop included: the
    loop does not visit the key, and every later [writeChunk key] or
    [closeWriter key] returns at once with the process state unchanged,
    so nothing is written and nothing is finalized a second time. *)
Theorem closed_writer_stays_closed (dir key : string) (rate : Z)
    (n n1 : node) (cs : list call) :
  closeWriter key rate n = (Ok tt, n1) ->
  forallb (fun c => negb (opens key c)) cs = true ->
  JsMap.get key (writers n1) = None
  /\ (forall u8, writeChunk key u8 n1 = (Ok tt, n1))
  /\ (forall r, closeWriter key r n1 = (Ok tt, n1))
  /\ (let n2 := run dir cs n1 in
      JsMap.get key (writers n2) = None
      /\ (key ∉ JsMap.keys (writers n2))
      /\ (forall u8, writeChunk key u8 n2 = (Ok tt, n2))
      /\ (forall r, closeWriter key r n2 = (Ok tt, n2))).
Proof.
  intros Hclose Hcs.
  assert (H1 : JsMap.get key (writers n1) = None).
  { apply closeWriter_writers in Hclose as [[_ ->]|[_ H]].
    - apply get_delete_eq.
    - destruct (H eq_refl) as [H0 ->]. exact H0. }
  pose proof (run_keeps_closed dir key cs n1 Hcs H1) as H2.
  split; [exact H1|].
  split; [intros u8; now apply writeChunk_unknown|].
  split; [intros r; now apply closeWriter_unknown|].
  cbn zeta. split; [exact H2|].
  split; [now apply get_none_not_key|].
  split; [intros u8; now apply writeChunk_unknown|].
  intros r; now apply closeWriter_unknown.
Qed.

Lemma closed_writer_stays_closed_witness :
  let n := run "rec" [WebrtcOpenTrack "k1" (hook_meta "t1" "s1");
                      WebrtcOpenTrack "k2" (hook_meta "t2" "s2");
                      WebrtcWriteTrack "k1" [1; 2; 3; 4]] boot in
  let n1 := snd (closeWriter "k1" 16000 n) in
  let cs := [WebrtcWriteTrack "k1" [5; 6]; WebrtcCloseTrack "k1"; FinalizeWriters] in
  JsMap.get "k1" (writers n1) = None
  /\ (forall u8, writeChunk "k1" u8 n1 = (Ok tt, n1))
  /\ (forall r, closeWriter "k1" r n1 = (Ok tt, n1))
  /\ (let n2 := run "rec" cs n1 in
      JsMap.get "k1" (writers n2) = None
      /\ ("k1"%string ∉ JsMap.keys (writers n2))
      /\ (forall u8, writeChunk "k1" u8 n2 = (Ok tt, n2))
      /\ (forall r, closeWriter "k1" r n2 = (Ok tt, n2))).
Proof.
  intros n n1 cs.
  apply (closed_writer_stays_closed "rec" "k1" 16000 n n1 cs).
  - vm_compute. reflexivity.
  - reflexivity.
Defined.

(** A close that finds its writer, its descriptor and its raw artifact:
    the container is the canonical header at the rate [rrate] followed by
    the raw bytes, and the entry leaves the map. *)
Lemma closeWriter_spec (key : string) (rate : Z) (n : node) (w : writer)
    (raw : list Z) :
  JsMap.get key (writers n) = Some w ->
  is_Some (Fs.fds (disk n) !! fd w) ->
  Fs.files (disk n) !! rawPath w = Some raw ->
  rawPath w <> wavPath w ->
  36 + Z.of_nat (length raw) <= 4294967295 ->
  0 <= rrate w rate <= 2147483647 ->
  exists n', closeWriter key rate n = (Ok tt, n')
    /\ Fs.files (disk n')
       = <[wavPath w := Wav.canonical_header (Z.of_nat (length raw)) (rrate w rate)
                          ++ raw]> (Fs.files (disk n))
    /\ writers n' = JsMap.delete key (writers n)
    /\ tracks n' = tracks n /\ console n' = console n.
Proof.
  intros Hw Hfd Hraw Hne HS Hr. unfold closeWriter. rewrite Hw.
  erewrite bind_ok by (apply on_disk_eq, closeSync_eq; exact Hfd).
  destruct (finalize_with_ok Wav.bufSize
              (Fs.with_fds (delete (fd w) (Fs.fds (disk n))) (disk n))
              (rawPath w) (wavPath w) raw (rrate w rate) bufSize_pos
              Hraw Hne HS Hr) as (d' & Hrun & Hf & _).
  erewrite bind_ok by (apply on_disk_eq; cbn [disk with_disk]; exact Hrun).
  eexists. split; [reflexivity|]. cbn. rewrite Hf. auto.
Qed.

(** A writer opened by the page hook carries no sample rate, and
    [onTrackMeta] stores the discovered rate in [session.tracks] only:
    whatever rate the session has recorded for the key, the close called
    with 16000 writes 16000 into the header. *)
Lemma closeWriter_header_rate (key : string) (n : node) (w : writer)
    (raw : list Z) (ti : track_info) (sr : Z) :
  JsMap.get key (writers n) = Some w ->
  sample_rate (meta w) = None ->
  tracks n !! key = Some ti -> ti_sample_rate ti = Some sr ->
  is_Some (Fs.fds (disk n) !! fd w) ->
  Fs.files (disk n) !! rawPath w = Some raw ->
  rawPath w <> wavPath w ->
  36 + Z.of_nat (length raw) <= 4294967295 ->
  exists n' wav, closeWriter key 16000 n = (Ok tt, n')
    /\ Fs.files (disk n') !! wavPath w = Some wav
    /\ Wav.le_decode (take 4 (drop 24 wav)) = 16000
    /\ tracks n' !! key = Some ti.
Proof.
  intros Hw Hm Ht Hsr Hfd Hraw Hne HS.
  assert (Hrr : rrate w 16000 = 16000) by (unfold rrate; now rewrite Hm).
  destruct (closeWriter_spec key 16000 n w raw Hw Hfd Hraw Hne HS)
    as (n' & Hrun & Hf & _ & Htr & _); [rewrite Hrr; lia|].
  exists n'. eexists. split; [exact Hrun|]. rewrite Hf, lookup_insert_eq, Hrr, Htr.
  repeat split; assumption || reflexivity.
Qed.

(** C7, the code at the failing input: the hook opens a track, reports
    the sample rate 48000 of its first frame through the track-meta
    event, writes one chunk and closes.  The session table holds 48000
    for the track, the container header holds 16000 (bytes 128, 62). *)
Theorem discovered_rate_not_in_header :
  let n := run "rec/tracks"
             [EventTrackOpen "k1" (Some "t1") (Some "s1") (Some "0") "t0";
              WebrtcOpenTrack "k1" (hook_meta "t1" "s1");
              EventTrackMeta "k1" (Some 48000) (Some 1);
              WebrtcWriteTrack "k1" [1; 2; 3; 4];
              WebrtcCloseTrack "k1"] boot in
  (ti_sample_rate <$> tracks n !! "k1"%string) = Some (Some 48000)
  /\ exists wav, Fs.files (disk n) !! "rec/tracks/track_k1.pcm16le.wav"%string = Some wav
       /\ take 4 (drop 24 wav) = [128; 62; 0; 0]
       /\ Wav.le_decode (take 4 (drop 24 wav)) = 16000
       /\ drop 44 wav = [1; 2; 3; 4].
Proof.
  cbn zeta. split; [vm_compute; reflexivity|].
  eexists. split; [vm_compute; reflexivity|]. repeat split.
Qed.

(** An empty raw artifact is finalized like any other by [closeWriter]:
    a container of 44 bytes that declares a payload of 0 bytes appears
    and the empty raw artifact stays on disk. *)
Lemma closeWriter_empty_artifact (key : string) (rate : Z) (n : node) (w : writer) :
  JsMap.get key (writers n) = Some w ->
  is_Some (Fs.fds (disk n) !! fd w) ->
  Fs.files (disk n) !! rawPath w = Some [] ->
  rawPath w <> wavPath w ->
  0 <= rrate w rate <= 2147483647 ->
  exists n' wav, closeWriter key rate n = (Ok tt, n')
    /\ Fs.files (disk n') !! wavPath w = Some wav
    /\ length wav = 44%nat
    /\ Wav.le_decode (take 4 (drop 40 wav)) = 0
    /\ Fs.files (disk n') !! rawPath w = Some [].
Proof.
  intros Hw Hfd Hraw Hne Hr.
  destruct (closeWriter_spec key rate n w [] Hw Hfd Hraw Hne ltac:(cbn; lia) Hr)
    as (n' & Hrun & Hf & _).
  exists n'. eexists. split; [exact Hrun|]. rewrite Hf, lookup_insert_eq.
  rewrite lookup_insert_ne by congruence. repeat split. exact Hraw.
Qed.

(** C6, the code at the failing input: a track is opened and closed
    with no chunk in between.  The run leaves a 44-byte container whose
    header declares 0 payload bytes, and the zero-byte raw artifact is
    still there: nothing is detected, nothing is discarded. *)
Theorem empty_artifact_gets_header :
  let n := run "rec/tracks"
             [WebrtcOpenTrack "k1" (hook_meta "t1" "s1"); WebrtcCloseTrack "k1"] boot in
  Fs.files (disk n) !! "rec/tracks/track_k1.pcm16le.raw"%string = Some []
  /\ exists wav, Fs.files (disk n) !! "rec/tracks/track_k1.pcm16le.wav"%string = Some wav
       /\ length wav = 44%nat
       /\ wav = Wav.canonical_header 0 16000.
Proof.
  cbn zeta. split; [vm_compute; reflexivity|].
  eexists. split; [vm_compute; reflexivity|]. split; reflexivity.
Qed.

End WriterFacts.

(** ** The first chunk of a participant in [sendParticipantAudioChunk] *)

Section FirstChunk.
Import V2 Streams.

Lemma keeps_ret {A} (a : A) : keeps_audio (ret a).
Proof. intros n. cbn. repeat split. reflexivity. Qed.

Lemma keeps_throw {A} (e : error) : keeps_audio (@throw node A e).
Proof. intros n. cbn. repeat split. reflexivity. Qed.

Lemma keeps_bind {A B} (m : M node A) (k : A -> M node B) :
  keeps_audio m -> (forall a, keeps_audio (k a)) -> keeps_audio (m ≫= k).
Proof.
  intros Hm Hk n. unfold mbind, M_bind.
  destruct (Hm n) as (H1 & H2 & H3 & H4).
  destruct (m n) as [[a|e] n1]; cbn [snd] in *.
  - destruct (Hk a n1) as (K1 & K2 & K3 & K4).
    repeat split; try congruence. etransitivity; eassumption.
  - now repeat split.
Qed.

Lemma keeps_mkdirSync (p : string) : keeps_audio (mkdirSync p).
Proof.
  intros n. unfold mkdirSync. destruct (mkdir_fails n p); cbn.
  - repeat split. reflexivity.
  - repeat split. set_solver.
Qed.

Lemma keeps_make_track_folders (p : string) : keeps_audio (make_track_folders p).
Proof.
  unfold make_track_folders.
  repeat (apply keeps_bind; [|intros _]); apply keeps_mkdirSync.
Qed.

Lemma keeps_verify_folders (p : string) : keeps_audio (verify_folders p).
Proof.
  intros n. unfold verify_folders. cbv zeta.
  destruct (_ && _); cbn; repeat split; reflexivity.
Qed.

Lemma keeps_directory_block (participantDir participantId : string) :
  keeps_audio (directory_block participantDir participantId).
Proof.
  unfold directory_block, getUser.
  repeat (apply keeps_bind; [|intros _]);
    first [apply keeps_mkdirSync|apply keeps_make_track_folders
          |apply keeps_verify_folders|apply keeps_throw].
Qed.

(** Once made, the participant's folder is there at the end of the
    block. *)
Lemma directory_block_makes (participantDir participantId : string) (n : node) :
  mkdir_fails n participantDir = false ->
  participantDir ∈ dirs (snd (directory_block participantDir participantId n)).
Proof.
  intros Hok. unfold directory_block.
  change (mkdirSync participantDir ;; ?k) with (mkdirSync participantDir ≫= fun _ => k).
  unfold mbind at 1, M_bind at 1. unfold mkdirSync at 1. rewrite Hok.
  match goal with |- context [snd (?m ?n1)] =>
    assert (Hk : keeps_audio m);
    [|destruct (Hk n1) as (_ & _ & _ & Hsub); apply Hsub; cbn; set_solver]
  end.
  unfold getUser.
  repeat (apply keeps_bind; [|intros _]);
    first [apply keeps_mkdirSync|apply keeps_make_track_folders
          |apply keeps_verify_folders|apply keeps_throw].
Qed.

Variables (pdir pid name now : string).

(** What the handler does with a chunk that finds the folder missing. *)
Lemma chunk_without_folder (arr : list Z) (n : node) :
  arr <> [] ->
  existsSync (participant_dir pdir pid name) n = false ->
  sendParticipantAudioChunk pdir pid name arr now n
  = (Ok tt, snd (directory_block (participant_dir pdir pid name) pid n)).
Proof.
  intros Harr Hex. unfold sendParticipantAudioChunk.
  destruct arr as [|a arr]; [congruence|].
  unfold try_catch at 1. rewrite Hex. cbn [negb].
  unfold try_catch, mbind, M_bind.
  destruct (directory_block _ _ n) as [[never|e] n1]; [destruct never|reflexivity].
Qed.

(** C4, the code on the first chunk of a participant: a chunk that
    finds the participant's folder missing, as the first chunk of every
    participant and the first chunk under every new display name does,
    is lost whether it is silent or not.  The handler returns without an
    exception; no stream is created or changed, so the chunk is neither
    counted nor given to any stream, and no file changes.  Where the
    file system makes the folder, it is there for the next chunk. *)
Theorem first_chunk_is_dropped (arr : list Z) (n : node) :
  existsSync (participant_dir pdir pid name) n = false ->
  let r := sendParticipantAudioChunk pdir pid name arr now n in
  fst r = Ok tt
  /\ participantAudioStreams (snd r) = participantAudioStreams n
  /\ disk (snd r) = disk n
  /\ (arr <> [] -> mkdir_fails n (participant_dir pdir pid name) = false ->
      existsSync (participant_dir pdir pid name) (snd r) = true).
Proof.
  intros Hex. cbn zeta. destruct arr as [|a arr].
  - cbn. repeat split. congruence.
  - rewrite (chunk_without_folder (a :: arr) n ltac:(discriminate) Hex). cbn [fst snd].
    destruct (keeps_directory_block (participant_dir pdir pid name) pid n)
      as (Hd & Hs & _ & _).
    split; [reflexivity|]. split; [exact Hs|]. split; [exact Hd|].
    intros _ Hok. unfold existsSync. apply orb_true_iff. left.
    apply bool_decide_eq_true. now apply directory_block_makes.
Qed.

End FirstChunk.

Lemma first_chunk_is_dropped_witness :
  let r := V2.sendParticipantAudioChunk "p" "u1" "Ann" [0; 64] "1" V2.start in
  fst r = Ok tt
  /\ V2.participantAudioStreams (snd r) = V2.participantAudioStreams V2.start
  /\ V2.disk (snd r) = V2.disk V2.start
  /\ ([0; 64] <> [] -> V2.mkdir_fails V2.start (V2.participant_dir "p" "u1" "Ann") = false ->
      V2.existsSync (V2.participant_dir "p" "u1" "Ann") (snd r) = true).
Proof.
  apply (first_chunk_is_dropped "p" "u1" "Ann" "1" [0; 64] V2.start).
  vm_compute. reflexivity.
Defined.

(** The failing input, run: the first chunk of a run holds the sample
    16384, half of full scale.  No stream exists afterwards and nothing
    was queued; the same chunk sent again is accepted. *)
Example loud_first_chunk :
  let n1 := V2.after_chunk "p" "u1" "Ann" [0; 64] "1" V2.start in
  let n2 := V2.after_chunk "p" "u1" "Ann" [0; 64] "2" n1 in
  V2.is_silent [0; 64] = false
  /\ V2.participantAudioStreams n1 = []
  /\ V2.queued "u1" n2 = [0; 64]
  /\ V2.totalChunks (Streams.stats "u1" n2) = 1.
Proof. vm_compute. repeat split. Qed.

(** The scenario of the claim from the start of a run: 40 chunks of two
    zero samples, then one chunk with the sample 1000 (bytes 232, 3).
    The first chunk is lost, chunks 2 to 31 are given to the stream and
    chunks 32 to 40 are suppressed. *)
Example forty_silent_from_start :
  let n40 := V2.send_all "p" "u1" "Ann" "1" (replicate 40 [0; 0; 0; 0]) V2.start in
  let n41 := V2.after_chunk "p" "u1" "Ann" [232; 3] "1" n40 in
  V2.queued "u1" n40 = replicate 120 0
  /\ V2.counter "u1" n40 = 39
  /\ V2.queued "u1" n41 = replicate 120 0 ++ [232; 3]
  /\ V2.counter "u1" n41 = 0.
Proof. vm_compute. repeat split. Qed.

(** ** The end-of-run loop of [closeAudioFiles] *)

Section CloseAudioFiles.
Import V2.

(** One round never throws: it ends the stream, and its file calls act
    on the files as they are. *)
Lemma close_participant_eq (participantId : string) (i : streamInfo) (n : node) :
  close_participant participantId i n
  = (Ok tt,
     with_disk (snd (finalize_or_delete i (disk n)))
       (with_streams (JsMap.set participantId (end_stream i)
                                (participantAudioStreams n)) n)).
Proof.
  unfold close_participant, try_catch, mbind, M_bind, modify, on_disk. cbn [disk with_streams].
  destruct (finalize_or_delete i (disk n)) as [[[]|e] d]; reflexivity.
Qed.

(** The participant round does look at the size: an empty artifact is
    deleted and no container is created or touched. *)
Lemma close_participant_empty (participantId : string) (i : streamInfo) (n : node) :
  Fs.files (disk n) !! rawPath i = Some [] ->
  disk (snd (close_participant participantId i n))
  = Fs.with_files (delete (rawPath i) (Fs.files (disk n))) (disk n).
Proof.
  intros H. rewrite close_participant_eq. cbn [snd disk with_disk].
  unfold finalize_or_delete, try_catch.
  erewrite bind_ok by (unfold Fs.statSync; rewrite H; reflexivity).
  change (0 <? Z.of_nat (length (@nil Z))) with false. cbv iota.
  unfold Fs.unlinkSync. now rewrite H.
Qed.

Example close_quiet_participant :
  map_to_list (Fs.files (disk (snd (close_participant "u1" quiet_stream quiet_node)))) = [].
Proof. vm_compute. reflexivity. Qed.

End CloseAudioFiles.

(** ** Float to 16-bit conversion *)

Section Conversion.

Lemma to_int16_id (v : Z) : -32768 <= v <= 32767 -> Js.to_int16 v = v.
Proof. intros. unfold Js.to_int16. rewrite Z.mod_small by lia. lia. Qed.

Lemma Qltb_lt (x y : Q) : Js.Qltb x y = true <-> (x < y)%Q.
Proof.
  unfold Js.Qltb. rewrite negb_true_iff. split.
  - intros H. apply Qnot_le_lt. intros Hle. apply Qle_bool_iff in Hle. congruence.
  - intros H. destruct (Qle_bool y x) eqn:E; [|reflexivity].
    apply Qle_bool_iff in E. exfalso. apply (Qlt_not_le _ _ H E).
Qed.

Lemma Qltb_ge (x y : Q) : Js.Qltb x y = false <-> (y <= x)%Q.
Proof. unfold Js.Qltb. rewrite negb_false_iff. apply Qle_bool_iff. Qed.

Lemma clip_range (q : Q) : (-1 <= Audio.clip q <= 1)%Q.
Proof.
  unfold Audio.clip. split.
  - apply Q.le_max_l.
  - apply Q.max_lub; [discriminate|]. apply Q.le_min_l.
Qed.

Lemma clip_eq (q : Q) : (-1 <= q <= 1)%Q -> (Audio.clip q == q)%Q.
Proof.
  intros [H1 H2]. unfold Audio.clip.
  rewrite (Q.min_r 1 q) by exact H2. apply Q.max_r. exact H1.
Qed.

(** The integer part of a clipped sample times the scale [k]. *)
Lemma trunc_scaled (s : Q) (k : Z) :
  0 < k -> (-1 <= s <= 1)%Q ->
  let v := Js.Qtruncate (s * inject_Z k) in
  -k <= v <= k /\ ((s < 0)%Q -> v <= 0) /\ ((0 <= s)%Q -> 0 <= v)
  /\ Z.abs (v * Zpos (Qden s) - Qnum s * k) < Zpos (Qden s).
Proof.
  intros Hk [H1 H2]. destruct s as [a b]. unfold Qle, Qlt in *. cbn in *.
  unfold Js.Qtruncate. cbn. rewrite Pos.mul_1_r.
  pose proof (Z.quot_rem' (a * k) (Zpos b)) as E.
  assert (Hb : 0 < Zpos b) by lia.
  destruct (Z.le_gt_cases 0 (a * k)) as [Hs|Hs].
  - pose proof (Z.rem_bound_pos (a * k) (Zpos b) Hs Hb).
    pose proof (Z.quot_pos (a * k) (Zpos b) Hs Hb).
    repeat split; try nia.
  - pose proof (Z.rem_bound_abs (a * k) (Zpos b) ltac:(lia)) as Hr.
    pose proof (Z.rem_sign_mul (a * k) (Zpos b) ltac:(lia)) as Hsg.
    assert (Z.rem (a * k) (Zpos b) <= 0) by nia.
    assert (Z.quot (a * k) (Zpos b) <= 0).
    { apply Z.quot_le_upper_bound; lia. }
    repeat split; try nia.
Qed.

Lemma sample_to_i16_fin (q : Q) :
  Audio.sample_to_i16 (Js.Fin q) = Audio.quantize q
  /\ -32768 <= Audio.sample_to_i16 (Js.Fin q) <= 32767.
Proof.
  unfold Audio.sample_to_i16, Audio.quantize. cbn [Js.Math_min Js.Math_max Js.lt].
  fold (Audio.clip q). pose proof (clip_range q) as Hc.
  set (s := Audio.clip q) in *.
  destruct (Js.Qltb s 0) eqn:E; cbn [Js.mul Js.ToInt16].
  - apply Qltb_lt in E.
    destruct (trunc_scaled s 32768 ltac:(lia) Hc) as (Hb & Hn & _).
    specialize (Hn E). cbn zeta in *. change (inject_Z 32768) with 32768%Q in *.
    rewrite to_int16_id by lia. split; [reflexivity|lia].
  - apply Qltb_ge in E.
    destruct (trunc_scaled s 32767 ltac:(lia) Hc) as (Hb & _ & Hp & _).
    specialize (Hp E). cbn zeta in *. change (inject_Z 32767) with 32767%Q in *.
    rewrite to_int16_id by lia. split; [reflexivity|lia].
Qed.

Lemma sample_to_i16_range (x : Js.num) : -32768 <= Audio.sample_to_i16 x <= 32767.
Proof.
  destruct x as [|[|]|q].
  - vm_compute. split; discriminate.
  - vm_compute. split; discriminate.
  - vm_compute. split; discriminate.
  - apply sample_to_i16_fin.
Qed.

Lemma decode_close (v a : Z) (b k : positive) :
  Z.abs (v * Zpos b - a * Zpos k) < Zpos b ->
  (Qabs ((v # k) - (a # b)) < 1 # k)%Q.
Proof.
  intros H. apply Qabs_Qlt_condition. unfold Qlt, Qminus, Qplus, Qopp. cbn.
  split; nia.
Qed.

Lemma conversion_reversible (q : Q) :
  (-1 <= q <= 1)%Q ->
  (Qabs (Audio.i16_to_f32 (Audio.sample_to_i16 (Js.Fin q)) - q) < 1 # 32767)%Q.
Proof.
  intros Hq. destruct (sample_to_i16_fin q) as [-> _].
  unfold Audio.quantize. pose proof (clip_range q) as Hc.
  pose proof (clip_eq q Hq) as Heq.
  set (s := Audio.clip q) in *. clearbody s. rewrite <- Heq. clear Heq Hq q.
  destruct (Js.Qltb s 0) eqn:E.
  - apply Qltb_lt in E.
    destruct (trunc_scaled s 32768 ltac:(lia) Hc) as (Hb & Hn & _ & Habs).
    specialize (Hn E). cbn zeta in *. change (inject_Z 32768) with 32768%Q in *.
    set (v := Js.Qtruncate (s * 32768)) in *.
    apply Qlt_trans with (1 # 32768)%Q; [|reflexivity].
    assert (Hd : (Audio.i16_to_f32 v == v # 32768)%Q).
    { unfold Audio.i16_to_f32. destruct (Z.ltb_spec v 0); [reflexivity|].
      replace v with 0 by lia. reflexivity. }
    rewrite Hd. destruct s as [a b]. apply decode_close. exact Habs.
  - apply Qltb_ge in E.
    destruct (trunc_scaled s 32767 ltac:(lia) Hc) as (Hb & _ & Hp & Habs).
    specialize (Hp E). cbn zeta in *. change (inject_Z 32767) with 32767%Q in *.
    set (v := Js.Qtruncate (s * 32767)) in *.
    assert (Hd : Audio.i16_to_f32 v = v # 32767).
    { unfold Audio.i16_to_f32. destruct (Z.ltb_spec v 0); [lia|reflexivity]. }
    rewrite Hd. destruct s as [a b]. apply decode_close. exact Habs.
Qed.

(** The bytes [f32ToI16] writes are the samples [convertFloat32ToInt16]
    stores: a 16-bit reader gets the same integers back. *)
Lemma i16le_roundtrip (v : Z) :
  -32768 <= v <= 32767 ->
  V2.int16_samples (Audio.i16le_bytes v) = [v].
Proof.
  intros Hv. unfold Audio.i16le_bytes. cbn [V2.int16_samples]. f_equal.
  rewrite !byte_land, Z.shiftr_div_pow2 by lia. change (2 ^ 8) with 256.
  unfold Js.to_int16. Z.div_mod_to_equations. lia.
Qed.

Lemma f32ToI16_samples (f32 : list Js.num) :
  V2.int16_samples (Audio.f32ToI16 f32) = Audio.convertFloat32ToInt16 f32.
Proof.
  induction f32 as [|x l IH]; [reflexivity|].
  pose proof (i16le_roundtrip _ (sample_to_i16_range x)) as R.
  unfold Audio.f32ToI16 in *. cbn [flat_map].
  unfold Audio.i16le_bytes in *. cbn [app V2.int16_samples] in *.
  injection R as R. rewrite R, IH. reflexivity.
Qed.

(** C3: both converters apply, to every sample, the clip to [-1, 1]
    followed by the scaling of negative values by 32768 and of
    non-negative values by 32767 (the integer part is kept); the result
    always fits 16 bits; -1.0 gives -32768 and 1.0 gives 32767 (which the
    infinities, once clipped, give too; NaN gives 0); and for a sample in
    [-1, 1] scaling the integer back differs from the sample by less
    than one quantization step, 1/32767. *)
Theorem f32_to_i16_conversion (q : Q) (f32 : list Js.num) :
  Audio.convertFloat32ToInt16 f32 = map Audio.sample_to_i16 f32
  /\ V2.int16_samples (Audio.f32ToI16 f32) = map Audio.sample_to_i16 f32
  /\ Forall (fun v => -32768 <= v <= 32767) (Audio.convertFloat32ToInt16 f32)
  /\ Audio.sample_to_i16 (Js.Fin q) = Audio.quantize q
  /\ (-1 <= Audio.clip q <= 1)%Q
  /\ Audio.sample_to_i16 (Js.Fin (-1)) = -32768
  /\ Audio.sample_to_i16 (Js.Fin 1) = 32767
  /\ Audio.sample_to_i16 (Js.Inf true) = -32768
  /\ Audio.sample_to_i16 (Js.Inf false) = 32767
  /\ Audio.sample_to_i16 Js.NaN = 0
  /\ ((-1 <= q <= 1)%Q ->
      (Audio.clip q == q)%Q
      /\ (Qabs (Audio.i16_to_f32 (Audio.sample_to_i16 (Js.Fin q)) - q) < 1 # 32767)%Q).
Proof.
  split; [reflexivity|]. split; [apply f32ToI16_samples|].
  split.
  { unfold Audio.convertFloat32ToInt16. apply Forall_map, Forall_forall.
    intros x _. apply sample_to_i16_range. }
  split; [apply sample_to_i16_fin|]. split; [apply clip_range|].
  repeat (split; [reflexivity|]).
  intros Hq. split; [now apply clip_eq|now apply conversion_reversible].
Qed.

Lemma f32_to_i16_conversion_witness :
  (Audio.clip (1 # 3) == 1 # 3)%Q
  /\ (Qabs (Audio.i16_to_f32 (Audio.sample_to_i16 (Js.Fin (1 # 3))) - (1 # 3))
      < 1 # 32767)%Q.
Proof.
  apply (f32_to_i16_conversion (1 # 3) []). split; discriminate.
Defined.

Example conversion_examples :
  Audio.f32ToI16 [Js.Fin (-1); Js.Fin 1; Js.Fin (1 # 2); Js.Fin (-1 # 2); Js.Fin 3; Js.NaN]
  = [0; 128; 255; 127; 255; 63; 0; 192; 255; 127; 0; 0]
  /\ Audio.convertFloat32ToInt16
       [Js.Fin (-1); Js.Fin 1; Js.Fin (1 # 2); Js.Fin (-1 # 2); Js.Fin 3; Js.NaN]
     = [-32768; 32767; 16383; -16384; 32767; 0].
Proof. split; reflexivity. Qed.

End Conversion.

(** ** What the silence threshold means for 16-bit samples *)

Section Threshold.
Import V2.

Lemma amplitude_below (a : Z) :
  Js.Qltb (amplitude a) SILENCE_THRESHOLD = (Z.abs a <=? 3).
Proof.
  unfold amplitude, SILENCE_THRESHOLD.
  destruct (Z.leb_spec (Z.abs a) 3) as [H|H].
  - apply Qltb_lt. unfold Qlt. cbn. lia.
  - apply Qltb_ge. unfold Qle. cbn. lia.
Qed.

Lemma max_amplitude_below (l : list Z) (acc : Q) :
  Js.Qltb (fold_left (fun mx a => if Js.Qltb mx (amplitude a) then amplitude a else mx)
                     l acc) SILENCE_THRESHOLD
  = Js.Qltb acc SILENCE_THRESHOLD && forallb (fun a => Z.abs a <=? 3) l.
Proof.
  revert acc. induction l as [|a l IH]; intros acc; cbn [fold_left forallb].
  - now rewrite andb_true_r.
  - rewrite IH, <- amplitude_below. rewrite andb_assoc. f_equal.
    destruct (Js.Qltb acc (amplitude a)) eqn:E.
    + apply Qltb_lt in E.
      destruct (Js.Qltb (amplitude a) SILENCE_THRESHOLD) eqn:E2.
      * apply Qltb_lt in E2. rewrite andb_true_r. symmetry. apply Qltb_lt.
        eapply Qlt_trans; eassumption.
      * now rewrite andb_false_r.
    + apply Qltb_ge in E.
      destruct (Js.Qltb acc SILENCE_THRESHOLD) eqn:E2; [|reflexivity].
      apply Qltb_lt in E2. cbn [andb]. symmetry. apply Qltb_lt.
      eapply Qle_lt_trans; eassumption.
Qed.

(** A chunk is silent exactly when none of its 16-bit samples exceeds 3
    in magnitude. *)
Lemma is_silent_samples (arr : list Z) :
  is_silent arr = forallb (fun a => Z.abs a <=? 3) (int16_samples (to_u8 arr)).
Proof.
  unfold is_silent, max_amplitude. rewrite max_amplitude_below. reflexivity.
Qed.

End Threshold.

(** ** Rounding to a binary format *)

Section IeeeFacts.
Import Js Ieee.
Local Open Scope Q_scope.

Lemma pow2_pos (e : Z) : 0 < pow2 e.
Proof. apply Qpower_0_lt. reflexivity. Qed.

Lemma pow2_nonzero (e : Z) : ~ pow2 e == 0.
Proof. intros E. pose proof (pow2_pos e) as H. rewrite E in H. discriminate. Qed.

Lemma pow2_add (a b : Z) : pow2 (a + b) == pow2 a * pow2 b.
Proof. apply Qpower_plus. discriminate. Qed.

Lemma pow2_le (a b : Z) : (a <= b)%Z -> pow2 a <= pow2 b.
Proof. intros. apply Qpower_le_compat_l; [assumption|discriminate]. Qed.

Lemma pow2_lt (a b : Z) : (a < b)%Z -> pow2 a < pow2 b.
Proof. intros. apply Qpower_lt_compat_l; [assumption|reflexivity]. Qed.

Lemma pow2_Z (n : Z) : (0 <= n)%Z -> pow2 n == inject_Z (2 ^ n).
Proof. intros. unfold pow2. now rewrite Zpower_Qpower. Qed.

Lemma inject_Z_le (a b : Z) : (a <= b)%Z -> inject_Z a <= inject_Z b.
Proof. intros. now rewrite <- Zle_Qle. Qed.

Lemma inject_Z_lt (a b : Z) : (a < b)%Z -> inject_Z a < inject_Z b.
Proof. intros. now rewrite <- Zlt_Qlt. Qed.

(** [ilog2] is not above the binary logarithm. *)
Lemma ilog2_le (q : Q) : ~ q == 0 -> pow2 (ilog2 q) <= Qabs q.
Proof.
  intros Hq. unfold ilog2. cbv zeta.
  destruct (Qle_bool _ _) eqn:E; [now apply Qle_bool_iff|]. clear E.
  destruct q as [a b]. cbn [Qnum Qden].
  assert (Ha : (0 < Z.abs a)%Z).
  { destruct (Z.eq_dec a 0%Z) as [->|]; [|lia]. exfalso. apply Hq. reflexivity. }
  pose proof (Z.log2_spec _ Ha) as [Hla _].
  pose proof (Z.log2_spec (Zpos b) ltac:(lia)) as [_ Hlb].
  pose proof (Z.log2_nonneg (Z.abs a)) as Hna.
  pose proof (Z.log2_nonneg (Zpos b)) as Hnb.
  set (la := Z.log2 (Z.abs a)) in *. set (lb := Z.log2 (Zpos b)) in *.
  change (Qabs (a # b)) with (Z.abs a # b).
  rewrite (Qmake_Qdiv (Z.abs a) b).
  apply Qle_shift_div_l; [reflexivity|].
  apply Qle_trans with (pow2 (la - lb - 1) * pow2 (lb + 1)).
  - apply Qmult_le_l; [apply pow2_pos|].
    rewrite pow2_Z by lia. apply inject_Z_le. rewrite <- Z.add_1_r in Hlb. lia.
  - rewrite <- pow2_add. replace (la - lb - 1 + (lb + 1))%Z with la by lia.
    rewrite pow2_Z by lia. now apply inject_Z_le.
Qed.

Lemma rne_ge (z : Z) (x : Q) : inject_Z z <= x -> (z <= rne x)%Z.
Proof.
  intros H. apply Qfloor_resp_le in H. rewrite Qfloor_Z in H.
  unfold rne. cbv zeta. destruct (_ ?= _); [destruct (Z.even _)|..]; lia.
Qed.

Lemma rne_le (z : Z) (x : Q) : x <= inject_Z z -> (rne x <= z)%Z.
Proof.
  intros H. pose proof (Qfloor_resp_le _ _ H) as Hf. rewrite Qfloor_Z in Hf.
  assert (Hup : 0 < x - inject_Z (Qfloor x) -> (Qfloor x + 1 <= z)%Z).
  { intros Hpos. assert (inject_Z (Qfloor x) < inject_Z z) as Hlt.
    { apply Qlt_le_trans with x; [|exact H].
      apply Qlt_minus_iff. exact Hpos. }
    rewrite <- Zlt_Qlt in Hlt. lia. }
  unfold rne. cbv zeta. destruct (_ ?= _) eqn:E.
  - apply Qeq_alt in E. destruct (Z.even _); [lia|]. apply Hup. rewrite E. reflexivity.
  - lia.
  - apply Qgt_alt in E. apply Hup. apply Qlt_trans with (1 # 2); [reflexivity|exact E].
Qed.

Lemma below_leading_power (prec emin : Z) (a q : Q) (m k : Z) :
  (0 < prec)%Z -> (Z.abs m < 2 ^ prec)%Z -> a == inject_Z m * pow2 k ->
  ~ q == 0 -> (k < ulp_exponent prec emin q)%Z -> (emin <= k)%Z ->
  Qabs a < pow2 (ilog2 q)
  /\ pow2 (ilog2 q) == inject_Z (2 ^ (prec - 1)) * pow2 (ulp_exponent prec emin q).
Proof.
  intros Hp Hm Ha Hq Hek Hk.
  assert (He : ulp_exponent prec emin q = (ilog2 q - prec + 1)%Z)
    by (unfold ulp_exponent in *; lia).
  split.
  - rewrite Ha, Qabs_Qmult. rewrite (Qabs_pos (pow2 k)) by apply Qlt_le_weak, pow2_pos.
    apply Qlt_le_trans with (pow2 prec * pow2 k).
    + apply Qmult_lt_r; [apply pow2_pos|]. rewrite pow2_Z by lia.
      change (Qabs (inject_Z m)) with (inject_Z (Z.abs m)). now apply inject_Z_lt.
    + rewrite <- pow2_add. apply pow2_le. lia.
  - rewrite <- pow2_Z by lia. rewrite <- pow2_add, He.
    replace (prec - 1 + (ilog2 q - prec + 1))%Z with (ilog2 q) by lia. reflexivity.
Qed.

Lemma multiple_of_unit (a : Q) (m k e : Z) :
  (e <= k)%Z -> a == inject_Z m * pow2 k ->
  a == inject_Z (m * 2 ^ (k - e)) * pow2 e.
Proof.
  intros Hek Ha. rewrite inject_Z_mult, <- pow2_Z by lia.
  rewrite <- Qmult_assoc, <- pow2_add.
  replace (k - e + e)%Z with k by lia. exact Ha.
Qed.

(** A representable value below [q] is not above the rounding of [q]. *)
Lemma nearest_ge (prec emin : Z) (a q : Q) :
  (0 < prec)%Z -> representable prec emin a -> ~ q == 0 -> a <= q ->
  a <= nearest prec emin q.
Proof.
  intros Hp (m & k & Hm & Hk & Ha) Hq Haq.
  unfold nearest. cbv zeta. set (e := ulp_exponent prec emin q).
  destruct (Z_le_gt_dec e k) as [Hek|Hek].
  - pose proof (multiple_of_unit a m k e Hek Ha) as Hz.
    rewrite Hz at 1. apply Qmult_le_compat_r; [|apply Qlt_le_weak, pow2_pos].
    apply inject_Z_le, rne_ge.
    apply Qle_shift_div_l; [apply pow2_pos|]. rewrite <- Hz. exact Haq.
  - destruct (below_leading_power prec emin a q m k Hp Hm Ha Hq ltac:(fold e; lia) Hk)
      as [Habs Hb]. fold e in Hb.
    pose proof (ilog2_le q Hq) as Hlow.
    assert (Hqpos : 0 <= q).
    { destruct (Qlt_le_dec q 0) as [Hneg|]; [|assumption]. exfalso.
      apply Qlt_le_weak in Hneg.
      apply (Qlt_irrefl (Qabs a)). eapply Qlt_le_trans; [exact Habs|].
      eapply Qle_trans; [exact Hlow|].
      rewrite (Qabs_neg q) by exact Hneg.
      rewrite (Qabs_neg a) by (eapply Qle_trans; eassumption).
      now apply Qopp_le_compat. }
    rewrite (Qabs_pos q) in Hlow by exact Hqpos.
    apply Qle_trans with (pow2 (ilog2 q)).
    + apply Qlt_le_weak. eapply Qle_lt_trans; [apply Qle_Qabs|exact Habs].
    + rewrite Hb at 1. apply Qmult_le_compat_r; [|apply Qlt_le_weak, pow2_pos].
      apply inject_Z_le, rne_ge.
      apply Qle_shift_div_l; [apply pow2_pos|]. rewrite <- Hb. exact Hlow.
Qed.

(** A representable value above [q] is not below the rounding of [q]. *)
Lemma nearest_le (prec emin : Z) (b q : Q) :
  (0 < prec)%Z -> representable prec emin b -> ~ q == 0 -> q <= b ->
  nearest prec emin q <= b.
Proof.
  intros Hp (m & k & Hm & Hk & Ha) Hq Hqb.
  unfold nearest. cbv zeta. set (e := ulp_exponent prec emin q).
  destruct (Z_le_gt_dec e k) as [Hek|Hek].
  - pose proof (multiple_of_unit b m k e Hek Ha) as Hz.
    rewrite Hz at 1. apply Qmult_le_compat_r; [|apply Qlt_le_weak, pow2_pos].
    apply inject_Z_le, rne_le.
    apply Qle_shift_div_r; [apply pow2_pos|]. rewrite <- Hz. exact Hqb.
  - destruct (below_leading_power prec emin b q m k Hp Hm Ha Hq ltac:(fold e; lia) Hk)
      as [Habs Hb]. fold e in Hb.
    pose proof (ilog2_le q Hq) as Hlow.
    assert (Hqneg : q <= 0).
    { destruct (Qlt_le_dec 0 q) as [Hpos|]; [|assumption]. exfalso.
      apply Qlt_le_weak in Hpos.
      apply (Qlt_irrefl (Qabs b)). eapply Qlt_le_trans; [exact Habs|].
      eapply Qle_trans; [exact Hlow|].
      rewrite (Qabs_pos q) by exact Hpos.
      rewrite (Qabs_pos b) by (eapply Qle_trans; eassumption).
      exact Hqb. }
    rewrite (Qabs_neg q) in Hlow by exact Hqneg.
    apply Qle_trans with (- pow2 (ilog2 q)).
    + assert (Hn : - pow2 (ilog2 q)
                   == inject_Z (- 2 ^ (prec - 1)) * pow2 e).
      { rewrite inject_Z_opp, Hb. ring. }
      rewrite Hn at 1. apply Qmult_le_compat_r; [|apply Qlt_le_weak, pow2_pos].
      apply inject_Z_le, rne_le.
      apply Qle_shift_div_r; [apply pow2_pos|]. rewrite <- Hn.
      apply Qopp_le_compat in Hlow. rewrite Qopp_involutive in Hlow. exact Hlow.
    + apply Qlt_le_weak. apply Qopp_lt_compat in Habs.
      eapply Qlt_le_trans; [exact Habs|].
      rewrite <- (Qopp_involutive b) at 2. apply Qopp_le_compat.
      rewrite <- Qabs_opp. apply Qle_Qabs.
Qed.

(** Rounding stays between representable bounds and does not overflow
    below the largest finite magnitude. *)
Lemma round_between (prec emin emax : Z) (a b q : Q) :
  (0 < prec)%Z -> representable prec emin a -> representable prec emin b ->
  - pow2 emax < a -> b < pow2 emax -> a <= q -> q <= b ->
  exists r, round prec emin emax q = Fin r /\ Qred r = r /\ a <= r /\ r <= b.
Proof.
  intros Hp Ha Hb Hlo Hhi Haq Hqb. unfold round.
  destruct (Qeq_bool q 0) eqn:E.
  - apply Qeq_bool_iff in E. exists 0. rewrite E in Haq, Hqb. now repeat split.
  - apply Qeq_bool_neq in E. cbv zeta.
    pose proof (nearest_ge prec emin a q Hp Ha E Haq) as H1.
    pose proof (nearest_le prec emin b q Hp Hb E Hqb) as H2.
    rewrite <- (Qred_correct (nearest prec emin q)) in H1, H2.
    set (r := Qred (nearest prec emin q)) in *.
    assert (Hr : Qabs r < pow2 emax).
    { apply Qabs_Qlt_condition. split.
      - eapply Qlt_le_trans; eassumption.
      - eapply Qle_lt_trans; eassumption. }
    destruct (Qle_bool (pow2 emax) (Qabs r)) eqn:F.
    + apply Qle_bool_iff in F. exfalso. apply (Qlt_irrefl (Qabs r)).
      eapply Qlt_le_trans; eassumption.
    + exists r. repeat split; try assumption. apply Qred_complete, Qred_correct.
Qed.

Lemma representable_wider (prec emin prec' emin' : Z) (q : Q) :
  (0 <= prec <= prec')%Z -> (emin' <= emin)%Z ->
  representable prec emin q -> representable prec' emin' q.
Proof.
  intros Hp He (m & k & Hm & Hk & Hq). exists m, k. repeat split; [|lia|exact Hq].
  eapply Z.lt_le_trans; [exact Hm|]. apply Z.pow_le_mono_r; lia.
Qed.

(** [n] copies of a float32 add up to a double, for [n] up to 2^29. *)
Lemma copies_representable (n : Z) (x : Q) :
  (0 <= n <= 2 ^ 29)%Z -> is_f32 x ->
  representable 53 (-1074) (inject_Z n * x)
  /\ Qabs (inject_Z n * x) < pow2 1024.
Proof.
  intros Hn (_ & (m & k & Hm & Hk & Hx) & Hb). split.
  - exists (n * m)%Z, k. repeat split; [|lia|].
    + rewrite Z.abs_mul, (Z.abs_eq n) by lia.
      change (2 ^ 53)%Z with (2 ^ 29 * 2 ^ 24)%Z.
      assert (Z.abs m <= 2 ^ 24 - 1)%Z by lia.
      assert (n * Z.abs m <= 2 ^ 29 * (2 ^ 24 - 1))%Z by (apply Z.mul_le_mono_nonneg; lia).
      lia.
    + rewrite Hx, inject_Z_mult. ring.
  - rewrite Qabs_Qmult. change (Qabs (inject_Z n)) with (inject_Z (Z.abs n)).
    rewrite Z.abs_eq by lia.
    apply Qle_lt_trans with (inject_Z (2 ^ 29) * pow2 128).
    + apply Qle_trans with (inject_Z (2 ^ 29) * Qabs x).
      * apply Qmult_le_compat_r; [now apply inject_Z_le|apply Qabs_nonneg].
      * apply Qmult_le_l; [reflexivity|now apply Qlt_le_weak].
    + rewrite <- pow2_Z by lia. rewrite <- pow2_add. now apply pow2_lt.
Qed.

Import Audio.

Lemma bounds_of_magnitude (x b : Q) : Qabs x < b -> - b < x /\ x < b.
Proof. intros. now apply Qabs_Qlt_condition. Qed.

(** The running sum of the mix, in doubles. *)
Lemma sum_between (lo hi : Q) :
  is_f32 lo -> is_f32 hi ->
  forall (l : list num) (k : Z) (s : Q),
  (0 <= k)%Z -> (k + Z.of_nat (length l) <= 2 ^ 29)%Z ->
  inject_Z k * lo <= s -> s <= inject_Z k * hi ->
  Forall (within lo hi) l ->
  exists s', fold_left add l (Fin s) = Fin s'
    /\ inject_Z (k + Z.of_nat (length l)) * lo <= s'
    /\ s' <= inject_Z (k + Z.of_nat (length l)) * hi.
Proof.
  intros Hlo Hhi. induction l as [|x l IH]; intros k s Hk Hlen H1 H2 Hall.
  - exists s. cbn [fold_left length Z.of_nat]. rewrite Z.add_0_r. now repeat split.
  - apply Forall_cons in Hall as [(q & -> & Hq1 & Hq2) Hall].
    cbn [length] in Hlen. rewrite Nat2Z.inj_succ in Hlen.
    cbn [fold_left add]. unfold double.
    destruct (copies_representable (k + 1) lo ltac:(lia) Hlo) as [Ra Ba].
    destruct (copies_representable (k + 1) hi ltac:(lia) Hhi) as [Rb Bb].
    apply bounds_of_magnitude in Ba as [Ba _]. apply bounds_of_magnitude in Bb as [_ Bb].
    destruct (round_between 53 (-1074) 1024 _ _ (s + q) ltac:(lia) Ra Rb Ba Bb)
      as (r & -> & _ & Hr1 & Hr2).
    + rewrite inject_Z_plus.
      setoid_replace ((inject_Z k + inject_Z 1) * lo) with (inject_Z k * lo + lo) using relation Qeq by ring.
      now apply Qplus_le_compat.
    + rewrite inject_Z_plus.
      setoid_replace ((inject_Z k + inject_Z 1) * hi) with (inject_Z k * hi + hi) using relation Qeq by ring.
      now apply Qplus_le_compat.
    + destruct (IH (k + 1)%Z r ltac:(lia) ltac:(lia) Hr1 Hr2 Hall) as (s' & Hs & Hs1 & Hs2).
      exists s'. cbn [length]. rewrite Nat2Z.inj_succ.
      replace (k + Z.succ (Z.of_nat (length l)))%Z with (k + 1 + Z.of_nat (length l))%Z by lia.
      now repeat split.
Qed.

(** The mix of one frame lies between any two float32 bounds of its
    samples: it is a mean. *)
Lemma mean_between (lo hi : Q) (l : list num) :
  is_f32 lo -> is_f32 hi -> l <> [] -> (Z.of_nat (length l) <= 2 ^ 29)%Z ->
  Forall (within lo hi) l ->
  exists r, mean l = Fin r /\ Qred r = r /\ lo <= r /\ r <= hi.
Proof.
  intros Hlo Hhi Hne Hlen Hall.
  destruct (sum_between lo hi Hlo Hhi l 0 0 ltac:(lia) ltac:(lia)) as (s & Hs & Hs1 & Hs2);
    [rewrite Qmult_0_l; apply Qle_refl|rewrite Qmult_0_l; apply Qle_refl|exact Hall|].
  rewrite Z.add_0_l in Hs1, Hs2.
  assert (Hn : (0 < Z.of_nat (length l))%Z) by (destruct l; [congruence|cbn; lia]).
  set (n := Z.of_nat (length l)) in *.
  unfold mean, store_mean. rewrite Hs. fold n.
  cbn [div].
  assert (Hnq : 0 < inject_Z n) by (now apply (inject_Z_lt 0 n)).
  destruct (Qeq_bool (inject_Z n) 0) eqn:E.
  { apply Qeq_bool_iff in E. rewrite E in Hnq. discriminate. }
  clear E. unfold double.
  pose proof Hlo as (_ & Rlo & Blo). pose proof Hhi as (_ & Rhi & Bhi).
  assert (Blo' : Qabs lo < pow2 1024)
    by (eapply Qlt_trans; [exact Blo|now apply pow2_lt]).
  assert (Bhi' : Qabs hi < pow2 1024)
    by (eapply Qlt_trans; [exact Bhi|now apply pow2_lt]).
  apply bounds_of_magnitude in Blo as [Blo _]. apply bounds_of_magnitude in Bhi as [_ Bhi].
  apply bounds_of_magnitude in Blo' as [Blo' _].
  apply bounds_of_magnitude in Bhi' as [_ Bhi'].
  destruct (round_between 53 (-1074) 1024 lo hi (s / inject_Z n) ltac:(lia)
              (representable_wider 24 (-149) 53 (-1074) lo ltac:(lia) ltac:(lia) Rlo)
              (representable_wider 24 (-149) 53 (-1074) hi ltac:(lia) ltac:(lia) Rhi)
              Blo' Bhi')
    as (r1 & -> & _ & Hr1 & Hr2).
  - apply Qle_shift_div_l; [exact Hnq|]. now rewrite Qmult_comm.
  - apply Qle_shift_div_r; [exact Hnq|]. now rewrite Qmult_comm.
  - cbn [fround].
    destruct (round_between 24 (-149) 128 lo hi r1 ltac:(lia) Rlo Rhi Blo Bhi Hr1 Hr2)
      as (r & -> & Hc & H1 & H2).
    exists r. now repeat split.
Qed.

Lemma sum_of_nan (n : nat) : fold_left add (replicate n NaN) NaN = NaN.
Proof. induction n as [|n IH]; [reflexivity|exact IH]. Qed.

Lemma sum_of_inf (s : bool) (n : nat) :
  fold_left add (replicate n (Inf s)) (Inf s) = Inf s.
Proof.
  induction n as [|n IH]; [reflexivity|]. cbn [replicate fold_left add].
  now rewrite Bool.eqb_reflx.
Qed.

(** Equal channels: the mix of [n] copies of a sample is that sample. *)
Lemma f32_mean_const (x : num) (n : nat) :
  float32 x -> (0 < n)%nat -> (Z.of_nat n <= 2 ^ 29)%Z ->
  mean (replicate n x) = x.
Proof.
  intros Hx Hn Hb. destruct x as [|s|q].
  - destruct n as [|n]; [lia|]. unfold mean, store_mean. cbn [replicate fold_left add].
    now rewrite sum_of_nan.
  - destruct n as [|n]; [lia|]. unfold mean, store_mean.
    cbn [replicate fold_left add].
    rewrite sum_of_inf. cbn [div fround].
    replace (Qltb (inject_Z (Z.of_nat (length (Inf s :: replicate n (Inf s))))) 0) with false.
    + now destruct s.
    + symmetry. unfold Qltb. apply Bool.negb_false_iff. apply Qle_bool_iff.
      apply (inject_Z_le 0). lia.
  - cbn [float32] in Hx.
    destruct (mean_between q q (replicate n (Fin q)) Hx Hx) as (r & -> & Hc & H1 & H2).
    + destruct n; [lia|discriminate].
    + now rewrite length_replicate.
    + apply Forall_replicate. exists q. repeat split; apply Qle_refl.
    + f_equal. destruct Hx as (Hq & _). rewrite <- Hc, <- Hq.
      apply Qred_complete. now apply Qle_antisym.
Qed.
End IeeeFacts.

(** ** Down-mix to mono *)

Section DownMix.
Import Js Ieee Audio.

Lemma for_loop_sum (f : nat -> num) (n start : nat) (acc : num) :
  for_loop n start (fun ch s => add s (f ch)) acc
  = fold_left add (map f (seq start n)) acc.
Proof.
  revert start acc. induction n as [|n IH]; intros start acc; cbn; [reflexivity|].
  apply IH.
Qed.

Lemma for_loop_fill (f : nat -> num) (n : nat) :
  forall (start : nat) (filled : list num),
  length filled = start ->
  for_loop n start (fun i m => <[i := f i]> m) (filled ++ replicate n (Fin 0))
  = filled ++ map f (seq start n).
Proof.
  induction n as [|n IH]; intros start filled Hlen; cbn [for_loop]; [reflexivity|].
  cbn [replicate seq map].
  rewrite insert_app_r_alt by lia. rewrite Hlen, Nat.sub_diag. cbn [insert list_insert].
  rewrite (cons_middle (f start)), app_assoc.
  rewrite IH by (rewrite length_app; cbn; lia).
  now rewrite <- app_assoc.
Qed.

(** The reads of one frame are the frame's window of the array. *)
Lemma frame_window (a : list num) (base n : nat) :
  (base + n <= length a)%nat ->
  map (fun ch => at_index a (base + ch)) (seq 0 n) = take n (drop base a).
Proof.
  intros Hlen. apply list_eq. intros j.
  rewrite list_lookup_fmap. destruct (Nat.lt_ge_cases j n) as [Hj|Hj].
  - rewrite lookup_seq_lt by exact Hj. rewrite lookup_take_lt by exact Hj.
    rewrite lookup_drop. cbn. unfold at_index.
    destruct (a !! (base + j)%nat) eqn:E; [reflexivity|].
    apply lookup_ge_None in E. lia.
  - rewrite lookup_seq_ge by exact Hj. rewrite lookup_take_ge by exact Hj. reflexivity.
Qed.

Lemma div_mul_le (len n : nat) : (0 < n)%nat -> (len / n * n <= len)%nat.
Proof. intros. rewrite Nat.mul_comm. apply Nat.Div0.mul_div_le. Qed.

(** The loops of the mix, frame by frame. *)
Lemma mix_loop (a : list num) (n frames : nat) :
  (frames * n <= length a)%nat ->
  for_loop frames 0
    (fun i monoData =>
       let sum :=
         for_loop n 0 (fun channel sum => add sum (at_index a (i * n + channel)))
                  (Fin 0) in
       <[i := store_mean sum n]> monoData)
    (replicate frames (Fin 0))
  = map (fun i => mean (take n (drop (i * n) a))) (seq 0 frames).
Proof.
  intros Hlen.
  etransitivity;
    [exact (for_loop_fill
              (fun i => store_mean (for_loop n 0
                                      (fun channel sum => add sum (at_index a (i * n + channel)))
                                      (Fin 0)) n) frames 0 [] eq_refl)|].
  cbn [app]. apply map_ext_in. intros i Hi. apply in_seq in Hi.
  rewrite (for_loop_sum (fun ch => at_index a (i * n + ch))).
  assert (i * n + n <= length a)%nat by nia.
  rewrite frame_window by assumption.
  unfold mean. rewrite length_take, length_drop. f_equal. lia.
Qed.

Lemma typed_set_full (src : list num) (n : nat) :
  length src = n -> typed_set src (replicate n (Fin 0)) = src.
Proof.
  intros Hn. unfold typed_set. rewrite drop_ge by (rewrite length_replicate; lia).
  apply app_nil_r.
Qed.

Lemma mean_singleton (x : num) : float32 x -> mean [x] = x.
Proof. intros Hx. apply (f32_mean_const x 1 Hx); [lia|]. cbn. lia. Qed.

Lemma convertToMono_frames (a : list num) (n : nat) :
  (1 <= n)%nat -> Forall float32 a ->
  convertToMono a n
  = Ok (map (fun i => mean (take n (drop (i * n) a))) (seq 0 (length a / n))).
Proof.
  intros Hn Ha. unfold convertToMono. destruct (Nat.eqb_spec n 1) as [->|Hne].
  - f_equal. rewrite Nat.div_1_r. apply list_eq. intros i.
    rewrite list_lookup_fmap. destruct (a !! i) as [x|] eqn:E.
    + rewrite lookup_seq_lt by (apply lookup_lt_Some in E; exact E). cbn.
      rewrite Nat.mul_1_r. erewrite drop_S by exact E. cbn [take].
      rewrite take_0, mean_singleton; [reflexivity|].
      exact (proj1 (Forall_lookup _ _) Ha i x E).
    + rewrite lookup_seq_ge by (apply lookup_ge_None in E; exact E). reflexivity.
  - destruct (Nat.eqb_spec n 0) as [->|_]; [lia|]. cbn [andb]. f_equal.
    apply mix_loop. apply div_mul_le. lia.
Qed.

Lemma mix_interleaved_convertToMono (inter : list num) (numCh numFr : nat) :
  (1 <= numCh)%nat -> length inter = (numFr * numCh)%nat ->
  Ok (mix_interleaved inter numCh numFr) = convertToMono inter numCh.
Proof.
  intros Hn Hlen. unfold mix_interleaved, convertToMono.
  destruct (Nat.eqb_spec numCh 1) as [->|Hne].
  - f_equal. apply typed_set_full. lia.
  - destruct (Nat.eqb_spec numCh 0) as [->|_]; [lia|]. cbn [andb].
    rewrite Hlen, Nat.div_mul by lia. reflexivity.
Qed.

(** Equal channels, interleaved: every frame repeats one sample. *)
Lemma equal_channels_window (sig : list num) (n i : nat) (x : num) :
  sig !! i = Some x ->
  take n (drop (i * n) (flat_map (replicate n) sig)) = replicate n x.
Proof.
  revert i. induction sig as [|y sig IH]; intros i Hi; [discriminate|].
  destruct i as [|i]; cbn in Hi.
  - injection Hi as ->. rewrite Nat.mul_0_l, drop_0. cbn [flat_map].
    apply take_app_length'. symmetry. apply length_replicate.
  - cbn [flat_map]. replace (S i * n)%nat with (length (replicate n y) + i * n)%nat
      by (rewrite length_replicate; lia).
    rewrite drop_app_add. now apply IH.
Qed.

Lemma length_equal_channels (sig : list num) (n : nat) :
  length (flat_map (replicate n) sig) = (length sig * n)%nat.
Proof.
  induction sig as [|y sig IH]; [reflexivity|].
  cbn [flat_map]. rewrite length_app, length_replicate, IH. cbn. lia.
Qed.

Lemma float32_equal_channels (sig : list num) (n : nat) :
  Forall float32 sig -> Forall float32 (flat_map (replicate n) sig).
Proof.
  induction 1 as [|y sig Hy _ IH]; [constructor|].
  cbn [flat_map]. apply Forall_app. split; [now apply Forall_replicate|exact IH].
Qed.

Lemma map_replicate {A B} (f : A -> B) (n : nat) (x : A) :
  map f (replicate n x) = replicate n (f x).
Proof. induction n as [|n IH]; cbn; [reflexivity|]. now rewrite IH. Qed.

Lemma by_index (g : list num -> num) (l : list (list num)) :
  map (fun ch => g (default [] (l !! ch))) (seq 0 (length l)) = map g l.
Proof.
  apply list_eq. intros j. rewrite !list_lookup_fmap.
  destruct (l !! j) as [c|] eqn:E.
  - rewrite lookup_seq_lt by (apply lookup_lt_Some in E; exact E). cbn. now rewrite E.
  - rewrite lookup_seq_ge by (apply lookup_ge_None in E; exact E). reflexivity.
Qed.

Lemma by_position (c : list num) : map (at_index c) (seq 0 (length c)) = c.
Proof.
  apply list_eq. intros j. rewrite list_lookup_fmap.
  destruct (c !! j) as [x|] eqn:E.
  - rewrite lookup_seq_lt by (apply lookup_lt_Some in E; exact E). cbn.
    unfold at_index. now rewrite E.
  - rewrite lookup_seq_ge by (apply lookup_ge_None in E; exact E). reflexivity.
Qed.

Lemma mix_planar_frames (chBuf : list (list num)) (numCh numFr : nat) :
  (1 <= numCh)%nat -> length chBuf = numCh ->
  Forall (fun c => length c = numFr) chBuf ->
  Forall (Forall float32) chBuf ->
  mix_planar chBuf numCh numFr
  = map (fun i => mean (map (fun c => at_index c i) chBuf)) (seq 0 numFr).
Proof.
  intros Hn Hlen Hall Hf. unfold mix_planar. destruct (Nat.eqb_spec numCh 1) as [->|Hne].
  - destruct chBuf as [|c [|? ?]]; try discriminate.
    change (default [] ([c] !! 0%nat)) with c.
    apply Forall_inv in Hall. cbn in Hall. rewrite typed_set_full by exact Hall.
    apply Forall_inv in Hf.
    rewrite <- Hall. apply list_eq. intros i. rewrite list_lookup_fmap.
    destruct (c !! i) as [x|] eqn:E.
    + rewrite lookup_seq_lt by (apply lookup_lt_Some in E; exact E). cbn.
      unfold at_index. rewrite E. cbn [default].
      rewrite mean_singleton; [reflexivity|].
      exact (proj1 (Forall_lookup _ _) Hf i x E).
    + rewrite lookup_seq_ge by (apply lookup_ge_None in E; exact E). reflexivity.
  - etransitivity;
      [exact (for_loop_fill
                (fun i => store_mean (for_loop numCh 0
                                        (fun ch s => add s (at_index (default [] (chBuf !! ch)) i))
                                        (Fin 0)) numCh) numFr 0 [] eq_refl)|].
    cbn [app]. apply map_ext. intros i.
    rewrite (for_loop_sum (fun ch => at_index (default [] (chBuf !! ch)) i)).
    rewrite <- Hlen. rewrite (by_index (fun c => at_index c i)).
    unfold mean. now rewrite length_map.
Qed.

(** C9, amended: for every channel count N >= 1 (up to 2^29) the
    down-mix ([convertToMono], and the interleaved and planar mixes of
    [pump] on a well-formed frame) yields one sample per frame, the mean
    of the N channel samples at that position as floating point computes
    it: the samples are added in doubles, the sum is divided by N and
    the quotient is rounded to a float32.  That sample lies between any
    two float32 bounds of the N samples, the smallest and the largest of
    them included, and when all N channels carry the same signal the
    mono output is that signal exactly. *)
Theorem downmix_is_mean (a sig : list num) (chBuf : list (list num)) (N numFr : nat) :
  (1 <= N)%nat -> (Z.of_nat N <= 2 ^ 29)%Z ->
  Forall float32 a -> Forall float32 sig -> Forall (Forall float32) chBuf ->
  (exists mono, convertToMono a N = Ok mono
     /\ length mono = (length a / N)%nat
     /\ forall i, (i < length a / N)%nat ->
          mono !! i = Some (mean (take N (drop (i * N) a))))
  /\ (forall (l : list num) (lo hi : Q),
        length l = N -> is_f32 lo -> is_f32 hi -> Forall (within lo hi) l ->
        exists r, mean l = Fin r /\ (lo <= r)%Q /\ (r <= hi)%Q)
  /\ convertToMono (flat_map (replicate N) sig) N = Ok sig
  /\ (length a = (numFr * N)%nat -> Ok (mix_interleaved a N numFr) = convertToMono a N)
  /\ (length chBuf = N -> Forall (fun c => length c = numFr) chBuf ->
      length (mix_planar chBuf N numFr) = numFr
      /\ forall i, (i < numFr)%nat ->
           mix_planar chBuf N numFr !! i
           = Some (mean (map (fun c => at_index c i) chBuf)))
  /\ (length sig = numFr -> mix_planar (replicate N sig) N numFr = sig).
Proof.
  intros HN Hmax Ha Hsig Hch. split; [|split; [|split; [|split; [|split]]]].
  - eexists. split; [now apply convertToMono_frames|]. split.
    + now rewrite length_map, length_seq.
    + intros i Hi. rewrite list_lookup_fmap, lookup_seq_lt by exact Hi. reflexivity.
  - intros l lo hi Hl Hlo Hhi Hall.
    destruct (mean_between lo hi l Hlo Hhi) as (r & Hr & _ & H1 & H2);
      [destruct l; [cbn in Hl; lia|discriminate]|now rewrite Hl|exact Hall|].
    exists r. now repeat split.
  - rewrite convertToMono_frames by (try exact HN; now apply float32_equal_channels).
    f_equal. rewrite length_equal_channels, Nat.div_mul by lia.
    apply list_eq. intros i. rewrite list_lookup_fmap.
    destruct (sig !! i) as [x|] eqn:E.
    + rewrite lookup_seq_lt by (apply lookup_lt_Some in E; exact E). cbn.
      rewrite (equal_channels_window sig N i x E).
      rewrite f32_mean_const; [reflexivity| |lia|exact Hmax].
      exact (proj1 (Forall_lookup _ _) Hsig i x E).
    + rewrite lookup_seq_ge by (apply lookup_ge_None in E; exact E). reflexivity.
  - intros Hlen. now apply mix_interleaved_convertToMono.
  - intros Hlen Hall. rewrite mix_planar_frames by assumption. split.
    + now rewrite length_map, length_seq.
    + intros i Hi. rewrite list_lookup_fmap, lookup_seq_lt by exact Hi. reflexivity.
  - intros Hlen. rewrite mix_planar_frames; [|exact HN|apply length_replicate| |].
    + rewrite <- Hlen. apply list_eq. intros i. rewrite list_lookup_fmap.
      destruct (sig !! i) as [x|] eqn:E.
      * rewrite lookup_seq_lt by (apply lookup_lt_Some in E; exact E). cbn.
        rewrite map_replicate. unfold at_index. rewrite E. cbn [default].
        rewrite f32_mean_const; [reflexivity| |lia|exact Hmax].
        exact (proj1 (Forall_lookup _ _) Hsig i x E).
      * rewrite lookup_seq_ge by (apply lookup_ge_None in E; exact E). reflexivity.
    + apply Forall_replicate. exact Hlen.
    + apply Forall_replicate. exact Hsig.
Qed.

End DownMix.

(** The float32 values one half and minus one quarter. *)
Lemma half_is_f32 : Ieee.is_f32 (1 # 2).
Proof.
  split; [reflexivity|]. split; [|reflexivity].
  exists 1, (-1). split; [reflexivity|]. split; [discriminate|reflexivity].
Qed.

Lemma minus_quarter_is_f32 : Ieee.is_f32 (-1 # 4).
Proof.
  split; [reflexivity|]. split; [|reflexivity].
  exists (-1), (-2). split; [reflexivity|]. split; [discriminate|reflexivity].
Qed.

Lemma downmix_is_mean_witness :
  let half := Js.Fin (1 # 2) in
  let quarter := Js.Fin (-1 # 4) in
  (exists mono, Audio.convertToMono [half; quarter; quarter; half] 2 = Ok mono
     /\ length mono = (4 / 2)%nat
     /\ forall i, (i < 4 / 2)%nat ->
          mono !! i
          = Some (Audio.mean (take 2 (drop (i * 2) [half; quarter; quarter; half]))))
  /\ (forall (l : list Js.num) (lo hi : Q),
        length l = 2%nat -> Ieee.is_f32 lo -> Ieee.is_f32 hi ->
        Forall (Audio.within lo hi) l ->
        exists r, Audio.mean l = Js.Fin r /\ (lo <= r)%Q /\ (r <= hi)%Q)
  /\ Audio.convertToMono (flat_map (replicate 2) [half; quarter]) 2 = Ok [half; quarter]
  /\ (4%nat = (2 * 2)%nat ->
      Ok (Audio.mix_interleaved [half; quarter; quarter; half] 2 2)
      = Audio.convertToMono [half; quarter; quarter; half] 2)
  /\ (2%nat = 2%nat ->
      Forall (fun c => length c = 2%nat) [[half; quarter]; [quarter; half]] ->
      length (Audio.mix_planar [[half; quarter]; [quarter; half]] 2 2) = 2%nat
      /\ forall i, (i < 2)%nat ->
           Audio.mix_planar [[half; quarter]; [quarter; half]] 2 2 !! i
           = Some (Audio.mean (map (fun c => Audio.at_index c i)
                                   [[half; quarter]; [quarter; half]])))
  /\ (2%nat = 2%nat -> Audio.mix_planar (replicate 2 [half; quarter]) 2 2 = [half; quarter]).
Proof.
  intros half quarter.
  apply (downmix_is_mean [half; quarter; quarter; half] [half; quarter]
           [[half; quarter]; [quarter; half]] 2 2).
  - lia.
  - cbn. lia.
  - repeat (apply Forall_cons_2; [first [exact half_is_f32|exact minus_quarter_is_f32]|]).
    apply Forall_nil_2.
  - repeat (apply Forall_cons_2; [first [exact half_is_f32|exact minus_quarter_is_f32]|]).
    apply Forall_nil_2.
  - repeat (apply Forall_cons_2;
            [repeat (apply Forall_cons_2;
                     [first [exact half_is_f32|exact minus_quarter_is_f32]|]);
             apply Forall_nil_2|]).
    apply Forall_nil_2.
Defined.

(** The claim as it was worded: three channels holding the float32
    values nearest to 0.1, 0.2 and 0.3.  Each sum and the quotient are
    rounded, and the mono sample is the float32 nearest to 0.2, not the
    arithmetic mean of the three samples. *)
Lemma downmix_is_mean_counterexample :
  let x1 := (13421773 # 134217728)%Q in
  let x2 := (13421773 # 67108864)%Q in
  let x3 := (5033165 # 16777216)%Q in
  Forall Ieee.float32 [Js.Fin x1; Js.Fin x2; Js.Fin x3]
  /\ Audio.convertToMono [Js.Fin x1; Js.Fin x2; Js.Fin x3] 3 = Ok [Js.Fin x2]
  /\ Audio.mix_planar [[Js.Fin x1]; [Js.Fin x2]; [Js.Fin x3]] 3 1 = [Js.Fin x2]
  /\ ~ (x2 == Audio.exact_mean [x1; x2; x3])%Q.
Proof.
  cbv zeta. split; [|split; [|split]].
  - repeat (apply Forall_cons_2; [split; [reflexivity|split; [|reflexivity]]|]);
      [| | |apply Forall_nil_2].
    + exists 13421773, (-27). split; [reflexivity|]. split; [discriminate|reflexivity].
    + exists 13421773, (-26). split; [reflexivity|]. split; [discriminate|reflexivity].
    + exists 5033165, (-24). split; [reflexivity|]. split; [discriminate|reflexivity].
  - vm_compute. reflexivity.
  - vm_compute. reflexivity.
  - vm_compute. discriminate.
Qed.

Example downmix_example :
  Audio.convertToMono [Js.Fin 1; Js.Fin 3; Js.Fin 5; Js.Fin 7] 2 = Ok [Js.Fin 2; Js.Fin 6]
  /\ Audio.mix_planar [[Js.Fin 1; Js.Fin 5]; [Js.Fin 3; Js.Fin 7]] 2 2 = [Js.Fin 2; Js.Fin 6].
Proof. split; vm_compute; reflexivity. Qed.

(** ** Speaker attribution *)

Section Attribution.
Import Resolver Frames.

Lemma truthy_prefixed (pre s : string) :
  truthy pre = true -> truthy (pre ++ s) = true.
Proof. destruct pre; [discriminate|reflexivity]. Qed.

(** The scan keeps the largest positive level seen so far. *)
Lemma loudest_scan_inv (sources : list csrc) :
  let acc := fold_left louder sources (0%Q, None) in
  (0 <= fst acc)%Q
  /\ (forall s l, In s sources -> source s <> 0 -> audioLevel s = Some l ->
        (l <= fst acc)%Q)
  /\ match snd acc with
     | None => fst acc = 0%Q
     | Some src =>
         src <> 0 /\ (0 < fst acc)%Q
         /\ exists s, In s sources /\ source s = src /\ audioLevel s = Some (fst acc)
     end.
Proof.
  induction sources as [|s sources IH] using rev_ind; cbn zeta.
  - cbn. repeat split; [discriminate|]. intros s l [].
  - rewrite fold_left_app. cbn [fold_left].
    destruct (fold_left louder sources (0%Q, None)) as [m o].
    cbn zeta in IH. cbn [fst snd] in IH. destruct IH as (Hm & Hmax & Ho).
    assert (Hkeep : forall x l, In x sources -> source x <> 0 ->
                      audioLevel x = Some l -> forall m', (m <= m')%Q -> (l <= m')%Q).
    { intros x l Hx Hid Hl m' Hm'. eapply Qle_trans; [|exact Hm']. eauto. }
    unfold louder. cbn [fst snd].
    destruct (Z.eqb_spec (source s) 0) as [Hz|Hz]; cbn [negb].
    { split; [exact Hm|]. split.
      - intros x l Hx Hid Hl. apply in_app_or in Hx as [Hx|[<-|[]]]; [eauto|congruence].
      - keep_loudest Ho. }
    destruct (audioLevel s) as [l|] eqn:Hl.
    2:{ split; [exact Hm|]. split.
        - intros x l Hx Hid Hl'. apply in_app_or in Hx as [Hx|[<-|[]]]; [eauto|congruence].
        - keep_loudest Ho. }
    destruct (negb (Qeq_bool l 0) && Js.Qltb m l) eqn:Hc; cbn [fst snd].
    + apply andb_true_iff in Hc as [_ Hlt]. apply Qltb_lt in Hlt.
      split; [apply Qlt_le_weak; eapply Qle_lt_trans; eassumption|].
      split.
      * intros x l' Hx Hid Hl'. apply in_app_or in Hx as [Hx|[<-|[]]].
        -- apply Qlt_le_weak. eapply Qle_lt_trans; [|exact Hlt]. eauto.
        -- rewrite Hl in Hl'. injection Hl' as <-. apply Qle_refl.
      * split; [exact Hz|]. split; [eapply Qle_lt_trans; eassumption|].
        exists s. split; [apply in_or_app; right; now left|]. auto.
    + split; [exact Hm|]. split.
      * intros x l' Hx Hid Hl'. apply in_app_or in Hx as [Hx|[<-|[]]]; [eauto|].
        rewrite Hl in Hl'. injection Hl' as <-.
        apply andb_false_iff in Hc as [Hc|Hc].
        -- apply negb_false_iff, Qeq_bool_iff in Hc. rewrite Hc. exact Hm.
        -- now apply Qltb_ge in Hc.
      * keep_loudest Ho.
Qed.

(** Which source is looked up: the loudest one above zero when there is
    one, and otherwise the first listed source. *)
Lemma loudest_source_spec (sources : list csrc) :
  match loudest_source sources with
  | Some src =>
      src <> 0
      /\ ((exists s l, In s sources /\ source s = src /\ audioLevel s = Some l
                      /\ (0 < l)%Q
                      /\ forall s' l', In s' sources -> source s' <> 0 ->
                           audioLevel s' = Some l' -> (l' <= l)%Q)
          \/ ((forall s' l', In s' sources -> source s' <> 0 ->
                 audioLevel s' = Some l' -> (l' <= 0)%Q)
              /\ exists s rest, sources = s :: rest /\ source s = src))
  | None =>
      (forall s' l', In s' sources -> source s' <> 0 ->
         audioLevel s' = Some l' -> (l' <= 0)%Q)
      /\ match sources with [] => True | s :: _ => source s = 0 end
  end.
Proof.
  unfold loudest_source, loudest_scan.
  pose proof (loudest_scan_inv sources) as (Hm & Hmax & Ho). cbn zeta in *.
  destruct (snd (fold_left louder sources (0%Q, None))) as [src|].
  - destruct Ho as (Hsrc & Hpos & s & Hs & Hid & Hl). split; [exact Hsrc|].
    left. exists s, (fst (fold_left louder sources (0%Q, None))). auto 7.
  - rewrite Ho in Hmax.
    destruct sources as [|s rest]; [split; [exact Hmax|exact I]|].
    destruct (Z.eqb_spec (source s) 0) as [Hz|Hz]; cbn [negb].
    + split; [exact Hmax|exact Hz].
    + split; [exact Hz|]. right. split; [exact Hmax|]. eauto.
Qed.

Lemma getFirstParticipant_spec (um : UserManager) :
  match getFirstParticipant um with
  | Some u =>
      In u (JsMap.values (users um))
      /\ (suitable u = true
          \/ (Forall (fun v => suitable v = false) (JsMap.values (users um))
              /\ head (JsMap.values (users um)) = Some u))
  | None => users um = []
  end.
Proof.
  unfold getFirstParticipant.
  destruct (find suitable (JsMap.values (users um))) as [u|] eqn:E.
  - apply find_some in E as [Hin Hs]. auto.
  - destruct (users um) as [|[k u] rest] eqn:Hu; [reflexivity|]. cbn.
    split; [now left|]. right. split; [|reflexivity].
    apply Forall_forall. intros v Hv. apply list_elem_of_In in Hv.
    exact (find_none _ _ E v Hv).
Qed.

Lemma values_get {V} (m : JsMap.t V) (v : V) :
  In v (JsMap.values m) -> exists k, In (k, v) m.
Proof.
  unfold JsMap.values. intros H. apply in_map_iff in H as ([k v'] & <- & Hin).
  now exists k.
Qed.

Lemma get_in {V} (m : JsMap.t V) (k : string) (v : V) :
  JsMap.get k m = Some v -> In (k, v) m.
Proof.
  induction m as [|[k' v'] m IH]; cbn; [discriminate|].
  destruct (String.eqb_spec k k') as [->|Hne].
  - intros [= ->]. now left.
  - intros Hg. right. now apply IH.
Qed.

Lemma in_get {V} (m : JsMap.t V) (k : string) (v : V) :
  In (k, v) m -> exists v', JsMap.get k m = Some v'.
Proof.
  induction m as [|[k' v'] m IH]; cbn; [intros []|].
  destruct (String.eqb_spec k k') as [->|Hne]; [eauto|].
  intros [[= -> ->]|Hin]; [congruence|]. now apply IH.
Qed.

Lemma set_in_inv {V} (m : JsMap.t V) (k k' : string) (v v' : V) :
  In (k', v') (JsMap.set k v m) -> (k', v') = (k, v) \/ In (k', v') m.
Proof.
  induction m as [|[k0 v0] m IH]; cbn.
  - intros [H|[]]. now left.
  - destruct (String.eqb k k0); cbn.
    + intros [H|Hin]; [now left|right; now right].
    + intros [H|Hin]; [right; now left|].
      destruct (IH Hin) as [?|?]; [now left|right; now right].
Qed.

Lemma wf_get (um : UserManager) (k : string) (u : user) :
  well_keyed um -> JsMap.get k (users um) = Some u ->
  participantId u = k /\ truthy k = true.
Proof.
  intros Hwf Hg. apply get_in in Hg. unfold well_keyed in Hwf.
  rewrite Forall_forall in Hwf. apply list_elem_of_In in Hg.
  exact (Hwf _ Hg).
Qed.

Lemma wf_lookup (um : UserManager) (sid : string) (u : user) :
  well_keyed um -> getParticipantByStreamId sid um = Some u ->
  truthy (participantId u) = true
  /\ JsMap.get (participantId u) (users um) = Some u.
Proof.
  intros Hwf. unfold getParticipantByStreamId.
  destruct (JsMap.get sid (streamToParticipant um)) as [pid|]; [|discriminate].
  destruct (truthy pid); [|discriminate]. intros Hg.
  destruct (wf_get um pid u Hwf Hg) as [-> Ht]. auto.
Qed.

Lemma wf_first (um : UserManager) (u : user) :
  well_keyed um -> getFirstParticipant um = Some u ->
  truthy (participantId u) = true
  /\ exists u', JsMap.get (participantId u) (users um) = Some u'.
Proof.
  intros Hwf Hf. pose proof (getFirstParticipant_spec um) as Hs. rewrite Hf in Hs.
  destruct Hs as [Hin _]. apply values_get in Hin as [k Hin].
  unfold well_keyed in Hwf. rewrite Forall_forall in Hwf.
  destruct (Hwf (k, u) ltac:(now apply list_elem_of_In)) as [Hk Ht]. cbn in Hk, Ht.
  rewrite Hk. split; [exact Ht|]. eapply in_get. exact Hin.
Qed.

Lemma addUser_wf (pid name now : string) (um : UserManager) :
  truthy pid = true -> well_keyed um -> well_keyed (addUser pid name now um).
Proof.
  intros Ht Hwf. unfold addUser. destruct (JsMap.has pid (users um)); [exact Hwf|].
  unfold well_keyed in *. cbn. rewrite Forall_forall in *.
  intros [k u] Hin. apply list_elem_of_In, set_in_inv in Hin as [[= -> ->]|Hin].
  - cbn. auto.
  - apply Hwf. now apply list_elem_of_In.
Qed.

Lemma addUser_has (pid name now : string) (um : UserManager) :
  JsMap.has pid (users (addUser pid name now um)) = true.
Proof.
  unfold addUser. destruct (JsMap.has pid (users um)) eqn:E; [exact E|].
  cbn. unfold JsMap.has. now rewrite get_set_eq.
Qed.

Lemma associateStream_wf (pid : string) (streamId : option string) (um : UserManager) :
  well_keyed um -> well_keyed (associateStream pid streamId um).
Proof.
  intros Hwf. unfold associateStream. destruct streamId as [sid|]; [|exact Hwf].
  destruct (truthy sid); [|exact Hwf].
  destruct (JsMap.get pid (users um)) as [u|] eqn:Hg; [|exact Hwf].
  destruct (wf_get um pid u Hwf Hg) as [Hk Ht].
  unfold well_keyed in *. cbn. rewrite Forall_forall in *.
  intros [k v] Hin. apply list_elem_of_In, set_in_inv in Hin as [[= -> ->]|Hin].
  - cbn. auto.
  - apply Hwf. now apply list_elem_of_In.
Qed.

Lemma associateStream_has (pid k : string) (streamId : option string) (um : UserManager) :
  JsMap.has k (users um) = true ->
  JsMap.has k (users (associateStream pid streamId um)) = true.
Proof.
  intros Hk. unfold associateStream. destruct streamId as [sid|]; [|exact Hk].
  destruct (truthy sid); [|exact Hk].
  destruct (JsMap.get pid (users um)) as [u|] eqn:Hg; [|exact Hk].
  cbn. unfold JsMap.has in *. destruct (String.eqb_spec pid k) as [->|Hne].
  - now rewrite get_set_eq.
  - now rewrite get_set_ne.
Qed.

(** A stream associated with a known participant is remembered. *)
Lemma associateStream_assoc (pid sid : string) (um : UserManager) :
  truthy sid = true -> JsMap.has pid (users um) = true ->
  JsMap.get sid (streamToParticipant (associateStream pid (Some sid) um)) = Some pid.
Proof.
  intros Ht Hh. unfold associateStream. rewrite Ht. unfold JsMap.has in Hh.
  destruct (JsMap.get pid (users um)); [|discriminate]. cbn. apply get_set_eq.
Qed.

(** The two methods the resolver calls are not among those of the class. *)
Lemma ReceiverManager_lacks (A : Type) (value : A) :
  call ReceiverManager "getContributingSources" value
  = Throw (TypeError "getContributingSources is not a function")
  /\ call ReceiverManager "getStreamIdForSource" value
     = Throw (TypeError "getStreamIdForSource is not a function").
Proof. split; reflexivity. Qed.

(** C1, the code on every frame: the resolver begins with
    [receiverManager.getContributingSources(event.receiver)], a method
    the page's [ReceiverManager] does not have.  The call throws before
    any rule of the order is tried, the handler's [catch] closes the
    frame, the user manager is as before and nothing is handed to
    [sendParticipantAudioChunk]: no frame is attributed to anybody.  A
    frame below the silence threshold is passed on before the resolver,
    and is not sent either. *)
Theorem attribution_never_completes (um : UserManager) (sources : list csrc)
    (stream_of : Z -> option string) (streamId : option string)
    (trackId now : string) (frame : option AudioData) :
  let h := transform ReceiverManager um sources stream_of streamId trackId now frame in
  sends h = [] /\ manager h = um
  /\ resolve ReceiverManager um sources stream_of streamId trackId now
     = Throw (TypeError "getContributingSources is not a function")
  /\ forall f audioData, frame = Some f -> extract f = Ok audioData ->
       frame_fate h = if isSilent audioData then Enqueued else Closed.
Proof.
  cbn zeta.
  assert (Hr : resolve ReceiverManager um sources stream_of streamId trackId now
               = Throw (TypeError "getContributingSources is not a function"))
    by reflexivity.
  unfold transform. rewrite Hr.
  split; [|split; [|split; [reflexivity|]]].
  - destruct frame as [f|]; [|reflexivity].
    destruct (extract f) as [a|e]; [|reflexivity]. now destruct (isSilent a).
  - destruct frame as [f|]; [|reflexivity].
    destruct (extract f) as [a|e]; [|reflexivity]. now destruct (isSilent a).
  - intros f a -> Ha. rewrite Ha. now destruct (isSilent a).
Qed.

(** The failing input: a frame holding the sample one half, on a track
    whose stream "s1" is associated with participant "p1", Ann.  The
    frame is closed and nothing is sent. *)
Example loud_frame_is_dropped :
  let h := transform ReceiverManager example_manager [] (fun _ => None)
             (Some "s1"%string) "t1" "now" (Some loud_frame) in
  extract loud_frame = Ok [Js.Fin (1 # 2)]
  /\ isSilent [Js.Fin (1 # 2)] = false
  /\ sends h = [] /\ frame_fate h = Closed /\ manager h = example_manager.
Proof. vm_compute. repeat split. Qed.

(** The same frame with a class that has both methods: the second rule
    of the order finds Ann by the track's stream and the chunk is sent
    under her identity. *)
Example loud_frame_with_both_methods :
  let h := transform with_both_methods example_manager [] (fun _ => None)
             (Some "s1"%string) "t1" "now" (Some loud_frame) in
  sends h = [{| sent_participantId := "p1"; sent_displayName := "Ann";
                sent_bytes := [255; 63] |}]
  /\ frame_fate h = Enqueued.
Proof. vm_compute. repeat split. Qed.

(** X17: The first transform sends nothing either.  Its handler calls
    [convertToMono], a function of the Node program that the page does
    not declare: whatever the frame holds, the call is a ReferenceError,
    the handler's [catch] closes the frame, the user manager is as
    before and [sendParticipantAudioChunk] is not called.  A frame whose
    copy fails is closed as well. *)
Theorem first_transform_never_sends (um : UserManager) (copied : result (list Js.num))
    (numberOfChannels : nat) (streamId now : string) :
  let h := first_transform page_functions um copied numberOfChannels streamId now in
  sends h = [] /\ frame_fate h = Closed /\ manager h = um
  /\ forall buffer,
       first_resolve page_functions um buffer numberOfChannels streamId now
       = Throw (ReferenceError "convertToMono is not defined").
Proof.
  cbn zeta. split; [|split; [|split]]; try reflexivity;
    destruct copied as [buffer|e]; reflexivity.
Qed.

(** With the three helpers in scope the same handler would send, one
    number per sample where the Node side expects two bytes: the sample
    one half goes out as 16383. *)
Example first_transform_with_helpers :
  sends (first_transform with_node_helpers example_manager (Ok [Js.Fin (1 # 2)]) 1
           "s1" "now")
  = [{| sent_participantId := "p1"; sent_displayName := "Ann"; sent_bytes := [16383] |}].
Proof. vm_compute. reflexivity. Qed.

End Attribution.

(** ** The atomic JSON writer *)

Section AtomicWrite.
Import Atomic.

Lemma append_nonempty_ne (s t : string) : t <> ""%string -> (s ++ t)%string <> s.
Proof.
  intros Ht. induction s as [|c s IH]; cbn; [exact Ht|].
  intros [= E]. now apply IH.
Qed.

Lemma tmp_path_fresh (file pid now rnd : string) : tmp_path file pid now rnd <> file.
Proof. unfold tmp_path. apply append_nonempty_ne. discriminate. Qed.

Lemma drop_ops {A} (l new : list A) : drop (length l) (l ++ new) = new.
Proof. now rewrite drop_app_length. Qed.

(** C5, amended: a metadata write serializes to a temporary path next to
    the destination, different from it, and renames the temporary file
    over the destination; it copies the temporary file to the destination
    and then deletes the temporary file if and only if the rename failed
    with EXDEV.  A write that succeeds leaves the complete document at
    the destination.  A write that fails without entering the EXDEV
    fallback leaves the destination exactly as it was.  A write that
    fails inside the fallback leaves the destination as it was, or
    holding the complete new document, or, when the copy itself failed,
    removed or holding a partial document: the fallback copy is not
    atomic. *)
Theorem atomic_write (e : env) (prev : option error) (file pid now rnd : string)
    (data : list Z) (d : disk) :
  let tmp := tmp_path file pid now rnd in
  let r := writeJsonAtomic e prev file pid now rnd data d in
  tmp <> file
  /\ drop (length (ops d)) (ops (snd r)) = calls_expected e prev file tmp
  /\ (fst r = Ok tt -> files (snd r) !! file = Some data)
  /\ (on_rename e <> Some EXDEV -> fst r <> Ok tt ->
      files (snd r) !! file = files d !! file)
  /\ (on_rename e = Some EXDEV -> fst r <> Ok tt ->
      files (snd r) !! file = files d !! file
      \/ files (snd r) !! file = Some data
      \/ (exists n err, on_copy e = Some (Some n, err)
                        /\ files (snd r) !! file = Some (take n data))
      \/ (exists err, on_copy e = Some (None, err)
                      /\ files (snd r) !! file = None)).
Proof.
  cbn zeta. pose proof (tmp_path_fresh file pid now rnd) as Hne.
  set (tmp := tmp_path file pid now rnd) in *. split; [exact Hne|].
  unfold writeJsonAtomic, calls_expected, run, ensureDir, writeFile, rename,
    copyFile, unlink, try_catch, throw, log_op, mbind, M_bind.
  fold tmp.
  destruct e as [mk wr rn cp ul]. cbn [on_mkdir on_write on_rename on_copy on_unlink].
  destruct mk as [emk|]; cbn [fst snd ops files].
  { rewrite drop_ops. repeat split; try discriminate; try reflexivity; auto. }
  destruct prev as [eprev|]; cbn [fst snd ops files].
  { rewrite drop_ops. repeat split; try discriminate; try reflexivity; auto. }
  destruct wr as [[[n|] ewr]|]; cbn [fst snd ops files].
  { rewrite <- !app_assoc, drop_ops.
    repeat split; try discriminate; try reflexivity.
    - intros _ _. now rewrite lookup_insert_ne.
    - intros _ _. left. now rewrite lookup_insert_ne. }
  { rewrite <- !app_assoc, drop_ops.
    repeat split; try discriminate; try reflexivity.
    intros _ _. now left. }
  destruct rn as [ern|]; cbn [fst snd ops files].
  2:{ rewrite lookup_insert_eq. cbn [fst snd ops files].
      rewrite <- !app_assoc, drop_ops.
      repeat split; try discriminate; try reflexivity; try congruence.
      intros _. now rewrite lookup_insert_eq. }
  destruct (is_EXDEV ern) eqn:Hex.
  2:{ cbn [fst snd ops files]. rewrite <- !app_assoc, drop_ops.
      destruct ern; try discriminate Hex; cbn [app];
        (repeat split; try discriminate; try reflexivity;
         intros _ _; now rewrite lookup_insert_ne). }
  destruct ern; try discriminate Hex. clear Hex.
  cbn [fst snd ops files]. rewrite lookup_insert_eq.
  destruct cp as [[[k|] ecp]|]; cbn [fst snd ops files].
  - rewrite <- !app_assoc, drop_ops.
    repeat split; try discriminate; try reflexivity; try congruence.
    intros _ _. right. right. left. exists k, ecp.
    split; [reflexivity|]. now rewrite lookup_insert_eq.
  - rewrite <- !app_assoc, drop_ops.
    repeat split; try discriminate; try reflexivity; try congruence.
    intros _ _. right. right. right. exists ecp.
    split; [reflexivity|]. now rewrite lookup_delete_eq.
  - destruct ul as [eul|]; cbn [fst snd ops files];
      rewrite <- !app_assoc, drop_ops.
    + repeat split; try discriminate; try reflexivity; try congruence.
      intros _ _. right. left. now rewrite lookup_insert_eq.
    + repeat split; try discriminate; try reflexivity; try congruence.
      intros _. rewrite lookup_delete_ne by exact Hne. now rewrite lookup_insert_eq.
Qed.

(** C5 as stated fails in the EXDEV fallback: with the destination on
    another volume and the copy failing after 3 bytes, the write fails,
    and the destination neither keeps the previous document nor holds
    the new one: it holds the first 3 bytes of the new document. *)
Lemma atomic_write_counterexample :
  let data := [123; 34; 98; 34; 58; 50; 125] in
  let r := writeJsonAtomic cross_volume_full None "m.json" "7" "1700" "k3" data
             example_disk in
  files example_disk !! "m.json"%string = Some [123; 34; 97; 34; 58; 49; 125]
  /\ fst r = Throw (EIO "ENOSPC")
  /\ files (snd r) !! "m.json"%string = Some [123; 34; 98]
  /\ files (snd r) !! "m.json"%string <> files example_disk !! "m.json"%string
  /\ files (snd r) !! "m.json"%string <> Some data.
Proof. cbn zeta. repeat split; vm_compute; discriminate. Qed.

Lemma atomic_write_witness :
  files (snd (writeJsonAtomic fair None "m.json" "7" "1700" "k3"
                [123; 34; 98; 34; 58; 50; 125] example_disk)) !! "m.json"%string
  = Some [123; 34; 98; 34; 58; 50; 125].
Proof.
  apply (atomic_write fair None "m.json" "7" "1700" "k3"
           [123; 34; 98; 34; 58; 50; 125] example_disk).
  reflexivity.
Defined.

Example atomic_write_fair :
  let data := [123; 34; 98; 34; 58; 50; 125] in
  let r := writeJsonAtomic fair None "m.json" "7" "1700" "k3" data example_disk in
  fst r = Ok tt
  /\ map_to_list (files (snd r)) = [("m.json"%string, data)]
  /\ ops (snd r) = [OpMkdir "m.json"; OpWriteFile "m.json.7.1700.k3.tmp";
                    OpRename "m.json.7.1700.k3.tmp" "m.json"].
Proof. cbn zeta. repeat split; vm_compute; reflexivity. Qed.

End AtomicWrite.

(** * Further properties of the code *)

(** ** The header writer and the finalizer *)

Section FinalizerMore.

(** X1: The header [writeWavHeader] builds is always the playable one: 44
    bytes, the RIFF/WAVE/fmt/data tags in place, PCM format 1, one
    channel, 16 bits per sample, block alignment 2, and a byte rate of
    twice the sample rate. *)
Theorem wav_header_fields (dataLength sampleRate : Z) (s : Fs.t) :
  0 <= dataLength -> 36 + dataLength <= 4294967295 ->
  0 <= sampleRate <= 2147483647 ->
  exists h, Wav.wav_header dataLength sampleRate s = (Ok h, s)
    /\ length h = 44%nat
    /\ take 4 h = Wav.ascii_bytes "RIFF"
    /\ take 4 (drop 8 h) = Wav.ascii_bytes "WAVE"
    /\ take 4 (drop 12 h) = Wav.ascii_bytes "fmt "
    /\ take 4 (drop 36 h) = Wav.ascii_bytes "data"
    /\ Wav.le_decode (take 4 (drop 16 h)) = 16
    /\ Wav.le_decode (take 2 (drop 20 h)) = 1
    /\ Wav.le_decode (take 2 (drop 22 h)) = 1
    /\ Wav.le_decode (take 4 (drop 24 h)) = sampleRate
    /\ Wav.le_decode (take 4 (drop 28 h)) = 2 * sampleRate
    /\ Wav.le_decode (take 2 (drop 32 h)) = 2
    /\ Wav.le_decode (take 2 (drop 34 h)) = 16.
Proof.
  intros Hd Hd' Hr. exists (Wav.canonical_header dataLength sampleRate).
  split; [now apply wav_header_ok|].
  repeat (split; [reflexivity|]).
  split.
  { change (take 4 (drop 24 (Wav.canonical_header dataLength sampleRate)))
      with (Wav.u32le_bytes sampleRate). apply le_decode_u32le. lia. }
  split.
  { change (take 4 (drop 28 (Wav.canonical_header dataLength sampleRate)))
      with (Wav.u32le_bytes (sampleRate * 2)).
    rewrite le_decode_u32le by lia. lia. }
  split; reflexivity.
Qed.

Lemma wav_header_fields_witness :
  exists h, Wav.wav_header 4 48000 Wav.example_disk = (Ok h, Wav.example_disk)
    /\ length h = 44%nat
    /\ take 4 h = Wav.ascii_bytes "RIFF"
    /\ take 4 (drop 8 h) = Wav.ascii_bytes "WAVE"
    /\ take 4 (drop 12 h) = Wav.ascii_bytes "fmt "
    /\ take 4 (drop 36 h) = Wav.ascii_bytes "data"
    /\ Wav.le_decode (take 4 (drop 16 h)) = 16
    /\ Wav.le_decode (take 2 (drop 20 h)) = 1
    /\ Wav.le_decode (take 2 (drop 22 h)) = 1
    /\ Wav.le_decode (take 4 (drop 24 h)) = 48000
    /\ Wav.le_decode (take 4 (drop 28 h)) = 2 * 48000
    /\ Wav.le_decode (take 2 (drop 32 h)) = 2
    /\ Wav.le_decode (take 2 (drop 34 h)) = 16.
Proof. apply (wav_header_fields 4 48000 Wav.example_disk); lia. Defined.

Lemma finalize_missing_raw (s : Fs.t) (rawPath wavPath : string) (r : Z) :
  Fs.files s !! rawPath = None ->
  Wav.finalizeRawToWav rawPath wavPath r s = (Throw (ENOENT rawPath), s).
Proof.
  intros H. unfold Wav.finalizeRawToWav, Wav.finalize_with.
  apply bind_throw. unfold Fs.statSync. now rewrite H.
Qed.

(** X2: Finalizing an artifact that is not on disk throws before anything
    is created: the disk is exactly as it was, and in particular no
    container appears. *)
Theorem finalize_missing_artifact (s : Fs.t) (rawPath wavPath : string) (r : Z) :
  Fs.files s !! rawPath = None ->
  Wav.finalizeRawToWav rawPath wavPath r s = (Throw (ENOENT rawPath), s).
Proof.
  intros H. unfold Wav.finalizeRawToWav, Wav.finalize_with.
  apply bind_throw. unfold Fs.statSync. now rewrite H.
Qed.

Lemma finalize_missing_artifact_witness :
  Wav.finalizeRawToWav "gone.raw" "gone.wav" 16000 Wav.example_disk
  = (Throw (ENOENT "gone.raw"), Wav.example_disk).
Proof. apply (finalize_missing_artifact Wav.example_disk). reflexivity. Defined.

(** The state the finalizer leaves on a well-formed request, in full:
    only the container changes on disk, and both descriptors it opened
    are closed again. *)
Lemma finalize_with_state (size : nat) (s : Fs.t) (rawPath wavPath : string)
    (raw : list Z) (r : Z) :
  (0 < size)%nat ->
  Fs.files s !! rawPath = Some raw ->
  rawPath <> wavPath ->
  36 + Z.of_nat (length raw) <= 4294967295 ->
  0 <= r <= 2147483647 ->
  exists s', Wav.finalize_with size rawPath wavPath r s = (Ok tt, s')
    /\ Fs.files s'
       = <[wavPath := Wav.canonical_header (Z.of_nat (length raw)) r ++ raw]> (Fs.files s)
    /\ Fs.fds s' = delete (S (Fs.next_fd s)) (delete (Fs.next_fd s) (Fs.fds s))
    /\ Fs.next_fd s' = S (S (Fs.next_fd s)).
Proof.
  intros Hsize Hraw Hne HS Hr. unfold Wav.finalize_with.
  erewrite bind_ok by (unfold Fs.statSync; rewrite Hraw; reflexivity).
  erewrite bind_ok by reflexivity.
  unfold Wav.writeWavHeader.
  erewrite bind_ok; cycle 1.
  { erewrite bind_ok by (apply wav_header_ok; lia).
    eapply writeSync_eq; cbn; apply lookup_insert_eq. }
  change 0%nat with (length (@nil Z)) at 1. rewrite write_at_end. cbn [app].
  erewrite bind_ok; cycle 1.
  { unfold Fs.openSync. cbn [Fs.files].
    rewrite !lookup_insert_ne by congruence. rewrite Hraw. reflexivity. }
  cbn [Fs.next_fd Fs.files Fs.fds]. rewrite Nat2Z.id.
  match goal with |- context [mbind _ (Wav.copy_loop _ size ?rfd ?wfd) ?s3] =>
    destruct (copy_loop_spec (S (length raw)) size rfd wfd rawPath wavPath raw
                Hsize ltac:(lia) Hne s3 0%nat
                (Wav.canonical_header (Z.of_nat (length raw)) r))
      as (s4 & Hrun & Hf & Hn & Hother & Hr' & Hw')
  end.
  - cbn. now rewrite !lookup_insert_ne by congruence.
  - cbn. rewrite insert_insert_eq. apply lookup_insert_eq.
  - cbn. apply lookup_insert_eq.
  - cbn [Fs.fds]. rewrite lookup_insert_ne by lia. rewrite insert_insert_eq.
    rewrite lookup_insert_eq. reflexivity.
  - lia.
  - erewrite bind_ok by exact Hrun.
    erewrite bind_ok by (apply closeSync_eq; exact Hr').
    rewrite closeSync_eq; cycle 1.
    { cbn. rewrite lookup_delete_ne by lia. exact Hw'. }
    eexists. split; [reflexivity|]. cbn. rewrite Hf. cbn. rewrite drop_0.
    split; [now rewrite !insert_insert_eq|]. split; [|exact Hn].
    apply map_eq. intros fd.
    destruct (decide (fd = Fs.next_fd s)) as [->|H1].
    { rewrite lookup_delete_eq, lookup_delete_ne by lia.
      now rewrite lookup_delete_eq. }
    destruct (decide (fd = S (Fs.next_fd s))) as [->|H2].
    { rewrite lookup_delete_ne by lia. now rewrite !lookup_delete_eq. }
    rewrite !lookup_delete_ne by congruence.
    rewrite Hother by congruence. cbn. now rewrite !lookup_insert_ne by congruence.
Qed.

(** X3: A successful finalization touches nothing but the container: every
    other file, the raw artifact included, is as before, whatever was at
    the container's path is replaced, and no descriptor stays open that
    was not open before. *)
Theorem finalize_touches_only_container (s : Fs.t) (rawPath wavPath : string)
    (raw : list Z) (r : Z) :
  Fs.files s !! rawPath = Some raw ->
  rawPath <> wavPath ->
  Z.of_nat (length raw) <= 4294967259 ->
  0 <= r <= 2147483647 ->
  exists s', Wav.finalizeRawToWav rawPath wavPath r s = (Ok tt, s')
    /\ (forall p, p <> wavPath -> Fs.files s' !! p = Fs.files s !! p)
    /\ Fs.files s' !! wavPath
       = Some (Wav.canonical_header (Z.of_nat (length raw)) r ++ raw)
    /\ (forall fd d, Fs.fds s' !! fd = Some d -> Fs.fds s !! fd = Some d).
Proof.
  intros Hraw Hne HS Hr.
  destruct (finalize_with_state Wav.bufSize s rawPath wavPath raw r bufSize_pos
              Hraw Hne ltac:(lia) Hr) as (s' & Hrun & Hf & Hd & _).
  exists s'. split; [exact Hrun|]. rewrite Hf, Hd. split; [|split].
  - intros p Hp. now rewrite lookup_insert_ne by congruence.
  - apply lookup_insert_eq.
  - intros fd d H. apply lookup_delete_Some in H as [_ H].
    now apply lookup_delete_Some in H as [_ H].
Qed.

Lemma finalize_touches_only_container_witness :
  exists s', Wav.finalizeRawToWav "t.pcm16le.raw" "t.pcm16le.wav" 16000 Wav.example_disk
             = (Ok tt, s')
    /\ (forall p, p <> "t.pcm16le.wav"%string ->
          Fs.files s' !! p = Fs.files Wav.example_disk !! p)
    /\ Fs.files s' !! "t.pcm16le.wav"%string
       = Some (Wav.canonical_header (Z.of_nat (length [1; 2; 3; 4])) 16000 ++ [1; 2; 3; 4])
    /\ (forall fd d, Fs.fds s' !! fd = Some d -> Fs.fds Wav.example_disk !! fd = Some d).
Proof.
  apply (finalize_touches_only_container Wav.example_disk "t.pcm16le.raw" "t.pcm16le.wav"
           [1; 2; 3; 4] 16000); [reflexivity|discriminate|cbn; lia|lia].
Defined.

End FinalizerMore.

(** ** The raw writers, from open to close *)

Section WriterMore.
Import Writers Tracks.

Lemma string_app_assoc (a b c : string) :
  ((a ++ b) ++ c)%string = (a ++ (b ++ c))%string.
Proof.
  induction a as [|x a IH]; [reflexivity|].
  change (String x ((a ++ b) ++ c)%string = String x (a ++ (b ++ c))%string).
  now rewrite IH.
Qed.

Lemma prefix_app (p s : string) :
  String.prefix p s = true -> exists t, s = (p ++ t)%string.
Proof.
  revert s. induction p as [|c p IH]; intros s H.
  - now exists s.
  - destruct s as [|d s]; [discriminate|]. cbn in H.
    destruct (ascii_dec c d) as [->|]; [|discriminate].
    destruct (IH s H) as [t ->]. now exists t.
Qed.

Lemma replace_first_eq (pat rep s : string) :
  replace_first pat rep s
  = if String.prefix pat s
    then (rep ++ String.substring (String.length pat)
                   (String.length s - String.length pat) s)%string
    else match s with
         | EmptyString => EmptyString
         | String c r => String c (replace_first pat rep r)
         end.
Proof. destruct s; reflexivity. Qed.

(** Replacing the first ".raw" of a text that holds one changes it. *)
Lemma replace_first_changes (a b : string) :
  replace_first ".raw" ".wav" (a ++ ".raw" ++ b) <> (a ++ ".raw" ++ b)%string.
Proof.
  induction a as [|c a IH].
  - change (("" ++ ".raw" ++ b)%string)
      with (String "." (String "r" (String "a" (String "w" b)))).
    rewrite replace_first_eq.
    replace (String.prefix _ _) with true by (destruct b; reflexivity).
    intros H. apply (f_equal (String.get 1)) in H. discriminate H.
  - change ((String c a ++ ".raw" ++ b)%string)
      with (String c (a ++ ".raw" ++ b)%string).
    set (r := (a ++ ".raw" ++ b)%string) in *.
    rewrite replace_first_eq.
    destruct (String.prefix ".raw" (String c r)) eqn:E.
    + apply prefix_app in E as [t E]. rewrite E.
      intros H. apply (f_equal (String.get 1)) in H. discriminate H.
    + intros [= H]. now apply IH.
Qed.

(** The container's path is never the artifact's own path. *)
Lemma wav_path_differs (baseDir key : string) :
  raw_path_of baseDir key <> replace_first ".raw" ".wav" (raw_path_of baseDir key).
Proof.
  unfold raw_path_of, path_join.
  replace (baseDir ++ "/" ++ "track_" ++ safe_key key ++ ".pcm16le.raw")%string
    with ((baseDir ++ "/" ++ "track_" ++ safe_key key ++ ".pcm16le") ++ ".raw" ++ "")%string.
  - intros H. symmetry in H. revert H. apply replace_first_changes.
  - rewrite !string_app_assoc. reflexivity.
Qed.

Lemma openWriter_eq (key dir : string) (mt : track_meta) (n : node) :
  openWriter key dir mt n
  = (Ok tt,
     {| disk := {| Fs.files := <[raw_path_of dir key := []]> (Fs.files (disk n));
                   Fs.fds := <[Fs.next_fd (disk n) :=
                                 {| Fs.fd_path := raw_path_of dir key; Fs.fd_pos := 0;
                                    Fs.fd_flag := Fs.FlagW |}]> (Fs.fds (disk n));
                   Fs.next_fd := S (Fs.next_fd (disk n)) |};
        writers := JsMap.set key
                     {| fd := Fs.next_fd (disk n); rawPath := raw_path_of dir key;
                        wavPath := replace_first ".raw" ".wav" (raw_path_of dir key);
                        bytes := 0; meta := mt |} (writers n);
        tracks := tracks n; console := console n |}).
Proof. reflexivity. Qed.

Lemma open_track_spec (key dir : string) (mt : track_meta) (n : node) :
  exists n' w, openWriter key dir mt n = (Ok tt, n')
    /\ JsMap.get key (writers n') = Some w
    /\ meta w = mt
    /\ rawPath w = raw_path_of dir key
    /\ wavPath w = replace_first ".raw" ".wav" (raw_path_of dir key)
    /\ open_at n' w [].
Proof.
  rewrite openWriter_eq. eexists. eexists. split; [reflexivity|].
  cbn [writers disk]. split; [apply get_set_eq|].
  cbn [meta rawPath wavPath]. repeat split.
  - cbn. apply lookup_insert_eq.
  - cbn. apply lookup_insert_eq.
  - cbn. lia.
Qed.

(** X4: The container path [openWriter] computes is never the artifact
    path, so a finalization never reads the file it writes.  It is not
    always a path of its own, though: the first ".raw" of the path is
    what gets replaced, and for the key "a.raw" the container path is
    the artifact path of the key "a.wav". *)
Theorem container_path_differs (baseDir key : string) :
  raw_path_of baseDir key <> replace_first ".raw" ".wav" (raw_path_of baseDir key)
  /\ replace_first ".raw" ".wav" (raw_path_of "rec" "a.raw") = raw_path_of "rec" "a.wav".
Proof. split; [apply wav_path_differs|reflexivity]. Qed.

(** One chunk for a writer that is open at the end of its artifact. *)
Lemma writeChunk_eq (key : string) (buf content : list Z) (n : node) (w : writer) :
  JsMap.get key (writers n) = Some w ->
  open_at n w content ->
  writeChunk key buf n
  = (Ok tt,
     {| disk := {| Fs.files := <[rawPath w := content ++ buf]> (Fs.files (disk n));
                   Fs.fds := <[fd w := {| Fs.fd_path := rawPath w;
                                          Fs.fd_pos := length content + length buf;
                                          Fs.fd_flag := Fs.FlagW |}]> (Fs.fds (disk n));
                   Fs.next_fd := Fs.next_fd (disk n) |};
        writers := JsMap.set key
                     {| fd := fd w; rawPath := rawPath w; wavPath := wavPath w;
                        bytes := bytes w + Z.of_nat (length buf); meta := meta w |}
                     (writers n);
        tracks := tracks n; console := console n |}).
Proof.
  intros Hw (Hfd & Hf & _). unfold writeChunk. rewrite Hw.
  erewrite bind_ok by (apply on_disk_eq; eapply writeSync_eq; eassumption).
  rewrite write_at_end. reflexivity.
Qed.

(** Chunks for one key only: the artifact grows by their bytes, in order. *)
Lemma writes_one_key (dir key : string) (chunks : list (list Z)) :
  forall (n : node) (w : writer) (content : list Z),
  JsMap.get key (writers n) = Some w ->
  open_at n w content ->
  exists w', JsMap.get key (writers (run dir (map (WebrtcWriteTrack key) chunks) n))
             = Some w'
    /\ rawPath w' = rawPath w /\ wavPath w' = wavPath w /\ meta w' = meta w
    /\ open_at (run dir (map (WebrtcWriteTrack key) chunks) n) w'
         (content ++ concat (map (map (fun x => x mod 256)) chunks)).
Proof.
  induction chunks as [|c cs IH]; intros n w content Hw Ho.
  - exists w. cbn. rewrite app_nil_r. auto.
  - cbn [map run fold_left run_call].
    pose proof (writeChunk_eq key (map (fun x => x mod 256) c) content n w Hw Ho) as E.
    rewrite E. cbn [snd].
    match goal with |- context [fold_left _ _ ?n1] =>
      destruct (IH n1 {| fd := fd w; rawPath := rawPath w; wavPath := wavPath w;
                         bytes := bytes w + Z.of_nat (length (map (fun x => x mod 256) c));
                         meta := meta w |}
                  (content ++ map (fun x => x mod 256) c))
        as (w' & Hw' & Hr & Hv & Hm & Ho')
    end.
    + cbn. apply get_set_eq.
    + destruct Ho as (Hfd & Hf & Hb & Hlt). repeat split; cbn.
      * rewrite lookup_insert_eq, length_app. reflexivity.
      * apply lookup_insert_eq.
      * rewrite Hb, length_app. lia.
      * exact Hlt.
    + exists w'. split; [exact Hw'|]. cbn in Hr, Hv, Hm.
      repeat (split; [assumption|]).
      cbn [concat map]. rewrite app_assoc. exact Ho'.
Qed.

(** X5: A track from its first chunk to its container.  For a writer
    that is open at the end of its artifact, and whose container is a
    file of its own beside the artifact, the chunks that follow and the
    close leave the artifact holding what it held followed by the bytes
    of the chunks in arrival order, the container holding the canonical
    header for that many bytes followed by the same bytes, and the key
    with no writer any more. *)
Theorem track_roundtrip (dir key : string) (chunks : list (list Z)) (n : node)
    (w : writer) (content : list Z) :
  let payload := content ++ concat (map (map (fun x => x mod 256)) chunks) in
  JsMap.get key (writers n) = Some w ->
  open_at n w content ->
  beside (rawPath w) (wavPath w) ->
  Z.of_nat (length payload) <= 4294967259 ->
  0 <= rrate w 16000 <= 2147483647 ->
  let n' := run dir (map (WebrtcWriteTrack key) chunks ++ [WebrtcCloseTrack key]) n in
  Fs.files (disk n') !! rawPath w = Some payload
  /\ Fs.files (disk n') !! wavPath w
     = Some (Wav.canonical_header (Z.of_nat (length payload)) (rrate w 16000)
               ++ payload)
  /\ JsMap.get key (writers n') = None.
Proof.
  intros payload Hw Ho (Hne & _) HS Hr n'. subst n'.
  unfold run. rewrite fold_left_app. cbn [fold_left run_call].
  destruct (writes_one_key dir key chunks n w content Hw Ho)
    as (w' & Hw' & Hr' & Hv' & Hm' & Ho').
  unfold run in Hw', Ho'. fold payload in Ho'.
  set (n2 := fold_left _ (map (WebrtcWriteTrack key) chunks) n) in *.
  destruct Ho' as (Hfd & Hf & _).
  assert (Hrate : rrate w' 16000 = rrate w 16000).
  { unfold rrate. now rewrite Hm'. }
  destruct (closeWriter_spec key 16000 n2 w' payload Hw') as (n3 & E3 & Hf3 & Hw3 & _).
  - rewrite Hfd. eauto.
  - exact Hf.
  - now rewrite Hr', Hv'.
  - lia.
  - now rewrite Hrate.
  - rewrite E3. cbn [snd]. rewrite Hf3, Hw3. rewrite Hr', Hv' in *.
    rewrite lookup_insert_eq.
    rewrite lookup_insert_ne by congruence.
    repeat split; [exact Hf|now rewrite Hrate|].
    apply get_delete_eq.
Qed.

Lemma track_roundtrip_witness :
  let n := snd (openWriter "k1" "rec" (hook_meta "t1" "s1") boot) in
  let n' := run "rec" [WebrtcWriteTrack "k1" [1; 2]; WebrtcWriteTrack "k1" [3; 260];
                       WebrtcCloseTrack "k1"] n in
  Fs.files (disk n') !! "rec/track_k1.pcm16le.raw"%string = Some [1; 2; 3; 4]
  /\ Fs.files (disk n') !! "rec/track_k1.pcm16le.wav"%string
     = Some (Wav.canonical_header 4 16000 ++ [1; 2; 3; 4])
  /\ JsMap.get "k1" (writers n') = None.
Proof.
  intros n.
  apply (track_roundtrip "rec" "k1" [[1; 2]; [3; 260]] n
           {| fd := 3; rawPath := "rec/track_k1.pcm16le.raw";
              wavPath := "rec/track_k1.pcm16le.wav"; bytes := 0;
              meta := hook_meta "t1" "s1" |} []).
  - reflexivity.
  - split; [reflexivity|]. split; [reflexivity|]. split; [reflexivity|].
    unfold n. vm_compute. lia.
  - split; [discriminate|].
    exists "rec"%string, "track_k1.pcm16le.raw"%string, "track_k1.pcm16le.wav"%string.
    repeat split.
  - cbn. lia.
  - cbn. lia.
Defined.

Lemma get_delete_ne {V} (m : JsMap.t V) (k k' : string) :
  k <> k' -> JsMap.get k' (JsMap.delete k m) = JsMap.get k' m.
Proof.
  intros Hne. induction m as [|[k0 v0] m IH]; [reflexivity|]. cbn.
  destruct (String.eqb k k0) eqn:E.
  - apply String.eqb_eq in E. subst k0.
    destruct (String.eqb k' k) eqn:E'; [|exact IH].
    apply String.eqb_eq in E'. congruence.
  - cbn. now rewrite IH.
Qed.

Lemma get_some_key {V} (m : JsMap.t V) (k : string) (v : V) :
  JsMap.get k m = Some v -> In k (JsMap.keys m).
Proof.
  induction m as [|[k0 v0] m IH]; [discriminate|]. cbn.
  destruct (String.eqb k k0) eqn:E.
  - apply String.eqb_eq in E. auto.
  - auto.
Qed.

Lemma get_all_none {V} (m : JsMap.t V) :
  (forall k, JsMap.get k m = None) -> m = [].
Proof.
  destruct m as [|[k v] m]; [reflexivity|]. intros H. specialize (H k).
  cbn in H. now rewrite String.eqb_refl in H.
Qed.

(** One chunk, for any key, against writers that are consistent: they
    stay so, and each artifact grows by the chunk if and only if the
    chunk is for its key. *)
Lemma writeChunk_consistent (k : string) (buf : list Z) (n : node) :
  consistent n ->
  consistent (snd (writeChunk k buf n))
  /\ forall key w old,
       JsMap.get key (writers n) = Some w ->
       Fs.files (disk n) !! rawPath w = Some old ->
       exists w', JsMap.get key (writers (snd (writeChunk k buf n))) = Some w'
         /\ rawPath w' = rawPath w /\ wavPath w' = wavPath w /\ meta w' = meta w
         /\ bytes w' = bytes w + (if String.eqb k key then Z.of_nat (length buf) else 0)
         /\ Fs.files (disk (snd (writeChunk k buf n))) !! rawPath w
            = Some (old ++ if String.eqb k key then buf else []).
Proof.
  intros [Hopen Hsep].
  destruct (JsMap.get k (writers n)) as [wk|] eqn:Hk.
  - destruct (Hopen k wk Hk) as (content & Ho).
    rewrite (writeChunk_eq k buf content n wk Hk Ho). cbn [snd].
    destruct Ho as (Hfd & Hf & Hb & Hlt).
    split; [split|].
    + intros k' w' Hw'. cbn [writers] in Hw'.
      destruct (String.eqb k k') eqn:E.
      * apply String.eqb_eq in E. subst k'. rewrite get_set_eq in Hw'.
        injection Hw' as <-. exists (content ++ buf). repeat split; cbn.
        -- rewrite lookup_insert_eq, length_app. reflexivity.
        -- apply lookup_insert_eq.
        -- rewrite Hb, length_app. lia.
        -- exact Hlt.
      * apply String.eqb_neq in E. rewrite get_set_ne in Hw' by exact E.
        destruct (Hopen k' w' Hw') as (c' & Hfd' & Hf' & Hb' & Hlt').
        destruct (Hsep k k' wk w' E Hk Hw') as [Hd Hp].
        exists c'. repeat split; cbn; try assumption.
        -- now rewrite lookup_insert_ne by exact Hd.
        -- now rewrite lookup_insert_ne by exact Hp.
    + intros k1 k2 w1 w2 Hne H1 H2. cbn [writers] in H1, H2.
      destruct (String.eqb_spec k k1) as [E1|E1];
        destruct (String.eqb_spec k k2) as [E2|E2].
      * congruence.
      * subst k1. rewrite get_set_eq in H1. rewrite get_set_ne in H2 by exact E2.
        injection H1 as <-. cbn. now apply (Hsep k k2).
      * subst k2. rewrite get_set_eq in H2. rewrite get_set_ne in H1 by exact E1.
        injection H2 as <-. cbn. now apply (Hsep k1 k).
      * rewrite get_set_ne in H1 by exact E1. rewrite get_set_ne in H2 by exact E2.
        now apply (Hsep k1 k2).
    + intros key w old Hw Hold. cbn [writers disk Fs.files].
      destruct (String.eqb k key) eqn:E.
      * apply String.eqb_eq in E. subst key.
        assert (w = wk) by congruence. subst w.
        assert (old = content) by congruence. subst old.
        eexists. split; [apply get_set_eq|]. cbn. repeat split.
        apply lookup_insert_eq.
      * apply String.eqb_neq in E. exists w.
        rewrite get_set_ne by exact E. repeat split; try assumption; [lia|].
        destruct (Hsep k key wk w E Hk Hw) as [_ Hp].
        rewrite lookup_insert_ne by exact Hp. now rewrite app_nil_r.
  - rewrite (writeChunk_unknown k buf n Hk). cbn [snd].
    split; [now split|].
    intros key w old Hw Hold. exists w.
    destruct (String.eqb k key) eqn:E.
    + apply String.eqb_eq in E. congruence.
    + repeat split; try assumption; [lia|]. now rewrite app_nil_r.
Qed.

(** X6: Chunks of several tracks arriving in any interleaving: each raw
    artifact receives the bytes sent under its own key, in arrival
    order, and nothing of another track; the byte counter of the writer
    advances by the same amount. *)
Theorem interleaved_writes_separate (dir key : string)
    (ws : list (string * list Z)) :
  forall (n : node) (w : writer) (old : list Z),
  consistent n ->
  JsMap.get key (writers n) = Some w ->
  Fs.files (disk n) !! rawPath w = Some old ->
  let n' := run dir (write_calls ws) n in
  consistent n'
  /\ Fs.files (disk n') !! rawPath w = Some (old ++ written key ws)
  /\ exists w', JsMap.get key (writers n') = Some w'
       /\ rawPath w' = rawPath w /\ wavPath w' = wavPath w
       /\ bytes w' = bytes w + Z.of_nat (length (written key ws)).
Proof.
  induction ws as [|[k c] ws IH]; intros n w old Hc Hw Hold; cbn zeta.
  - cbn. rewrite app_nil_r. split; [exact Hc|]. split; [exact Hold|].
    exists w. repeat split; [assumption|lia].
  - cbn [write_calls map run fold_left run_call fst snd].
    destruct (writeChunk_consistent k (map (fun x => x mod 256) c) n Hc) as [Hc1 Hstep].
    destruct (Hstep key w old Hw Hold) as (w1 & Hw1 & Hr1 & Hv1 & _ & Hb1 & Hf1).
    rewrite <- Hr1 in Hf1.
    destruct (IH _ w1 _ Hc1 Hw1 Hf1) as (Hc2 & Hf2 & w2 & Hw2 & Hr2 & Hv2 & Hb2).
    unfold run, write_calls in Hc2, Hf2, Hw2.
    split; [exact Hc2|]. rewrite <- Hr1.
    unfold written in *. cbn [map concat fst snd].
    split.
    + rewrite Hf2, <- app_assoc. reflexivity.
    + exists w2. split; [exact Hw2|]. repeat split; try congruence.
      rewrite Hb2, Hb1, length_app.
      destruct (String.eqb k key); cbn [length]; lia.
Qed.

Lemma two_tracks_writers :
  writers two_tracks
  = [("k1"%string,
      {| fd := 3; rawPath := "rec/track_k1.pcm16le.raw";
         wavPath := "rec/track_k1.pcm16le.wav"; bytes := 0;
         meta := hook_meta "t1" "s1" |});
     ("k2"%string,
      {| fd := 4; rawPath := "rec/track_k2.pcm16le.raw";
         wavPath := "rec/track_k2.pcm16le.wav"; bytes := 0;
         meta := hook_meta "t2" "s2" |})].
Proof. vm_compute. reflexivity. Qed.

Lemma two_tracks_written_writers :
  writers two_tracks_written
  = [("k1"%string,
      {| fd := 3; rawPath := "rec/track_k1.pcm16le.raw";
         wavPath := "rec/track_k1.pcm16le.wav"; bytes := 4;
         meta := hook_meta "t1" "s1" |});
     ("k2"%string,
      {| fd := 4; rawPath := "rec/track_k2.pcm16le.raw";
         wavPath := "rec/track_k2.pcm16le.wav"; bytes := 2;
         meta := hook_meta "t2" "s2" |})].
Proof. vm_compute. reflexivity. Qed.

Lemma two_tracks_consistent : consistent two_tracks.
Proof.
  split.
  - intros k w H. rewrite two_tracks_writers in H. exists [].
    which_writer H; repeat split; vm_compute; reflexivity || lia.
  - intros k1 k2 w1 w2 Hne H1 H2. rewrite two_tracks_writers in H1, H2.
    which_writer H1; which_writer H2; try congruence; split; discriminate.
Qed.

Lemma interleaved_writes_separate_witness :
  let n' := run "rec" (write_calls [("k1"%string, [1; 2]); ("k2"%string, [9; 9]);
                                    ("k1"%string, [3; 4])]) two_tracks in
  consistent n'
  /\ Fs.files (disk n') !! "rec/track_k1.pcm16le.raw"%string = Some [1; 2; 3; 4]
  /\ exists w', JsMap.get "k1" (writers n') = Some w'
       /\ rawPath w' = "rec/track_k1.pcm16le.raw"%string
       /\ wavPath w' = "rec/track_k1.pcm16le.wav"%string
       /\ bytes w' = 0 + 4.
Proof.
  apply (interleaved_writes_separate "rec" "k1"
           [("k1"%string, [1; 2]); ("k2"%string, [9; 9]); ("k1"%string, [3; 4])]
           two_tracks
           {| fd := 3; rawPath := "rec/track_k1.pcm16le.raw";
              wavPath := "rec/track_k1.pcm16le.wav"; bytes := 0;
              meta := hook_meta "t1" "s1" |} []).
  - exact two_tracks_consistent.
  - vm_compute. reflexivity.
  - vm_compute. reflexivity.
Defined.

Lemma get_delete_some {V} (m : JsMap.t V) (k k0 : string) (v : V) :
  JsMap.get k (JsMap.delete k0 m) = Some v -> k <> k0 /\ JsMap.get k m = Some v.
Proof.
  intros H. destruct (String.eqb_spec k k0) as [->|Hne].
  - now rewrite get_delete_eq in H.
  - split; [exact Hne|]. rewrite get_delete_ne in H by congruence. exact H.
Qed.

(** A close that finds everything in place, with the descriptors it
    leaves. *)
Lemma closeWriter_state (key : string) (rate : Z) (n : node) (w : writer)
    (raw : list Z) :
  JsMap.get key (writers n) = Some w ->
  is_Some (Fs.fds (disk n) !! fd w) ->
  Fs.files (disk n) !! rawPath w = Some raw ->
  rawPath w <> wavPath w ->
  36 + Z.of_nat (length raw) <= 4294967295 ->
  0 <= rrate w rate <= 2147483647 ->
  exists n', closeWriter key rate n = (Ok tt, n')
    /\ Fs.files (disk n')
       = <[wavPath w := Wav.canonical_header (Z.of_nat (length raw)) (rrate w rate)
                          ++ raw]> (Fs.files (disk n))
    /\ writers n' = JsMap.delete key (writers n)
    /\ Fs.fds (disk n')
       = delete (S (Fs.next_fd (disk n)))
           (delete (Fs.next_fd (disk n)) (delete (fd w) (Fs.fds (disk n))))
    /\ Fs.next_fd (disk n') = S (S (Fs.next_fd (disk n))).
Proof.
  intros Hw Hfd Hraw Hne HS Hr. unfold closeWriter. rewrite Hw.
  erewrite bind_ok by (apply on_disk_eq, closeSync_eq; exact Hfd).
  destruct (finalize_with_state Wav.bufSize
              (Fs.with_fds (delete (fd w) (Fs.fds (disk n))) (disk n))
              (rawPath w) (wavPath w) raw (rrate w rate) bufSize_pos
              Hraw Hne HS Hr) as (d' & Hrun & Hf & Hd & Hn).
  erewrite bind_ok by (apply on_disk_eq; cbn [disk with_disk]; exact Hrun).
  eexists. split; [reflexivity|]. cbn. rewrite Hf, Hd, Hn. auto.
Qed.

Lemma closeWriter_finalizable (k0 : string) (n n1 : node) (w0 : writer) (raw : list Z) :
  finalizable n ->
  JsMap.get k0 (writers n) = Some w0 ->
  Fs.files (disk n1)
    = <[wavPath w0 := raw]> (Fs.files (disk n)) ->
  writers n1 = JsMap.delete k0 (writers n) ->
  Fs.fds (disk n1)
    = delete (S (Fs.next_fd (disk n)))
        (delete (Fs.next_fd (disk n)) (delete (fd w0) (Fs.fds (disk n)))) ->
  Fs.next_fd (disk n1) = S (S (Fs.next_fd (disk n))) ->
  finalizable n1.
Proof.
  intros (Hall & Hrw & Hsep) H0 Hf Hw Hd Hn. repeat split.
  - rewrite Hw in H. apply get_delete_some in H as [Hne H].
    destruct (Hall k w H) as (Hfd & Hlt & _).
    destruct (Hsep k k0 w w0 Hne H H0) as [Hfdne _].
    rewrite Hd, !lookup_delete_ne by lia. exact Hfd.
  - rewrite Hw in H. apply get_delete_some in H as [Hne H].
    destruct (Hall k w H) as (_ & Hlt & _). rewrite Hn. lia.
  - rewrite Hw in H. apply get_delete_some in H as [Hne H].
    now destruct (Hall k w H) as (_ & _ & Hr & _).
  - rewrite Hw in H. apply get_delete_some in H as [Hne H].
    now destruct (Hall k w H) as (_ & _ & Hr & _).
  - rewrite Hw in H. apply get_delete_some in H as [Hne H].
    destruct (Hall k w H) as (_ & _ & _ & content & Hc & Hs).
    exists content. split; [|exact Hs].
    rewrite Hf, lookup_insert_ne; [exact Hc|].
    intros E. now apply (Hrw k k0 w w0 H H0).
  - intros k1 k2 w1 w2 H1 H2. rewrite Hw in H1, H2.
    apply get_delete_some in H1 as [_ H1]. apply get_delete_some in H2 as [_ H2].
    now apply (Hrw k1 k2).
  - rewrite Hw in H1, H2.
    apply get_delete_some in H1 as [_ H1]. apply get_delete_some in H2 as [_ H2].
    now apply (Hsep k1 k2 w1 w2 H).
  - rewrite Hw in H1, H2.
    apply get_delete_some in H1 as [_ H1]. apply get_delete_some in H2 as [_ H2].
    now apply (Hsep k1 k2 w1 w2 H).
Qed.

(** The loop over a list of keys, against finalizable writers. *)
Lemma close_each_all (ks : list string) :
  forall n, finalizable n ->
  exists n', close_each ks n = (Ok tt, n') /\ finalizable n'
    /\ (forall k, In k ks -> JsMap.get k (writers n') = None)
    /\ (forall k, ~ In k ks -> JsMap.get k (writers n') = JsMap.get k (writers n))
    /\ (forall p, (forall k w, In k ks -> JsMap.get k (writers n) = Some w ->
                     p <> wavPath w) ->
          Fs.files (disk n') !! p = Fs.files (disk n) !! p)
    /\ (forall k w content, In k ks -> JsMap.get k (writers n) = Some w ->
          Fs.files (disk n) !! rawPath w = Some content ->
          Fs.files (disk n') !! wavPath w
          = Some (Wav.canonical_header (Z.of_nat (length content)) (rrate w 16000)
                    ++ content)).
Proof.
  induction ks as [|k0 ks IH]; intros n Hfin.
  - exists n. cbn. split; [reflexivity|]. split; [exact Hfin|].
    repeat split; auto; intros; contradiction.
  - cbn [close_each].
    destruct (JsMap.get k0 (writers n)) as [w0|] eqn:H0.
    + pose proof Hfin as (Hall & Hrw & Hsep).
      destruct (Hall k0 w0 H0) as (Hfd & Hlt & Hr & raw & Hraw & Hs).
      destruct (closeWriter_state k0 16000 n w0 raw H0 Hfd Hraw
                  (Hrw k0 k0 w0 w0 H0 H0) ltac:(lia) Hr)
        as (n1 & E1 & Hf1 & Hw1 & Hd1 & Hn1).
      erewrite bind_ok by exact E1.
      pose proof (closeWriter_finalizable k0 n n1 w0 _ Hfin H0 Hf1 Hw1 Hd1 Hn1) as Hfin1.
      destruct (IH n1 Hfin1) as (n' & E & Hfin' & Hnone & Hkeep & Hframe & Hcont).
      exists n'. split; [exact E|]. split; [exact Hfin'|].
      assert (Hframe' : forall p,
                (forall k w, In k ks -> JsMap.get k (writers n) = Some w ->
                   p <> wavPath w) ->
                Fs.files (disk n') !! p = Fs.files (disk n1) !! p).
      { intros p Hp. apply Hframe. intros k w Hk Hw. rewrite Hw1 in Hw.
        apply get_delete_some in Hw as [_ Hw]. now apply (Hp k w). }
      repeat split.
      * intros k [<-|Hk]; [|now apply Hnone].
        destruct (in_dec string_dec k0 ks) as [Hi|Hi]; [now apply Hnone|].
        rewrite (Hkeep k0 Hi), Hw1. apply get_delete_eq.
      * intros k Hk. rewrite Hkeep by (intros Hi; apply Hk; now right).
        rewrite Hw1. apply get_delete_ne. intros <-. apply Hk. now left.
      * intros p Hp. rewrite Hframe' by (intros k w Hk; apply Hp; now right).
        rewrite Hf1. apply lookup_insert_ne. intros E'.
        apply (Hp k0 w0); [now left|exact H0|now symmetry].
      * intros k w content Hk Hw Hc.
        destruct (String.eqb_spec k k0) as [->|Hne].
        -- assert (w = w0) by congruence. subst w.
           assert (content = raw) by congruence. subst content.
           rewrite Hframe.
           ++ rewrite Hf1. apply lookup_insert_eq.
           ++ intros k w Hk' Hw'. rewrite Hw1 in Hw'.
              apply get_delete_some in Hw' as [Hne Hw'].
              now apply (Hsep k0 k w0 w ltac:(congruence) H0 Hw').
        -- destruct Hk as [->|Hk]; [congruence|].
           apply (Hcont k); [exact Hk| |].
           ++ rewrite Hw1. now rewrite get_delete_ne by congruence.
           ++ rewrite Hf1, lookup_insert_ne; [exact Hc|].
              intros E'. now apply (Hrw k k0 w w0 Hw H0).
    + erewrite bind_ok by (apply closeWriter_unknown; exact H0).
      destruct (IH n Hfin) as (n' & E & Hfin' & Hnone & Hkeep & Hframe & Hcont).
      exists n'. split; [exact E|]. split; [exact Hfin'|]. repeat split.
      * intros k [<-|Hk]; [|now apply Hnone].
        destruct (in_dec string_dec k0 ks) as [Hi|Hi]; [now apply Hnone|].
        now rewrite (Hkeep k0 Hi).
      * intros k Hk. apply Hkeep. intros Hi. apply Hk. now right.
      * intros p Hp. apply Hframe. intros k w Hk. apply Hp. now right.
      * intros k w content [<-|Hk] Hw Hc; [congruence|]. now apply (Hcont k).
Qed.

(** X7: The end-of-run loop over writers that are all in order: it returns
    normally, no writer is left, every raw artifact is unchanged and
    every track has its container, the canonical header for the
    artifact's size followed by the artifact's bytes. *)
Theorem finalize_writers_closes_all (n : node) :
  finalizable n ->
  exists n', finalize_writers n = (Ok tt, n')
    /\ writers n' = []
    /\ forall k w content,
         JsMap.get k (writers n) = Some w ->
         Fs.files (disk n) !! rawPath w = Some content ->
         Fs.files (disk n') !! rawPath w = Some content
         /\ Fs.files (disk n') !! wavPath w
            = Some (Wav.canonical_header (Z.of_nat (length content)) (rrate w 16000)
                      ++ content).
Proof.
  intros Hfin. unfold finalize_writers.
  destruct (close_each_all (JsMap.keys (writers n)) n Hfin)
    as (n' & E & _ & Hnone & Hkeep & Hframe & Hcont).
  exists n'. split; [exact E|]. split.
  - apply get_all_none. intros k.
    destruct (in_dec string_dec k (JsMap.keys (writers n))) as [Hi|Hi].
    + now apply Hnone.
    + rewrite (Hkeep k Hi).
      destruct (JsMap.get k (writers n)) eqn:G; [|reflexivity].
      exfalso. apply Hi. eapply get_some_key. exact G.
  - intros k w content Hw Hc. split.
    + rewrite Hframe; [exact Hc|]. intros k' w' _ Hw'.
      destruct Hfin as (_ & Hrw & _). now apply (Hrw k k').
    + apply (Hcont k); [|exact Hw|exact Hc]. eapply get_some_key. exact Hw.
Qed.

Lemma two_tracks_written_finalizable : finalizable two_tracks_written.
Proof.
  repeat split.
  - rewrite two_tracks_written_writers in H. which_writer H; vm_compute; eauto.
  - rewrite two_tracks_written_writers in H. which_writer H; vm_compute; lia.
  - rewrite two_tracks_written_writers in H. which_writer H; vm_compute; discriminate.
  - rewrite two_tracks_written_writers in H. which_writer H; vm_compute; discriminate.
  - rewrite two_tracks_written_writers in H.
    which_writer H; eexists; (split; [vm_compute; reflexivity|cbn; lia]).
  - intros k1 k2 w1 w2 H1 H2. rewrite two_tracks_written_writers in H1, H2.
    which_writer H1; which_writer H2; discriminate.
  - rewrite two_tracks_written_writers in H0, H1.
    which_writer H0; which_writer H1; try congruence; discriminate.
  - rewrite two_tracks_written_writers in H0, H1.
    which_writer H0; which_writer H1; try congruence; discriminate.
Qed.

Lemma finalize_writers_closes_all_witness :
  exists n', finalize_writers two_tracks_written = (Ok tt, n')
    /\ writers n' = []
    /\ forall k w content,
         JsMap.get k (writers two_tracks_written) = Some w ->
         Fs.files (disk two_tracks_written) !! rawPath w = Some content ->
         Fs.files (disk n') !! rawPath w = Some content
         /\ Fs.files (disk n') !! wavPath w
            = Some (Wav.canonical_header (Z.of_nat (length content)) (rrate w 16000)
                      ++ content).
Proof.
  apply (finalize_writers_closes_all two_tracks_written).
  exact two_tracks_written_finalizable.
Defined.

(** X8: The end-of-run loop has no handler around a close.  When the raw
    artifact of a track is gone, the close of that track throws, the
    loop ends there, and no track after it is finalized: every writer
    is still registered and no file has changed. *)
Theorem finalize_loop_stops_at_failure (k : string) (rest : list string)
    (n : node) (w : writer) :
  JsMap.get k (writers n) = Some w ->
  is_Some (Fs.fds (disk n) !! fd w) ->
  Fs.files (disk n) !! rawPath w = None ->
  exists n', close_each (k :: rest) n = (Throw (ENOENT (rawPath w)), n')
    /\ writers n' = writers n
    /\ Fs.files (disk n') = Fs.files (disk n).
Proof.
  intros Hw Hfd Hraw. cbn [close_each].
  eexists. split.
  - eapply bind_throw. unfold closeWriter. rewrite Hw.
    erewrite bind_ok by (apply on_disk_eq, closeSync_eq; exact Hfd).
    eapply bind_throw. apply on_disk_eq. cbn [disk with_disk].
    apply finalize_missing_raw. exact Hraw.
  - split; reflexivity.
Qed.

Lemma finalize_loop_stops_at_failure_witness :
  exists n', close_each ["k1"; "k2"]%string artifact_lost
             = (Throw (ENOENT "rec/track_k1.pcm16le.raw"), n')
    /\ writers n' = writers artifact_lost
    /\ Fs.files (disk n') = Fs.files (disk artifact_lost).
Proof.
  apply (finalize_loop_stops_at_failure "k1" ["k2"%string] artifact_lost
           {| fd := 3; rawPath := "rec/track_k1.pcm16le.raw";
              wavPath := "rec/track_k1.pcm16le.wav"; bytes := 4;
              meta := hook_meta "t1" "s1" |}).
  - vm_compute. reflexivity.
  - vm_compute. eauto.
  - vm_compute. reflexivity.
Defined.

(** X9: Two keys that the file name cannot tell apart share one artifact:
    opening the second empties what the first has written, and both
    writers stay registered on the same path. *)
Theorem colliding_keys_share_artifact (k1 k2 dir : string) (mt : track_meta)
    (n : node) (w1 : writer) :
  safe_key k1 = safe_key k2 -> k1 <> k2 ->
  JsMap.get k1 (writers n) = Some w1 ->
  rawPath w1 = raw_path_of dir k1 ->
  exists n' w2, openWriter k2 dir mt n = (Ok tt, n')
    /\ JsMap.get k1 (writers n') = Some w1
    /\ JsMap.get k2 (writers n') = Some w2
    /\ rawPath w2 = rawPath w1
    /\ Fs.files (disk n') !! rawPath w1 = Some [].
Proof.
  intros Hs Hne Hw Hr. rewrite openWriter_eq. eexists. eexists.
  split; [reflexivity|]. cbn [writers disk Fs.files].
  rewrite get_set_ne by congruence. rewrite get_set_eq.
  split; [exact Hw|]. split; [reflexivity|]. cbn [rawPath].
  assert (E : raw_path_of dir k2 = rawPath w1).
  { rewrite Hr. unfold raw_path_of. now rewrite Hs. }
  split; [exact E|]. rewrite <- E. apply lookup_insert_eq.
Qed.

Lemma colliding_keys_share_artifact_witness :
  Fs.files (disk spaced_key) !! "rec/track_a_b.pcm16le.raw"%string = Some [1; 2]
  /\ exists n' w2, openWriter "a_b" "rec" (hook_meta "t2" "s2") spaced_key = (Ok tt, n')
       /\ JsMap.get "a b" (writers n')
          = Some {| fd := 3; rawPath := "rec/track_a_b.pcm16le.raw";
                    wavPath := "rec/track_a_b.pcm16le.wav"; bytes := 2;
                    meta := hook_meta "t1" "s1" |}
       /\ JsMap.get "a_b" (writers n') = Some w2
       /\ rawPath w2 = "rec/track_a_b.pcm16le.raw"%string
       /\ Fs.files (disk n') !! "rec/track_a_b.pcm16le.raw"%string = Some [].
Proof.
  split; [vm_compute; reflexivity|].
  apply (colliding_keys_share_artifact "a b" "a_b" "rec" (hook_meta "t2" "s2")
           spaced_key
           {| fd := 3; rawPath := "rec/track_a_b.pcm16le.raw";
              wavPath := "rec/track_a_b.pcm16le.wav"; bytes := 2;
              meta := hook_meta "t1" "s1" |}).
  - reflexivity.
  - discriminate.
  - vm_compute. reflexivity.
  - vm_compute. reflexivity.
Defined.

Lemma safe_char_underscore : safe_char "_" = true.
Proof. reflexivity. Qed.

(** X10: The file-name form of a key: as long as the key, made of letters,
    digits, underscore, hyphen and dot only, unchanged by a second
    pass, and the key itself exactly when the key is already of that
    form. *)
Theorem safe_key_normal_form (key : string) :
  String.length (safe_key key) = String.length key
  /\ forallb safe_char (list_ascii_of_string (safe_key key)) = true
  /\ safe_key (safe_key key) = safe_key key
  /\ (safe_key key = key <-> forallb safe_char (list_ascii_of_string key) = true).
Proof.
  induction key as [|c key (IH1 & IH2 & IH3 & IH4)]; [now repeat split|].
  cbn [safe_key String.length list_ascii_of_string forallb].
  destruct (safe_char c) eqn:E.
  - rewrite E, IH1, IH2, IH3. repeat split; cbn.
    + intros [= H]. now apply IH4.
    + intros H. f_equal. now apply IH4.
  - rewrite safe_char_underscore, IH1, IH2, IH3. repeat split; cbn.
    + intros [= H _]. rewrite <- H, safe_char_underscore in E. discriminate.
    + discriminate.
Qed.

Lemma safe_key_normal_form_witness :
  safe_key "1700_ab.c-D" = "1700_ab.c-D"%string.
Proof.
  apply (proj2 (proj2 (proj2 (safe_key_normal_form "1700_ab.c-D")))). reflexivity.
Defined.

End WriterMore.

(** ** The participant streams of [meetbot-v2.js] *)

Section StreamFacts.
Import V2 Streams.
Variables (pdir name now : string).

Lemma get_has {V} (m : JsMap.t V) (k : string) :
  JsMap.has k m = match JsMap.get k m with Some _ => true | None => false end.
Proof. reflexivity. Qed.

(** The stream after one more chunk. *)
Lemma write_chunk_eq (pid : string) (arr : list Z) (n : node) (i : streamInfo) :
  JsMap.get pid (participantAudioStreams n) = Some i ->
  let st := next_stats (silence i) (max_amplitude (int16_samples (to_u8 arr)))
              (is_silent arr) in
  write_chunk pid arr n
  = (Ok tt,
     with_streams
       (JsMap.set pid
          {| writable := writable i; opened := opened i;
             pending := if writable i
                           && negb (is_silent arr && (30 <? consecutiveSilence st))
                        then pending i ++ to_u8 arr else pending i;
             rawPath := rawPath i; wavPath := wavPath i; trackId := trackId i;
             silence := Some st |}
          (participantAudioStreams n)) n).
Proof. intros H. cbn zeta. unfold write_chunk. rewrite H. reflexivity. Qed.

(** A chunk for a participant whose folder and stream exist goes
    straight to the stream. *)
Lemma chunk_on_stream (pid : string) (arr : list Z) (n : node) (i : streamInfo) :
  arr <> [] ->
  existsSync (participant_dir pdir pid name) n = true ->
  JsMap.get pid (participantAudioStreams n) = Some i ->
  sendParticipantAudioChunk pdir pid name arr now n = write_chunk pid arr n.
Proof.
  intros Harr Hex Hi. unfold sendParticipantAudioChunk.
  destruct arr as [|a arr]; [congruence|].
  unfold try_catch. rewrite Hex. cbn [negb].
  unfold mbind, M_bind, ensure_stream. rewrite get_has, Hi.
  rewrite (write_chunk_eq pid (a :: arr) n i Hi). reflexivity.
Qed.

(** Neither the folders nor the files change on that path. *)
Lemma chunk_on_stream_state (pid : string) (arr : list Z) (n : node) (i : streamInfo) :
  existsSync (participant_dir pdir pid name) n = true ->
  JsMap.get pid (participantAudioStreams n) = Some i ->
  let n' := after_chunk pdir pid name arr now n in
  existsSync (participant_dir pdir pid name) n' = true
  /\ disk n' = disk n
  /\ exists i', JsMap.get pid (participantAudioStreams n') = Some i'
       /\ writable i' = writable i /\ rawPath i' = rawPath i.
Proof.
  intros Hex Hi. cbn zeta. unfold after_chunk. destruct arr as [|a arr].
  - cbn. split; [exact Hex|]. split; [reflexivity|]. eauto.
  - rewrite (chunk_on_stream pid (a :: arr) n i ltac:(discriminate) Hex Hi).
    rewrite (write_chunk_eq pid (a :: arr) n i Hi). cbn [snd].
    split; [exact Hex|]. split; [reflexivity|].
    eexists. split; [cbn; apply get_set_eq|]. now split.
Qed.

Lemma counter_of_info (pid : string) (n : node) (i : streamInfo) :
  JsMap.get pid (participantAudioStreams n) = Some i ->
  counter pid n = consecutiveSilence (default zero_stats (silence i)).
Proof. intros H. unfold counter. rewrite H. now destruct i as [? ? ? ? ? ? [s|]]. Qed.

(** One chunk on an existing, writable stream. *)
Lemma send_existing (pid : string) (arr : list Z) (n : node) (i : streamInfo) :
  arr <> [] ->
  existsSync (participant_dir pdir pid name) n = true ->
  JsMap.get pid (participantAudioStreams n) = Some i ->
  writable i = true ->
  let n' := after_chunk pdir pid name arr now n in
  let c' := if is_silent arr then counter pid n + 1 else 0 in
  counter pid n' = c'
  /\ queued pid n' = (if is_silent arr && (30 <? c')
                     then pending i else pending i ++ to_u8 arr)
  /\ existsSync (participant_dir pdir pid name) n' = true
  /\ exists i', JsMap.get pid (participantAudioStreams n') = Some i'
       /\ writable i' = true /\ pending i' = queued pid n'.
Proof.
  intros Harr Hex Hi Hw. cbn zeta. unfold after_chunk.
  rewrite (chunk_on_stream pid arr n i Harr Hex Hi).
  rewrite (write_chunk_eq pid arr n i Hi). cbn [snd].
  rewrite (counter_of_info pid n i Hi), Hw. cbn [andb].
  set (st := next_stats _ _ _).
  assert (Hc : consecutiveSilence st
               = if is_silent arr
                 then consecutiveSilence (default zero_stats (silence i)) + 1 else 0).
  { unfold st, next_stats. cbn. reflexivity. }
  unfold counter, queued. cbn [participantAudioStreams with_streams].
  rewrite !get_set_eq. cbn [silence pending]. rewrite Hc.
  split; [reflexivity|].
  split; [now destruct (is_silent arr); cbn [andb negb]; [destruct (30 <? _)|]|].
  split; [exact Hex|].
  eexists. split; [reflexivity|]. cbn. now split.
Qed.

(** A run of silent chunks: only those that keep the counter at or
    below 30 are given to the stream. *)
Lemma send_all_silent (pid : string) (cs : list (list Z)) :
  Forall (fun arr => arr <> [] /\ is_silent arr = true) cs ->
  forall (n : node) (i : streamInfo),
  existsSync (participant_dir pdir pid name) n = true ->
  JsMap.get pid (participantAudioStreams n) = Some i ->
  writable i = true ->
  let n' := send_all pdir pid name now cs n in
  counter pid n' = counter pid n + Z.of_nat (length cs)
  /\ queued pid n'
     = pending i ++ concat (map to_u8 (take (Z.to_nat (30 - counter pid n)) cs))
  /\ existsSync (participant_dir pdir pid name) n' = true
  /\ exists i', JsMap.get pid (participantAudioStreams n') = Some i'
       /\ writable i' = true /\ pending i' = queued pid n'.
Proof.
  induction 1 as [|arr cs [Harr Hs] _ IH]; intros n i Hex Hi Hw; cbn zeta.
  - cbn. rewrite take_nil. cbn. rewrite app_nil_r, Z.add_0_r.
    unfold queued. rewrite Hi. repeat split; eauto.
  - cbn [send_all fold_left].
    destruct (send_existing pid arr n i Harr Hex Hi Hw)
      as (Hc & Hq & Hex1 & i' & Hi' & Hw' & Hp').
    rewrite Hs in Hc, Hq. cbn [andb] in Hq.
    set (n1 := after_chunk pdir pid name arr now n) in *.
    destruct (IH n1 i' Hex1 Hi' Hw') as (Hc2 & Hq2 & Hex2 & Hi2).
    fold (send_all pdir pid name now cs n1).
    split; [rewrite Hc2, Hc; cbn [length]; lia|].
    split; [|split; [exact Hex2|exact Hi2]].
    rewrite Hq2, Hp', Hq, Hc.
    destruct (30 <? counter pid n + 1) eqn:H30.
    + apply Z.ltb_lt in H30.
      replace (Z.to_nat (30 - (counter pid n + 1))) with 0%nat by lia.
      replace (Z.to_nat (30 - counter pid n)) with 0%nat by lia.
      reflexivity.
    + apply Z.ltb_ge in H30.
      replace (Z.to_nat (30 - counter pid n))
        with (S (Z.to_nat (30 - (counter pid n + 1)))) by lia.
      cbn. now rewrite <- app_assoc.
Qed.

Lemma silent_by_samples (arr : list Z) :
  is_silent arr = forallb (fun a => Z.abs a <=? 3) (samples_of arr).
Proof. apply is_silent_samples. Qed.

Lemma silent_of_small (arr : list Z) :
  Forall (fun a => -3 <= a <= 3) (samples_of arr) -> is_silent arr = true.
Proof.
  intros H. rewrite silent_by_samples. apply forallb_forall. intros a Ha.
  rewrite Forall_forall in H. apply list_elem_of_In, H in Ha. apply Z.leb_le. lia.
Qed.

Lemma loud_of_large (arr : list Z) :
  Exists (fun a => 3 < Z.abs a) (samples_of arr) -> is_silent arr = false.
Proof.
  intros H. rewrite silent_by_samples. apply Exists_exists in H as (a & Ha & Hl).
  apply not_true_is_false. intros Hall. rewrite forallb_forall in Hall.
  apply list_elem_of_In, Hall in Ha. apply Z.leb_le in Ha. lia.
Qed.

(** X13: The silence gate, for a participant whose folder exists and
    whose stream is open.  A chunk is silent when none of its 16-bit
    samples is further from zero than 3.  A silent chunk is counted and
    its bytes are given to the stream unless it makes the run of
    consecutive silent chunks longer than 30 (the counter includes the
    chunk itself); so of 40 silent chunks arriving after a reset, the
    first 30 reach the stream and the last 10 do not.  A chunk that is
    not silent is always given to the stream, whatever the counter, and
    sets the counter to zero. *)
Theorem silence_gate_on_open_stream (pid : string) (n : node) (i : streamInfo) :
  existsSync (participant_dir pdir pid name) n = true ->
  JsMap.get pid (participantAudioStreams n) = Some i ->
  writable i = true ->
  (forall arr, arr <> [] ->
     let n' := after_chunk pdir pid name arr now n in
     if forallb (fun a => Z.abs a <=? 3) (samples_of arr)
     then counter pid n' = counter pid n + 1
          /\ queued pid n'
             = (if 30 <? counter pid n + 1 then pending i
                else pending i ++ as_bytes arr)
     else counter pid n' = 0
          /\ queued pid n' = pending i ++ as_bytes arr)
  /\ (counter pid n = 0 ->
      forall (cs : list (list Z)) (loud : list Z),
      length cs = 40%nat ->
      Forall (fun arr => arr <> [] /\ Forall (fun a => -3 <= a <= 3) (samples_of arr)) cs ->
      loud <> [] -> Exists (fun a => 3 < Z.abs a) (samples_of loud) ->
      let n40 := send_all pdir pid name now cs n in
      let n41 := after_chunk pdir pid name loud now n40 in
      queued pid n40 = pending i ++ concat (map as_bytes (take 30 cs))
      /\ counter pid n40 = 40
      /\ queued pid n41
         = (pending i ++ concat (map as_bytes (take 30 cs))) ++ as_bytes loud
      /\ counter pid n41 = 0).
Proof.
  intros Hex Hi Hw. split.
  - intros arr Harr. cbn zeta.
    destruct (send_existing pid arr n i Harr Hex Hi Hw) as (Hc & Hq & _).
    rewrite <- silent_by_samples.
    destruct (is_silent arr); cbn [andb] in Hq; rewrite Hc, Hq; now split.
  - intros Hc0 cs loud Hlen Hcs Hloud Hls. cbn zeta.
    assert (Hcs' : Forall (fun arr => arr <> [] /\ is_silent arr = true) cs).
    { eapply Forall_impl; [exact Hcs|]. intros arr [Ha Hs].
      split; [exact Ha|now apply silent_of_small]. }
    destruct (send_all_silent pid cs Hcs' n i Hex Hi Hw)
      as (Hc & Hq & Hex' & i' & Hi' & Hw' & Hp').
    rewrite Hc0 in Hc, Hq. rewrite Hlen in Hc. cbn in Hc, Hq.
    change (Pos.to_nat 30) with 30%nat in Hq.
    split; [exact Hq|]. split; [exact Hc|].
    destruct (send_existing pid loud _ i' Hloud Hex' Hi' Hw') as (Hc1 & Hq1 & _).
    rewrite (loud_of_large loud Hls) in Hc1, Hq1. cbn [andb] in Hq1.
    rewrite Hc1, Hq1, Hp', Hq. now split.
Qed.

(** The statistics after one chunk that is not empty, for a participant
    whose folder and stream exist. *)
Lemma send_stats (pid : string) (arr : list Z) (n : node) (i : streamInfo) :
  arr <> [] ->
  existsSync (participant_dir pdir pid name) n = true ->
  JsMap.get pid (participantAudioStreams n) = Some i ->
  stats pid (after_chunk pdir pid name arr now n)
  = next_stats (Some (stats pid n))
      (max_amplitude (int16_samples (to_u8 arr))) (is_silent arr).
Proof.
  intros Harr Hex Hi. unfold after_chunk.
  rewrite (chunk_on_stream pid arr n i Harr Hex Hi).
  rewrite (write_chunk_eq pid arr n i Hi). cbn [snd].
  unfold stats. cbn [participantAudioStreams with_streams].
  rewrite get_set_eq, Hi. cbn [silence default]. unfold next_stats.
  now destruct (silence i).
Qed.

Lemma next_stats_ok (s : silenceStats) (m : Q) (b : bool) :
  stats_ok s -> stats_ok (next_stats (Some s) m b)
  /\ totalChunks (next_stats (Some s) m b) = totalChunks s + 1.
Proof.
  unfold stats_ok, next_stats. cbn. destruct b; lia.
Qed.

(** X11: The silence statistics of a stream stay coherent whatever
    arrives: the run of consecutive silent chunks is never longer than
    the count of silent chunks, which is never more than the count of
    all chunks; and for a participant whose folder and stream exist,
    every chunk that is not empty is counted, given to the stream or
    not. *)
Theorem silence_statistics (pid : string) (chunks : list (list Z)) :
  forall (n : node) (i : streamInfo),
  existsSync (participant_dir pdir pid name) n = true ->
  JsMap.get pid (participantAudioStreams n) = Some i ->
  stats_ok (stats pid n) ->
  let n' := send_all pdir pid name now chunks n in
  stats_ok (stats pid n')
  /\ totalChunks (stats pid n')
     = totalChunks (stats pid n) + Z.of_nat (length (accepted chunks)).
Proof.
  induction chunks as [|c cs IH]; intros n i Hex Hi Hok; cbn zeta.
  - cbn. split; [exact Hok|lia].
  - unfold send_all. cbn [fold_left].
    destruct (chunk_on_stream_state pid c n i Hex Hi) as (Hex1 & _ & i1 & Hi1 & _).
    destruct c as [|a c].
    + change (after_chunk pdir pid name [] now n) with n in *.
      cbn [accepted filter length Nat.eqb negb]. now apply (IH n i).
    + destruct (next_stats_ok (stats pid n)
                  (max_amplitude (int16_samples (to_u8 (a :: c))))
                  (is_silent (a :: c)) Hok) as [Hok1 Ht1].
      rewrite <- (send_stats pid (a :: c) n i) in Hok1, Ht1
        by (try discriminate; assumption).
      destruct (IH _ i1 Hex1 Hi1 Hok1) as [Hok2 Ht2]. unfold send_all in Hok2, Ht2.
      split; [exact Hok2|]. rewrite Ht2, Ht1.
      change (accepted ((a :: c) :: cs)) with ((a :: c) :: accepted cs).
      cbn [length]. lia.
Qed.

(** The rounds of [closeAudioFiles] leave every stream they end ended,
    and change no folder. *)
Lemma close_entries_ended (es : list (string * streamInfo)) (pid : string) :
  forall n : node,
  (exists x, JsMap.get pid (participantAudioStreams n) = Some x
             /\ (writable x = false \/ In pid (map fst es))) ->
  exists x, JsMap.get pid (participantAudioStreams (close_entries es n)) = Some x
            /\ writable x = false.
Proof.
  induction es as [|[k j] es IH]; intros n (x & Hx & Hw).
  - cbn. exists x. split; [exact Hx|]. destruct Hw as [Hw|[]]. exact Hw.
  - cbn [close_entries]. rewrite close_participant_eq. cbn [snd]. apply IH.
    cbn [participantAudioStreams with_disk with_streams].
    destruct (String.eqb_spec k pid) as [->|Hne].
    + rewrite get_set_eq. eexists. split; [reflexivity|]. now left.
    + rewrite get_set_ne by congruence. exists x. split; [exact Hx|].
      destruct Hw as [Hw|[Hk|Hin]]; [now left|cbn in Hk; congruence|now right].
Qed.

Lemma close_entries_dirs (es : list (string * streamInfo)) (n : node) :
  dirs (close_entries es n) = dirs n.
Proof.
  revert n. induction es as [|[k j] es IH]; intros n; [reflexivity|].
  cbn [close_entries]. rewrite IH, close_participant_eq. reflexivity.
Qed.

Lemma get_in_keys {V} (m : JsMap.t V) (k : string) (v : V) :
  JsMap.get k m = Some v -> In k (map fst m).
Proof.
  induction m as [|[k' v'] m IH]; cbn; [discriminate|].
  destruct (String.eqb_spec k k') as [->|Hne]; [now left|].
  intros H. right. now apply IH.
Qed.

(** X12: Once [closeAudioFiles] has run, a chunk that still arrives for
    a participant who had a stream and whose folder exists is given to
    no stream and changes no file, loud or not; it is still counted in
    the stream's statistics. *)
Theorem chunk_after_close_dropped (pid mixedRaw mixedWav : string) (arr : list Z)
    (n : node) (i : streamInfo) :
  participant_dir pdir pid name ∈ dirs n ->
  JsMap.get pid (participantAudioStreams n) = Some i ->
  let n1 := closeAudioFiles mixedRaw mixedWav n in
  let n2 := after_chunk pdir pid name arr now n1 in
  queued pid n2 = queued pid n1
  /\ disk n2 = disk n1
  /\ (arr <> [] -> totalChunks (stats pid n2) = totalChunks (stats pid n1) + 1).
Proof.
  intros Hdir Hi n1 n2.
  set (n0 := snd (try_catch (on_disk (Wav.finalizeRawToWav mixedRaw mixedWav 16000))
                            (fun _ => ret tt) n)).
  assert (H0 : participantAudioStreams n0 = participantAudioStreams n /\ dirs n0 = dirs n).
  { unfold n0, try_catch, on_disk.
    destruct (Wav.finalizeRawToWav _ _ _ (disk n)) as [[[]|e] d]; now split. }
  destruct H0 as [Hs0 Hd0].
  assert (Hex : existsSync (participant_dir pdir pid name) n1 = true).
  { unfold existsSync. apply orb_true_iff. left. apply bool_decide_eq_true.
    unfold n1, closeAudioFiles. fold n0. now rewrite close_entries_dirs, Hd0. }
  destruct (close_entries_ended (participantAudioStreams n0) pid n0) as (x & Hx & Hw).
  { exists i. rewrite Hs0. split; [exact Hi|]. right. now apply get_in_keys in Hi. }
  change (close_entries (participantAudioStreams n0) n0) with n1 in Hx.
  assert (E : n2 = snd (write_chunk pid arr n1) \/ (arr = [] /\ n2 = n1)).
  { destruct arr as [|a arr]; [now right|]. left. unfold n2, after_chunk.
    now rewrite (chunk_on_stream pid (a :: arr) n1 x ltac:(discriminate) Hex Hx). }
  destruct E as [E|[-> E]]; rewrite E.
  - rewrite (write_chunk_eq pid arr n1 x Hx). cbn [snd]. split; [|split].
    + unfold queued. cbn [participantAudioStreams with_streams].
      rewrite get_set_eq, Hx, Hw. reflexivity.
    + reflexivity.
    + intros _. unfold stats. cbn [participantAudioStreams with_streams].
      rewrite get_set_eq, Hx. cbn [silence default]. unfold next_stats. cbn.
      now destruct (silence x).
  - split; [reflexivity|]. split; [reflexivity|]. congruence.
Qed.

Lemma bind_cases {S A B} (m : M S A) (k : A -> M S B) (s : S) :
  (m ≫= k) s
  = match m s with
    | (Ok a, s') => k a s'
    | (Throw e, s') => (Throw e, s')
    end.
Proof. reflexivity. Qed.

Lemma ensure_stream_state (pdir' pid now' : string) (n : node) :
  let n1 := snd (ensure_stream pdir' pid now' n) in
  disk n1 = disk n /\ dirs n ⊆ dirs n1
  /\ forall pid', pid <> pid' ->
       JsMap.get pid' (participantAudioStreams n1)
       = JsMap.get pid' (participantAudioStreams n).
Proof.
  cbn zeta. unfold ensure_stream.
  destruct (JsMap.has pid (participantAudioStreams n)); [now repeat split|].
  rewrite bind_cases.
  set (m := if negb (existsSync (pdir' ++ "/audio_tracks") n)
            then mkdirSync (pdir' ++ "/audio_tracks") ;;
                 make_track_folders (pdir' ++ "/audio_tracks")
            else ret tt).
  assert (Hk : keeps_audio m).
  { unfold m. destruct (negb _); [|apply keeps_ret].
    apply keeps_bind; [apply keeps_mkdirSync|intros _; apply keeps_make_track_folders]. }
  destruct (Hk n) as (H1 & H2 & _ & H4).
  destruct (m n) as [[[]|e] n1]; cbn [snd] in *.
  - cbn. split; [exact H1|]. split; [exact H4|].
    intros pid' Hne. rewrite get_set_ne by exact Hne. now rewrite H2.
  - split; [exact H1|]. split; [exact H4|]. intros pid' _. now rewrite H2.
Qed.

Lemma write_chunk_state (pid : string) (arr : list Z) (n : node) :
  let n1 := snd (write_chunk pid arr n) in
  disk n1 = disk n /\ dirs n1 = dirs n
  /\ forall pid', pid <> pid' ->
       JsMap.get pid' (participantAudioStreams n1)
       = JsMap.get pid' (participantAudioStreams n).
Proof.
  cbn zeta. unfold write_chunk.
  destruct (JsMap.get pid (participantAudioStreams n)); [|now repeat split].
  cbn. repeat split. intros pid' Hne. now apply get_set_ne.
Qed.

(** The three ways through the handler for a chunk that is not empty. *)
Lemma after_chunk_cases (pid : string) (arr : list Z) (n : node) :
  arr <> [] ->
  after_chunk pdir pid name arr now n
  = if existsSync (participant_dir pdir pid name) n
    then match ensure_stream (participant_dir pdir pid name) pid now n with
         | (Ok _, n1) => snd (write_chunk pid arr n1)
         | (Throw _, n1) => n1
         end
    else snd (directory_block (participant_dir pdir pid name) pid n).
Proof.
  intros Harr. destruct (existsSync (participant_dir pdir pid name) n) eqn:Hex.
  - unfold after_chunk, sendParticipantAudioChunk.
    destruct arr as [|a arr]; [congruence|].
    unfold try_catch. rewrite Hex. cbn [negb]. unfold mbind, M_bind.
    destruct (ensure_stream _ pid now n) as [[[]|e] n1]; [|reflexivity].
    now destruct (write_chunk pid (a :: arr) n1) as [[[]|e] n2].
  - unfold after_chunk. now rewrite (chunk_without_folder pdir pid name now arr n Harr Hex).
Qed.

(** X14: A chunk changes nothing but the stream of its own participant:
    the streams of the other participants are as before, no file
    changes while the handler runs (a stream writes in the background),
    and no folder is removed. *)
Theorem chunk_touches_own_stream_only (pid : string) (arr : list Z) (n : node) :
  let n' := after_chunk pdir pid name arr now n in
  (forall pid', pid <> pid' ->
     JsMap.get pid' (participantAudioStreams n')
     = JsMap.get pid' (participantAudioStreams n))
  /\ disk n' = disk n
  /\ dirs n ⊆ dirs n'.
Proof.
  intros n'. unfold n'. destruct arr as [|a arr]; [now repeat split|].
  rewrite after_chunk_cases by discriminate.
  destruct (existsSync (participant_dir pdir pid name) n).
  - destruct (ensure_stream_state (participant_dir pdir pid name) pid now n)
      as (Hd & Hs & Ho).
    destruct (ensure_stream _ pid now n) as [[[]|e] n1]; cbn [snd] in Hd, Hs, Ho.
    + destruct (write_chunk_state pid (a :: arr) n1) as (Hd2 & Hs2 & Ho2).
      split; [|split].
      * intros pid' Hne. rewrite Ho2 by exact Hne. now apply Ho.
      * congruence.
      * now rewrite Hs2.
    + now repeat split.
  - destruct (keeps_directory_block (participant_dir pdir pid name) pid n)
      as (Hd & Hs & _ & Hsub).
    split; [|now split]. intros pid' _. now rewrite Hs.
Qed.

End StreamFacts.

Lemma silence_gate_on_open_stream_witness :
  (forall arr, arr <> [] ->
     let n' := V2.after_chunk "p" "u1" "Ann" arr "1" V2.quiet_node in
     if forallb (fun a => Z.abs a <=? 3) (Streams.samples_of arr)
     then V2.counter "u1" n' = V2.counter "u1" V2.quiet_node + 1
          /\ V2.queued "u1" n'
             = (if 30 <? V2.counter "u1" V2.quiet_node + 1
                then V2.pending V2.quiet_stream
                else V2.pending V2.quiet_stream ++ Streams.as_bytes arr)
     else V2.counter "u1" n' = 0
          /\ V2.queued "u1" n' = V2.pending V2.quiet_stream ++ Streams.as_bytes arr)
  /\ (V2.counter "u1" V2.quiet_node = 0 ->
      forall (cs : list (list Z)) (loud : list Z),
      length cs = 40%nat ->
      Forall (fun arr => arr <> []
                         /\ Forall (fun a => -3 <= a <= 3) (Streams.samples_of arr)) cs ->
      loud <> [] -> Exists (fun a => 3 < Z.abs a) (Streams.samples_of loud) ->
      let n40 := V2.send_all "p" "u1" "Ann" "1" cs V2.quiet_node in
      let n41 := V2.after_chunk "p" "u1" "Ann" loud "1" n40 in
      V2.queued "u1" n40
        = V2.pending V2.quiet_stream ++ concat (map Streams.as_bytes (take 30 cs))
      /\ V2.counter "u1" n40 = 40
      /\ V2.queued "u1" n41
         = (V2.pending V2.quiet_stream ++ concat (map Streams.as_bytes (take 30 cs)))
           ++ Streams.as_bytes loud
      /\ V2.counter "u1" n41 = 0).
Proof.
  apply (silence_gate_on_open_stream "p" "Ann" "1" "u1" V2.quiet_node V2.quiet_stream);
    reflexivity.
Defined.

(** The scenario of the claim on an open stream, run: 40 chunks of two
    zero samples, then one chunk with the sample 1000 (bytes 232, 3). *)
Example forty_silent_then_speech :
  let n40 := V2.send_all "p" "u1" "Ann" "1" (replicate 40 [0; 0; 0; 0]) V2.quiet_node in
  let n41 := V2.after_chunk "p" "u1" "Ann" [232; 3] "1" n40 in
  V2.queued "u1" n40 = replicate 120 0
  /\ V2.counter "u1" n40 = 40
  /\ V2.queued "u1" n41 = replicate 120 0 ++ [232; 3]
  /\ V2.counter "u1" n41 = 0.
Proof. vm_compute. repeat split. Qed.

Lemma silence_statistics_witness :
  let n' := V2.send_all "p" "u1" "Ann" "1" [[0; 0]; []; [1; 2; 3; 4]] V2.quiet_node in
  Streams.stats_ok (Streams.stats "u1" n')
  /\ V2.totalChunks (Streams.stats "u1" n')
     = V2.totalChunks (Streams.stats "u1" V2.quiet_node)
       + Z.of_nat (length (Streams.accepted [[0; 0]; []; [1; 2; 3; 4]])).
Proof.
  apply (silence_statistics "p" "Ann" "1" "u1" [[0; 0]; []; [1; 2; 3; 4]]
           V2.quiet_node V2.quiet_stream).
  - reflexivity.
  - reflexivity.
  - vm_compute. repeat split; discriminate.
Defined.

Lemma chunk_after_close_dropped_witness :
  let n1 := V2.closeAudioFiles "m.raw" "m.wav" V2.quiet_node in
  let n2 := V2.after_chunk "p" "u1" "Ann" [0; 64] "1" n1 in
  V2.queued "u1" n2 = V2.queued "u1" n1
  /\ V2.disk n2 = V2.disk n1
  /\ ([0; 64] <> [] ->
      V2.totalChunks (Streams.stats "u1" n2) = V2.totalChunks (Streams.stats "u1" n1) + 1).
Proof.
  apply (chunk_after_close_dropped "p" "Ann" "1" "u1" "m.raw" "m.wav" [0; 64]
           V2.quiet_node V2.quiet_stream).
  - vm_compute. set_solver.
  - reflexivity.
Defined.

(** ** The end of the run in [meetbot-v2.js] *)

Section CloseMore.
Import V2 Streams.










(** A stream from its second chunk to its container: the chunk is given
    to the stream, the stream writes it, and the round finds it. *)
Example stream_to_container :
  let n1 := after_chunk "p" "u1" "Ann" [232; 3] "1" quiet_node in
  let n2 := closeAudioFiles "m.raw" "m.wav" (flush "u1" n1) in
  Fs.files (disk n2) !! wavPath quiet_stream
  = Some (Wav.canonical_header 2 16000 ++ [232; 3]).
Proof. vm_compute. reflexivity. Qed.

(** The same with the round running before the stream has written: the
    artifact is still empty, so it is deleted and no container is
    made. *)
Example container_missed :
  let n1 := after_chunk "p" "u1" "Ann" [232; 3] "1" quiet_node in
  let n2 := closeAudioFiles "m.raw" "m.wav" n1 in
  Fs.files (disk n2) !! wavPath quiet_stream = None
  /\ Fs.files (disk n2) !! rawPath quiet_stream = None
  /\ queued "u1" n2 = [232; 3].
Proof. vm_compute. repeat split. Qed.

End CloseMore.

Lemma chunk_touches_own_stream_only_witness :
  JsMap.get "u1"
    (V2.participantAudioStreams
       (V2.after_chunk "p" "u2" "Bob" [1; 2] "17" V2.quiet_node))
  = JsMap.get "u1" (V2.participantAudioStreams V2.quiet_node).
Proof.
  apply (chunk_touches_own_stream_only "p" "Bob" "17" "u2" [1; 2] V2.quiet_node).
  discriminate.
Defined.

(** ** More on the sample conversion *)

Section ConversionMore.
Import Transform.

Lemma quot_order (a c t1 t2 r1 r2 : Z) (b d : positive) :
  a * Zpos d <= c * Zpos b ->
  a = Zpos b * t1 + r1 -> c = Zpos d * t2 + r2 ->
  Z.abs r1 < Z.abs (Zpos b) -> Z.abs r2 < Z.abs (Zpos d) ->
  0 <= r1 * a -> 0 <= r2 * c -> t1 <= t2.
Proof.
  intros H E1 E2 B1 B2 S1 S2.
  destruct (Z.le_gt_cases t1 t2) as [?|Hgt]; [assumption|exfalso].
  assert (Hb : 0 < Zpos b) by lia. assert (Hd : 0 < Zpos d) by lia.
  set (B := Zpos b) in *. set (D := Zpos d) in *. clearbody B D.
  destruct (Z.le_gt_cases 1 t1).
  - assert (0 < a) by nia. assert (0 <= r1) by nia.
    assert (B * t1 <= a) by lia.
    assert (t1 * D <= c) by nia.
    assert (0 < c) by nia. assert (0 <= r2) by nia. nia.
  - assert (c < 0) by nia. assert (r2 <= 0) by nia.
    assert (c <= D * t2) by lia.
    assert (a <= t2 * B) by nia.
    nia.
Qed.

(** Truncation toward zero keeps the order. *)
Lemma Qtruncate_mono (p q : Q) : (p <= q)%Q -> Js.Qtruncate p <= Js.Qtruncate q.
Proof.
  destruct p as [a b], q as [c d]. unfold Qle, Js.Qtruncate. cbn. intros H.
  apply (quot_order a c _ _ (Z.rem a (Zpos b)) (Z.rem c (Zpos d)) b d H).
  - apply Z.quot_rem'.
  - apply Z.quot_rem'.
  - apply Z.rem_bound_abs. lia.
  - apply Z.rem_bound_abs. lia.
  - apply Z.rem_sign_mul. lia.
  - apply Z.rem_sign_mul. lia.
Qed.

Lemma clip_mono (p q : Q) : (p <= q)%Q -> (Audio.clip p <= Audio.clip q)%Q.
Proof.
  intros H. unfold Audio.clip.
  apply Q.max_le_compat_l, Q.min_le_compat_l, H.
Qed.

(** X16: The conversion keeps the order of the samples: a louder sample never
    becomes a smaller integer, zero stays zero, and so the sign of a
    sample is never flipped. *)
Theorem conversion_monotone (p q : Q) :
  (p <= q)%Q ->
  Audio.sample_to_i16 (Js.Fin p) <= Audio.sample_to_i16 (Js.Fin q)
  /\ Audio.sample_to_i16 (Js.Fin 0) = 0.
Proof.
  intros H. split; [|reflexivity].
  destruct (sample_to_i16_fin p) as [-> _]. destruct (sample_to_i16_fin q) as [-> _].
  unfold Audio.quantize. apply clip_mono in H.
  pose proof (clip_range p) as Rp. pose proof (clip_range q) as Rq.
  set (s1 := Audio.clip p) in *. set (s2 := Audio.clip q) in *. clearbody s1 s2.
  destruct (Js.Qltb s1 0) eqn:E1; destruct (Js.Qltb s2 0) eqn:E2.
  - apply Qtruncate_mono, Qmult_le_compat_r; [exact H|discriminate].
  - apply Qltb_lt in E1. apply Qltb_ge in E2.
    destruct (trunc_scaled s1 32768 ltac:(lia) Rp) as (_ & Hn & _).
    destruct (trunc_scaled s2 32767 ltac:(lia) Rq) as (_ & _ & Hp & _).
    specialize (Hn E1). specialize (Hp E2). cbn zeta in Hn, Hp.
    change (inject_Z 32768) with 32768%Q in Hn.
    change (inject_Z 32767) with 32767%Q in Hp. lia.
  - apply Qltb_ge in E1. apply Qltb_lt in E2. exfalso.
    apply (Qlt_irrefl 0). eapply Qle_lt_trans; [exact E1|].
    eapply Qle_lt_trans; [exact H|exact E2].
  - apply Qtruncate_mono, Qmult_le_compat_r; [exact H|discriminate].
Qed.

Lemma conversion_monotone_witness :
  Audio.sample_to_i16 (Js.Fin (-1 # 3)) <= Audio.sample_to_i16 (Js.Fin (1 # 7))
  /\ Audio.sample_to_i16 (Js.Fin 0) = 0.
Proof. apply (conversion_monotone (-1 # 3) (1 # 7)). discriminate. Defined.

Lemma byte_mod (v : Z) : (Z.land v 255) mod 256 = Z.land v 255.
Proof. rewrite byte_land. apply Z.mod_mod. lia. Qed.

(** The bytes of [f32ToI16] are bytes already: the bridge to Node hands
    them over unchanged. *)
Lemma to_u8_f32ToI16 (f32 : list Js.num) :
  V2.to_u8 (Audio.f32ToI16 f32) = Audio.f32ToI16 f32.
Proof.
  induction f32 as [|x l IH]; [reflexivity|].
  unfold Audio.f32ToI16, V2.to_u8 in *. cbn [flat_map Audio.i16le_bytes app map].
  rewrite !byte_mod. now rewrite IH.
Qed.

Lemma forallb_map_comp {A B} (f : B -> bool) (g : A -> B) (l : list A) :
  forallb f (map g l) = forallb (fun x => f (g x)) l.
Proof. induction l as [|x l IH]; [reflexivity|]. cbn. now rewrite IH. Qed.

(** X18: The silence test of the Node side, read on a chunk the page built
    with [f32ToI16LEBytes]: the chunk is silent exactly when every
    converted sample has magnitude at most 3. *)
Theorem page_chunk_silence (f32 : list Js.num) :
  V2.is_silent (second_transform_chunk f32)
  = forallb (fun x => Z.abs (Audio.sample_to_i16 x) <=? 3) f32.
Proof.
  unfold second_transform_chunk.
  rewrite is_silent_samples, to_u8_f32ToI16, f32ToI16_samples.
  unfold Audio.convertFloat32ToInt16. apply forallb_map_comp.
Qed.

(** X19: A chunk is silent for the Node side exactly when none of its 16-bit
    samples is further from zero than 3. *)
Theorem silent_within_three (arr : list Z) :
  V2.is_silent arr = true
  <-> Forall (fun a => -3 <= a <= 3) (V2.int16_samples (V2.to_u8 arr)).
Proof.
  rewrite is_silent_samples, forallb_forall, Forall_forall.
  split; intros H a Ha.
  - apply list_elem_of_In, H in Ha. apply Z.leb_le in Ha. lia.
  - apply Z.leb_le. apply list_elem_of_In, H in Ha. lia.
Qed.

Lemma num_order (acc ax y : Js.num) :
  Js.lt acc ax = true -> Js.lt acc y = false -> Js.lt ax y = false.
Proof.
  destruct acc as [|[|]|a], ax as [|[|]|b], y as [|[|]|c]; cbn;
    try discriminate; try reflexivity.
  intros H1 H2. apply Qltb_lt in H1. apply Qltb_ge in H2. apply Qltb_ge.
  apply Qlt_le_weak. eapply Qle_lt_trans; eassumption.
Qed.

Lemma num_lt_irrefl (x : Js.num) : Js.lt x x = false.
Proof.
  destruct x as [|[|]|a]; try reflexivity. cbn. apply Qltb_ge. apply Qle_refl.
Qed.

Lemma max_loop (l : list Js.num) :
  forall acc : Js.num,
  let step := fun max x => let absValue := Math_abs x in
                           if Js.lt max absValue then absValue else max in
  let r := fold_left step l acc in
  (acc <> Js.NaN -> r <> Js.NaN)
  /\ (forall y, Js.lt acc y = false -> Js.lt r y = false)
  /\ Forall (fun x => Js.lt r (Math_abs x) = false) l
  /\ (r = acc \/ Exists (fun x => r = Math_abs x) l).
Proof.
  induction l as [|x l IH]; intros acc; cbn zeta.
  - cbn. repeat split; auto.
  - cbn [fold_left].
    set (acc' := if Js.lt acc (Math_abs x) then Math_abs x else acc).
    destruct (IH acc') as (Hn & Hm & Hall & Hex). cbn zeta in *.
    assert (Hstep : forall y, Js.lt acc y = false -> Js.lt acc' y = false).
    { intros y Hy. unfold acc'. destruct (Js.lt acc (Math_abs x)) eqn:E; [|exact Hy].
      eapply num_order; eassumption. }
    assert (Hx : Js.lt acc' (Math_abs x) = false).
    { unfold acc'. destruct (Js.lt acc (Math_abs x)) eqn:E; [|exact E].
      apply num_lt_irrefl. }
    repeat split.
    + intros Ha. apply Hn. unfold acc'.
      destruct (Js.lt acc (Math_abs x)) eqn:E; [|exact Ha].
      intros Hnan. rewrite Hnan in E. now destruct acc as [|[|]|].
    + intros y Hy. apply Hm, Hstep, Hy.
    + constructor; [now apply Hm|exact Hall].
    + destruct Hex as [Hex|Hex].
      * rewrite Hex. unfold acc'.
        destruct (Js.lt acc (Math_abs x)); [right; now constructor|now left].
      * right. now constructor 2.
Qed.

(** X20: [calculateMaxAmplitude] returns the largest magnitude among the
    samples.  It is never NaN and never negative, no sample's magnitude
    exceeds it, and it is the magnitude of one of the samples unless it
    is 0; NaN samples are passed over. *)
Theorem calculateMaxAmplitude_is_max (l : list Js.num) :
  let r := calculateMaxAmplitude l in
  r <> Js.NaN
  /\ Js.lt r (Js.Fin 0) = false
  /\ Forall (fun x => Js.lt r (Math_abs x) = false) l
  /\ (r = Js.Fin 0 \/ Exists (fun x => r = Math_abs x) l).
Proof.
  destruct (max_loop l (Js.Fin 0)) as (Hn & Hm & Hall & Hex).
  cbn zeta in *. unfold calculateMaxAmplitude. repeat split.
  - now apply Hn.
  - now apply Hm.
  - exact Hall.
  - exact Hex.
Qed.

End ConversionMore.

(** ** The directory of the page across calls *)

Section AttributionMore.
Import Resolver.

Lemma set_add_keeps (x s : string) (l : list string) :
  In s l -> In s (set_add x l).
Proof.
  intros H. unfold set_add. destruct (existsb _ l); [exact H|].
  apply in_or_app. now left.
Qed.

Lemma set_add_has (x : string) (l : list string) : In x (set_add x l).
Proof.
  unfold set_add. destruct (existsb _ l) eqn:E.
  - apply existsb_exists in E as (y & Hy & Heq). apply String.eqb_eq in Heq. now subst y.
  - apply in_or_app. right. now left.
Qed.

Lemma associateStream_user (pid k : string) (streamId : option string)
    (um : UserManager) (u : user) :
  JsMap.get k (users um) = Some u ->
  exists u', JsMap.get k (users (associateStream pid streamId um)) = Some u'
    /\ participantId u' = participantId u /\ displayName u' = displayName u
    /\ joinTime u' = joinTime u
    /\ forall s, In s (streamIds u) -> In s (streamIds u').
Proof.
  intros Hk. unfold associateStream.
  destruct streamId as [sid|]; [|exists u; auto].
  destruct (truthy sid); [|exists u; auto].
  destruct (JsMap.get pid (users um)) as [v|] eqn:Hv; [|exists u; auto].
  cbn [users]. destruct (String.eqb_spec pid k) as [->|Hne].
  - rewrite get_set_eq. assert (v = u) by congruence. subst v.
    eexists. split; [reflexivity|]. cbn. repeat split.
    intros s. apply set_add_keeps.
  - rewrite get_set_ne by exact Hne. exists u. auto.
Qed.

Lemma associateStream_other (pid sid' : string) (streamId : option string)
    (um : UserManager) :
  streamId <> Some sid' ->
  JsMap.get sid' (streamToParticipant (associateStream pid streamId um))
  = JsMap.get sid' (streamToParticipant um).
Proof.
  intros Hne. unfold associateStream.
  destruct streamId as [sid|]; [|reflexivity].
  destruct (truthy sid); [|reflexivity].
  destruct (JsMap.get pid (users um)); [|reflexivity].
  cbn. apply get_set_ne. congruence.
Qed.

Lemma addUser_user (pid name now k : string) (um : UserManager) (u : user) :
  JsMap.get k (users um) = Some u ->
  JsMap.get k (users (addUser pid name now um)) = Some u.
Proof.
  intros Hk. unfold addUser, JsMap.has.
  destruct (JsMap.get pid (users um)) eqn:Hp; [exact Hk|].
  cbn. rewrite get_set_ne by congruence. exact Hk.
Qed.

Lemma um_step_user (c : um_call) (k : string) (um : UserManager) (u : user) :
  JsMap.get k (users um) = Some u ->
  exists u', JsMap.get k (users (um_step um c)) = Some u'
    /\ participantId u' = participantId u /\ displayName u' = displayName u
    /\ joinTime u' = joinTime u
    /\ forall s, In s (streamIds u) -> In s (streamIds u').
Proof.
  intros Hk. destruct c as [pid name now|pid streamId]; cbn [um_step].
  - exists u. split; [now apply addUser_user|auto].
  - now apply associateStream_user.
Qed.

Lemma um_step_spares (c : um_call) (sid : string) (um : UserManager) :
  spares sid c ->
  JsMap.get sid (streamToParticipant (um_step um c))
  = JsMap.get sid (streamToParticipant um).
Proof.
  destruct c as [pid name now|pid streamId]; cbn [um_step spares]; intros Hs.
  - unfold addUser. now destruct (JsMap.has _ _).
  - now apply associateStream_other.
Qed.

(** X21: The user manager of the page never forgets anybody: through
    any calls of [addUser] and [associateStream], the only methods that
    change it, a participant stays in the directory under the same
    identifier, display name and join time (a second [addUser] for an
    identifier does not rename it) and with at least the streams it
    had. *)
Theorem user_manager_only_grows (calls : list um_call) (um : UserManager) :
  forall k u, JsMap.get k (users um) = Some u ->
    exists u', JsMap.get k (users (um_run calls um)) = Some u'
      /\ participantId u' = participantId u /\ displayName u' = displayName u
      /\ joinTime u' = joinTime u
      /\ forall s, In s (streamIds u) -> In s (streamIds u').
Proof.
  unfold um_run. revert um. induction calls as [|c calls IH]; intros um k u Hk.
  - exists u. cbn. auto.
  - cbn [fold_left].
    destruct (um_step_user c k um u Hk) as (u1 & H1 & Hp1 & Hd1 & Hj1 & Hs1).
    destruct (IH _ k u1 H1) as (u2 & H2 & Hp2 & Hd2 & Hj2 & Hs2).
    exists u2. split; [exact H2|]. repeat split; try congruence.
    intros s Hs. apply Hs2, Hs1, Hs.
Qed.

Lemma user_manager_only_grows_witness :
  let ann := {| participantId := "p1"; displayName := "Ann";
                streamIds := ["s1"%string]; joinTime := "t0" |} in
  exists u', JsMap.get "p1"
               (users (um_run [AddUser "p1" "Anna" "t5";
                               AssociateStream "p1" (Some "s7"%string)]
                              example_manager)) = Some u'
    /\ participantId u' = participantId ann /\ displayName u' = displayName ann
    /\ joinTime u' = joinTime ann
    /\ forall s, In s (streamIds ann) -> In s (streamIds u').
Proof.
  intros ann.
  apply (user_manager_only_grows
           [AddUser "p1" "Anna" "t5"; AssociateStream "p1" (Some "s7"%string)]
           example_manager "p1" ann).
  reflexivity.
Defined.

(** The streams of a participant through any calls. *)
Lemma um_run_streams (calls : list um_call) (um : UserManager) (k : string) (u : user) :
  JsMap.get k (users um) = Some u ->
  exists u', JsMap.get k (users (um_run calls um)) = Some u'
    /\ forall s, In s (streamIds u) -> In s (streamIds u').
Proof.
  unfold um_run. revert um u. induction calls as [|c calls IH]; intros um u Hk.
  - exists u. cbn. auto.
  - cbn [fold_left].
    destruct (um_step_user c k um u Hk) as (u1 & H1 & _ & _ & _ & Hs1).
    destruct (IH _ u1 H1) as (u2 & H2 & Hs2).
    exists u2. split; [exact H2|]. intros s Hs. apply Hs2, Hs1, Hs.
Qed.

Lemma example_manager_well_keyed : well_keyed example_manager.
Proof. repeat constructor. Qed.

(** X22: A stream stays with the participant it was associated with:
    after [associateStream(participantId, streamId)] for a participant
    of the directory, [getParticipantByStreamId(streamId)] finds that
    participant, the stream among its streams, and goes on finding it
    through any later calls that do not associate the same stream
    again. *)
Theorem association_is_kept (um : UserManager) (pid sid : string)
    (calls : list um_call) :
  truthy pid = true -> truthy sid = true ->
  JsMap.has pid (users um) = true ->
  Forall (spares sid) calls ->
  exists u,
    getParticipantByStreamId sid
      (um_run calls (associateStream pid (Some sid) um)) = Some u
    /\ JsMap.get pid (users (um_run calls (associateStream pid (Some sid) um))) = Some u
    /\ In sid (streamIds u).
Proof.
  intros Hp Hs Hh Hall.
  set (um1 := associateStream pid (Some sid) um).
  assert (H1 : JsMap.get sid (streamToParticipant um1) = Some pid)
    by (now apply associateStream_assoc).
  assert (H2 : exists u1, JsMap.get pid (users um1) = Some u1 /\ In sid (streamIds u1)).
  { unfold um1, associateStream. rewrite Hs. unfold JsMap.has in Hh.
    destruct (JsMap.get pid (users um)) as [v|]; [|discriminate].
    cbn [users]. rewrite get_set_eq. eexists. split; [reflexivity|].
    cbn. apply set_add_has. }
  clearbody um1. destruct H2 as (u1 & Hu1 & Hin1).
  assert (Hsid : JsMap.get sid (streamToParticipant (um_run calls um1)) = Some pid).
  { clear Hu1. unfold um_run. revert um1 H1.
    induction Hall as [|c calls Hc _ IH]; intros um1 H1; [exact H1|].
    cbn [fold_left]. apply IH. now rewrite um_step_spares. }
  destruct (um_run_streams calls um1 pid u1 Hu1) as (u & Hu & Hin).
  exists u. split; [|split; [exact Hu|now apply Hin]].
  unfold getParticipantByStreamId. now rewrite Hsid, Hp.
Qed.

Lemma association_is_kept_witness :
  exists u,
    getParticipantByStreamId "s9"
      (um_run [AddUser "p2" "Bob" "t1"; AssociateStream "p2" (Some "s2"%string)]
              (associateStream "p1" (Some "s9"%string) example_manager)) = Some u
    /\ JsMap.get "p1"
         (users (um_run [AddUser "p2" "Bob" "t1"; AssociateStream "p2" (Some "s2"%string)]
                        (associateStream "p1" (Some "s9"%string) example_manager)))
       = Some u
    /\ In "s9"%string (streamIds u).
Proof.
  apply (association_is_kept example_manager "p1" "s9"
           [AddUser "p2" "Bob" "t1"; AssociateStream "p2" (Some "s2"%string)]).
  - reflexivity.
  - reflexivity.
  - reflexivity.
  - apply Forall_cons_2; [exact I|]. apply Forall_cons_2; [discriminate|]. apply Forall_nil_2.
Defined.

End AttributionMore.

(** ** The temporary file of the atomic JSON writer *)

Section AtomicMore.
Import Atomic.

(** X23: What a metadata write does beside the destination.  It touches no
    path other than the destination and its temporary file.  When it
    succeeds the temporary file is gone.  When it fails after the
    temporary file was written, nothing cleans up: the temporary file
    stays on disk, holding the complete document. *)
Theorem temporary_file_fate (e : env) (prev : option error)
    (file pid now rnd : string) (data : list Z) (d : disk) :
  let tmp := tmp_path file pid now rnd in
  let r := writeJsonAtomic e prev file pid now rnd data d in
  (forall p, p <> file -> p <> tmp -> files (snd r) !! p = files d !! p)
  /\ (fst r = Ok tt -> files (snd r) !! tmp = None)
  /\ (fst r <> Ok tt -> on_mkdir e = None -> prev = None -> on_write e = None ->
      files (snd r) !! tmp = Some data).
Proof.
  cbn zeta. pose proof (tmp_path_fresh file pid now rnd) as Hne.
  set (tmp := tmp_path file pid now rnd) in *.
  unfold writeJsonAtomic, run, ensureDir, writeFile, rename,
    copyFile, unlink, try_catch, throw, log_op, mbind, M_bind.
  fold tmp.
  destruct e as [mk wr rn cp ul]. cbn [on_mkdir on_write on_rename on_copy on_unlink].
  destruct mk as [emk|]; cbn [fst snd ops files].
  { repeat split; try discriminate; auto. }
  destruct prev as [eprev|]; cbn [fst snd ops files].
  { repeat split; try discriminate; auto. }
  destruct wr as [[[n|] ewr]|]; cbn [fst snd ops files].
  { repeat split; try discriminate.
    intros p _ Hp. now rewrite lookup_insert_ne by congruence. }
  { repeat split; try discriminate. }
  destruct rn as [ern|]; cbn [fst snd ops files].
  2:{ rewrite lookup_insert_eq. cbn [fst snd ops files]. repeat split.
      - intros p Hp Hp'. rewrite lookup_insert_ne by congruence.
        rewrite lookup_delete_ne by congruence.
        now rewrite lookup_insert_ne by congruence.
      - intros _. rewrite lookup_insert_ne by congruence. apply lookup_delete_eq.
      - congruence. }
  destruct (is_EXDEV ern) eqn:Hex.
  2:{ cbn [fst snd ops files]. repeat split; try discriminate.
      - intros p _ Hp. now rewrite lookup_insert_ne by congruence.
      - intros _ _ _ _. apply lookup_insert_eq. }
  destruct ern; try discriminate Hex. clear Hex.
  cbn [fst snd ops files]. rewrite lookup_insert_eq.
  destruct cp as [[[k|] ecp]|]; cbn [fst snd ops files].
  - repeat split; try discriminate.
    + intros p Hp Hp'. now rewrite !lookup_insert_ne by congruence.
    + intros _ _ _ _.
      rewrite lookup_insert_ne by congruence. apply lookup_insert_eq.
  - repeat split; try discriminate.
    + intros p Hp Hp'. rewrite lookup_delete_ne by congruence.
      now rewrite lookup_insert_ne by congruence.
    + intros _ _ _ _.
      rewrite lookup_delete_ne by congruence. apply lookup_insert_eq.
  - destruct ul as [eul|]; cbn [fst snd ops files].
    + repeat split; try discriminate.
      * intros p Hp Hp'. now rewrite !lookup_insert_ne by congruence.
      * intros _ _ _ _.
        rewrite lookup_insert_ne by congruence. apply lookup_insert_eq.
    + repeat split.
      * intros p Hp Hp'. rewrite lookup_delete_ne by congruence.
        now rewrite !lookup_insert_ne by congruence.
      * intros _. apply lookup_delete_eq.
      * congruence.
Qed.

Lemma temporary_file_fate_witness :
  files (snd (writeJsonAtomic fair None "m.json" "7" "1700" "k3"
                [123; 125] example_disk)) !! tmp_path "m.json" "7" "1700" "k3"
  = None
  /\ files (snd (writeJsonAtomic cross_volume_full None "m.json" "7" "1700" "k3"
                   [123; 125] example_disk)) !! tmp_path "m.json" "7" "1700" "k3"
     = Some [123; 125].
Proof.
  split.
  - apply (temporary_file_fate fair None "m.json" "7" "1700" "k3" [123; 125]
             example_disk). reflexivity.
  - apply (temporary_file_fate cross_volume_full None "m.json" "7" "1700" "k3"
             [123; 125] example_disk); [discriminate|reflexivity|reflexivity|reflexivity].
Defined.

End AtomicMore.

(** ** The session tables *)

Section SessionFacts.
Import Session.

Lemma upsert_other (now k : string) (ps : gmap string participant) (p : seen) :
  key p <> Some k -> upsert now ps p !! k = ps !! k.
Proof.
  intros H. unfold upsert. destruct (key p) as [id|]; [|reflexivity].
  assert (id <> k) by congruence.
  destruct (ps !! id); now rewrite lookup_insert_ne.
Qed.

Lemma upsert_same (now k : string) (ps : gmap string participant) (p : seen) :
  key p = Some k ->
  exists p', upsert now ps p !! k = Some p'
    /\ last_seen p' = now
    /\ first_seen p' = match ps !! k with Some old => first_seen old | None => now end
    /\ p_id p' = match ps !! k with Some old => p_id old | None => k end.
Proof.
  intros H. unfold upsert. rewrite H.
  destruct (ps !! k) as [old|]; rewrite lookup_insert_eq; eexists;
    (split; [reflexivity|]); cbn; auto.
Qed.

(** What an entry of the table keeps through one round. *)
Lemma upsert_keeps (now k : string) (ps : gmap string participant) (p : seen)
    (old : participant) :
  ps !! k = Some old ->
  exists p', upsert now ps p !! k = Some p'
    /\ p_id p' = p_id old /\ first_seen p' = first_seen old
    /\ (last_seen old = now -> last_seen p' = now)
    /\ (key p <> Some k -> p' = old).
Proof.
  intros Hk. destruct (decide (key p = Some k)) as [E|E].
  - destruct (upsert_same now k ps p E) as (p' & H1 & H2 & H3 & H4).
    rewrite Hk in H3, H4. exists p'. repeat split; auto. congruence.
  - rewrite (upsert_other now k ps p E). exists old. auto.
Qed.

Lemma onParticipants_keeps (arr : list seen) (now k : string) :
  forall (ps : gmap string participant) (old : participant),
  ps !! k = Some old ->
  exists p', onParticipants arr now ps !! k = Some p'
    /\ p_id p' = p_id old /\ first_seen p' = first_seen old
    /\ (last_seen old = now -> last_seen p' = now)
    /\ (Forall (fun p => key p <> Some k) arr -> p' = old).
Proof.
  induction arr as [|a arr IH]; intros ps old Hk.
  - exists old. auto.
  - unfold onParticipants. cbn [fold_left].
    destruct (upsert_keeps now k ps a old Hk) as (p1 & H1 & Hid & Hfs & Hls & Hsame).
    destruct (IH _ p1 H1) as (p' & H' & Hid' & Hfs' & Hls' & Hsame').
    exists p'. split; [exact H'|]. repeat split; try congruence.
    + auto.
    + intros Hall. inversion Hall as [|? ? Ha Harr]; subst.
      rewrite Hsame' by exact Harr. now apply Hsame.
Qed.

(** X24: The participants table never forgets: whoever is in it stays in it
    under the same identifier and with the time of the first sighting
    unchanged, and is not touched at all by an event that does not list
    that identifier. *)
Theorem participants_never_forgotten (arr : list seen) (now k : string)
    (ps : gmap string participant) (old : participant) :
  ps !! k = Some old ->
  exists p', onParticipants arr now ps !! k = Some p'
    /\ p_id p' = p_id old /\ first_seen p' = first_seen old
    /\ (Forall (fun p => key p <> Some k) arr -> p' = old).
Proof.
  intros Hk. destruct (onParticipants_keeps arr now k ps old Hk)
    as (p' & H & Hid & Hfs & _ & Hsame).
  exists p'. auto.
Qed.

Lemma participants_never_forgotten_witness :
  exists p', onParticipants [ann] "t1" {[ "u1"%string :=
               {| p_id := "u1"; display_name := "A."; first_seen := "t0";
                  last_seen := "t0" |} ]} !! "u1"%string = Some p'
    /\ p_id p' = "u1"%string /\ first_seen p' = "t0"%string
    /\ (Forall (fun p => key p <> Some "u1"%string) [ann] ->
        p' = {| p_id := "u1"; display_name := "A."; first_seen := "t0";
                last_seen := "t0" |}).
Proof.
  apply (participants_never_forgotten [ann] "t1" "u1"
           {[ "u1"%string := {| p_id := "u1"; display_name := "A.";
                                first_seen := "t0"; last_seen := "t0" |} ]}
           {| p_id := "u1"; display_name := "A."; first_seen := "t0";
              last_seen := "t0" |}).
  reflexivity.
Defined.











End SessionFacts.

(** ** The page hook *)

Section HookFacts.
Import Hook.

(** X27: After [hookUpdateStreamMap], a stream maps to the participant of
    the last element of the array that names the stream and carries
    both identifiers; a stream no such element names maps as before.
    Elements that are null or lack an identifier change nothing. *)
Theorem stream_map_last_wins (pairs : list (option pair)) (sid : string)
    (StreamMap : JsMap.t string) :
  JsMap.get sid (hookUpdateStreamMap pairs StreamMap)
  = match find (fun e => String.eqb sid (fst e)) (rev (omap assigns pairs)) with
    | Some e => Some (snd e)
    | None => JsMap.get sid StreamMap
    end.
Proof.
  induction pairs as [|p pairs IH] using rev_ind; [reflexivity|].
  unfold hookUpdateStreamMap in *. rewrite fold_left_app, omap_app, rev_app_distr.
  cbn [fold_left].
  change (omap assigns [p])
    with (match assigns p with Some e => [e] | None => [] end).
  destruct (assigns p) as [[s pid]|]; cbn [rev app find fst snd]; [|exact IH].
  destruct (String.eqb_spec sid s) as [->|Hne].
  - apply get_set_eq.
  - rewrite get_set_ne by congruence. exact IH.
Qed.

Lemma head_insert_desc (x : Resolver.csrc) (l : list Resolver.csrc) :
  head (insert_desc x l)
  = match head l with
    | None => Some x
    | Some h => if Js.Qltb (level x) (level h) then Some h else Some x
    end.
Proof. destruct l as [|y r]; [reflexivity|]. cbn. now destruct (Js.Qltb _ _). Qed.

Lemma head_sort_in (l : list Resolver.csrc) (h : Resolver.csrc) :
  head (sort_desc l) = Some h -> In h l.
Proof.
  revert h. induction l as [|x l IH]; intros h; [discriminate|].
  cbn [sort_desc fold_right]. rewrite head_insert_desc.
  fold (sort_desc l). destruct (head (sort_desc l)) as [h0|].
  - destruct (Js.Qltb _ _); intros [= <-]; [right; now apply IH|now left].
  - intros [= <-]. now left.
Qed.

(** The source the sort puts first: the first one of the highest level. *)
Lemma head_sort_desc (l1 l2 : list Resolver.csrc) (s : Resolver.csrc) :
  (forall y, In y l1 -> (level y < level s)%Q) ->
  (forall y, In y l2 -> (level y <= level s)%Q) ->
  head (sort_desc (l1 ++ s :: l2)) = Some s.
Proof.
  intros H1 H2. induction l1 as [|y l1 IH]; cbn [app sort_desc fold_right].
  - rewrite head_insert_desc. fold (sort_desc l2).
    destruct (head (sort_desc l2)) as [h|] eqn:E; [|reflexivity].
    apply head_sort_in, H2 in E. apply Qltb_ge in E. now rewrite E.
  - rewrite head_insert_desc. fold (sort_desc (l1 ++ s :: l2)).
    rewrite IH by (intros z Hz; apply H1; now right).
    assert (E : (level y < level s)%Q) by (apply H1; now left).
    apply Qltb_lt in E. now rewrite E.
Qed.

(** X28: The speaker the hook reports for a frame is the participant the
    stream map gives for the contributing source of the highest audio
    level, a missing level counting as 0, and for the first such source
    when several share that level; with no contributing source there is
    no speaker. *)
Theorem hook_speaker_is_loudest (l1 l2 : list Resolver.csrc) (s : Resolver.csrc)
    (StreamMap : JsMap.t string) :
  (forall y, In y l1 -> (level y < level s)%Q) ->
  (forall y, In y l2 -> (level y <= level s)%Q) ->
  speaker (l1 ++ s :: l2) StreamMap
  = match JsMap.get (pretty (Resolver.source s)) StreamMap with
    | Some pid => if Resolver.truthy pid then Some pid else None
    | None => None
    end
  /\ speaker [] StreamMap = None.
Proof.
  intros H1 H2. split; [|reflexivity].
  pose proof (head_sort_desc l1 l2 s H1 H2) as H. unfold speaker.
  destruct (sort_desc (l1 ++ s :: l2)) as [|top r]; [discriminate|].
  now injection H as ->.
Qed.

Lemma hook_speaker_is_loudest_witness :
  speaker ([{| Resolver.source := 7; Resolver.audioLevel := None |}]
             ++ {| Resolver.source := 11; Resolver.audioLevel := Some (1 # 2) |}
             :: [{| Resolver.source := 12; Resolver.audioLevel := Some (1 # 2) |}])
    [("11"%string, "p1"%string)]
  = match JsMap.get (pretty 11) [("11"%string, "p1"%string)] with
    | Some pid => if Resolver.truthy pid then Some pid else None
    | None => None
    end
  /\ speaker [] [("11"%string, "p1"%string)] = None.
Proof.
  apply (hook_speaker_is_loudest
           [{| Resolver.source := 7; Resolver.audioLevel := None |}]
           [{| Resolver.source := 12; Resolver.audioLevel := Some (1 # 2) |}]
           {| Resolver.source := 11; Resolver.audioLevel := Some (1 # 2) |}).
  - intros y [<-|[]]. reflexivity.
  - intros y [<-|[]]. discriminate.
Defined.

Lemma keys_set_in {V} (m : JsMap.t V) (k k' : string) (v : V) :
  In k' (JsMap.keys (JsMap.set k v m)) <-> k' = k \/ In k' (JsMap.keys m).
Proof.
  induction m as [|[k0 v0] m IH]; cbn.
  - split; [intros [<-|[]]; now left|intros [->|[]]; now left].
  - destruct (String.eqb_spec k k0) as [->|Hne]; cbn.
    + split; [intros [<-|H]; auto|intros [->|[<-|H]]; auto].
    + rewrite IH. split; [intros [<-|[->|H]]; auto|intros [->|[<-|H]]; auto].
Qed.

Lemma keys_set_nodup {V} (m : JsMap.t V) (k : string) (v : V) :
  List.NoDup (JsMap.keys m) -> List.NoDup (JsMap.keys (JsMap.set k v m)).
Proof.
  induction m as [|[k0 v0] m IH]; cbn; intros H.
  - constructor; [intros []|constructor].
  - inversion H as [|? ? Hnin Hnd]; subst.
    destruct (String.eqb_spec k k0) as [->|Hne]; cbn.
    + now constructor.
    + constructor; [|now apply IH].
      intros Hin. apply (proj1 (keys_set_in m k k0 v)) in Hin as [->|Hin];
        [congruence|contradiction].
Qed.

Lemma keyed_set (m : JsMap.t item) (it : item) :
  keyed m -> keyed (JsMap.set (it_track it) it m).
Proof.
  unfold keyed. induction m as [|[k0 v0] m IH]; cbn; intros H.
  - now repeat constructor.
  - inversion H as [|? ? H0 Hm]; subst.
    destruct (String.eqb (it_track it) k0); constructor; auto.
Qed.

Lemma keyed_values (m : JsMap.t item) :
  keyed m -> map it_track (JsMap.values m) = JsMap.keys m.
Proof.
  unfold keyed, JsMap.values, JsMap.keys. induction 1 as [|[k v] m Hk _ IH]; cbn.
  - reflexivity.
  - cbn in Hk. now rewrite Hk, IH.
Qed.

Lemma set_value_in {V} (m : JsMap.t V) (k : string) (v x : V) :
  In x (JsMap.values (JsMap.set k v m)) -> x = v \/ In x (JsMap.values m).
Proof.
  unfold JsMap.values. induction m as [|[k0 v0] m IH]; cbn.
  - intros [<-|[]]. now left.
  - destruct (String.eqb k k0); cbn.
    + intros [<-|H]; auto.
    + intros [<-|H]; auto. destruct (IH H); auto.
Qed.

Lemma waiting_fold (its : list item) :
  forall m : JsMap.t item,
  keyed m -> List.NoDup (JsMap.keys m) ->
  let m' := fold_left (fun m it => JsMap.set (it_track it) it m) its m in
  keyed m' /\ List.NoDup (JsMap.keys m')
  /\ (forall id, In id (JsMap.keys m')
                 <-> In id (map it_track its) \/ In id (JsMap.keys m))
  /\ (forall it, In it (JsMap.values m') -> In it its \/ In it (JsMap.values m)).
Proof.
  induction its as [|it its IH]; intros m Hk Hnd; cbn zeta.
  - cbn. repeat split; auto. intros [[]|H]; exact H.
  - cbn [fold_left map].
    destruct (IH _ (keyed_set m it Hk) (keys_set_nodup m (it_track it) it Hnd))
      as (Hk' & Hnd' & Hin & Hval). cbn zeta in *.
    split; [exact Hk'|]. split; [exact Hnd'|]. split.
    + intros id. rewrite Hin, keys_set_in. cbn. intuition congruence.
    + intros x Hx. destruct (Hval x Hx) as [H|H]; [left; now right|].
      apply set_value_in in H as [->|H]; [left; now left|now right].
Qed.

Lemma audio_items_cons (ev : track_event) (evs : list track_event) :
  audio_items (ev :: evs)
  = match audio_item ev with
    | Some it => it :: audio_items evs
    | None => audio_items evs
    end.
Proof. reflexivity. Qed.

Lemma run_before (evs : list track_event) :
  forall (m : JsMap.t item) (st : list item),
  run (map Track evs) {| ACTIVE := false; pending := m; started := st |}
  = {| ACTIVE := false;
       pending := fold_left (fun m it => JsMap.set (it_track it) it m)
                    (audio_items evs) m;
       started := st |}.
Proof.
  induction evs as [|ev evs IH]; intros m st; [reflexivity|].
  rewrite audio_items_cons. unfold run in *. cbn [map fold_left step].
  unfold on_track. destruct (audio_item ev) as [it|]; cbn [ACTIVE fold_left]; apply IH.
Qed.

Lemma run_after (evs : list track_event) :
  forall (m : JsMap.t item) (st : list item),
  run (map Track evs) {| ACTIVE := true; pending := m; started := st |}
  = {| ACTIVE := true; pending := m; started := st ++ audio_items evs |}.
Proof.
  induction evs as [|ev evs IH]; intros m st.
  - cbn. now rewrite app_nil_r.
  - rewrite audio_items_cons. unfold run in *. cbn [map fold_left step].
    unfold on_track. destruct (audio_item ev) as [it|]; cbn [ACTIVE].
    + rewrite IH. cbn [started pending]. now rewrite <- app_assoc.
    + apply IH.
Qed.

(** X29: The hook between installation and activation.  Audio tracks that
    arrive before [webrtcActivate] start no recorder; they wait, one
    entry per track identifier.  The activation starts one recorder
    for each waiting track and empties the waiting list.  From then on
    every audio track event starts a recorder at once, also for a track
    that already has one. *)
Theorem hook_activation (pre post : list track_event) :
  let p := run (map Track pre ++ Activate :: map Track post) installed in
  started (run (map Track pre) installed) = []
  /\ ACTIVE p = true /\ pending p = []
  /\ started p = JsMap.values (waiting pre) ++ audio_items post
  /\ List.NoDup (map it_track (JsMap.values (waiting pre)))
  /\ (forall id, In id (map it_track (JsMap.values (waiting pre)))
                 <-> In id (map it_track (audio_items pre)))
  /\ (forall it, In it (JsMap.values (waiting pre)) -> In it (audio_items pre)).
Proof.
  cbn zeta. unfold installed. rewrite run_before. split; [reflexivity|].
  unfold run at 1 2 3. rewrite !fold_left_app. cbn [fold_left step].
  fold (run (map Track pre) {| ACTIVE := false; pending := []; started := [] |}).
  rewrite run_before. unfold webrtcActivate. cbn [started pending app].
  match goal with |- context [fold_left step (map Track post) ?q] =>
    change (fold_left step (map Track post) q) with (run (map Track post) q)
  end.
  rewrite run_after. cbn [ACTIVE pending started]. fold (waiting pre).
  destruct (waiting_fold (audio_items pre) [] ltac:(constructor) ltac:(constructor))
    as (Hk & Hnd & Hin & Hval). cbn zeta in *. fold (waiting pre) in Hk, Hnd, Hin, Hval.
  repeat split; try reflexivity.
  - rewrite keyed_values by exact Hk. exact Hnd.
  - rewrite keyed_values by exact Hk. intros H. apply Hin in H as [H|[]]. exact H.
  - rewrite keyed_values by exact Hk. intros H. apply Hin. now left.
  - intros it H. destruct (Hval it H) as [H'|[]]. exact H'.
Qed.

End HookFacts.

(** ** The participant list of the meeting metadata *)

Section MeetingFacts.
Import Meeting.
Variable cleanDisplayName : string -> string.

Lemma cleaned_id (p : gmap string value) :
  cleaned cleanDisplayName p !! "participant_id"%string = p !! "participant_id"%string.
Proof.
  unfold cleaned. destruct (p !! "display_name"%string) as [[s|]|]; try reflexivity.
  destruct (truthy _); [|reflexivity]. now rewrite lookup_insert_ne.
Qed.

Lemma findIndex_some (id : option value) (l : list (gmap string value)) (i : nat) :
  findIndex id l = Some i -> ids l !! i = Some id.
Proof.
  revert i. induction l as [|p l IH]; intros i; cbn; [discriminate|].
  destruct (decide (p !! "participant_id"%string = id)) as [E|E].
  - intros [= <-]. cbn. now rewrite E.
  - destruct (findIndex id l) as [j|]; [|discriminate].
    intros [= <-]. cbn. now apply IH.
Qed.

Lemma findIndex_none (id : option value) (l : list (gmap string value)) :
  findIndex id l = None <-> ~ In id (ids l).
Proof.
  induction l as [|p l IH]; cbn; [tauto|].
  destruct (decide (p !! "participant_id"%string = id)) as [E|E].
  - split; [discriminate|]. intros H. exfalso. apply H. now left.
  - destruct (findIndex id l) as [j|] eqn:F; cbn.
    + split; [discriminate|]. intros H. exfalso.
      assert (Hn : ~ In id (ids l)) by tauto.
      apply IH in Hn. discriminate.
    + split; [|reflexivity]. intros _ [H|H]; [congruence|].
      now apply (proj1 IH).
Qed.

Lemma union_id (p old : gmap string value) (id : option value) :
  p !! "participant_id"%string = id -> old !! "participant_id"%string = id ->
  (p ∪ old) !! "participant_id"%string = id.
Proof.
  intros Hp Ho. destruct id as [v|].
  - now apply lookup_union_Some_l.
  - rewrite lookup_union_r by exact Hp. exact Ho.
Qed.

(** One round: the identifiers stay as they are when the participant's
    identifier is already listed, and the identifier goes last when it
    is not. *)
Lemma update_one_ids (l : list (gmap string value)) (p : gmap string value) :
  ids (update_one cleanDisplayName l p)
  = if decide (p !! "participant_id"%string ∈ ids l) then ids l
    else ids l ++ [p !! "participant_id"%string].
Proof.
  unfold update_one. rewrite cleaned_id.
  set (id := p !! "participant_id"%string).
  destruct (findIndex id l) as [i|] eqn:F.
  - pose proof (findIndex_some id l i F) as Hi.
    rewrite decide_True by (eapply list_elem_of_lookup_2; exact Hi).
    unfold ids in Hi. rewrite list_lookup_fmap in Hi.
    destruct (l !! i) as [old|] eqn:Hold; [|discriminate]. cbn in Hi.
    injection Hi as Hi. unfold ids.
    change (map ?f ?x) with (f <$> x). rewrite list_fmap_insert.
    apply list_insert_id. rewrite list_lookup_fmap, Hold. cbn. f_equal.
    symmetry. rewrite Hi. apply union_id; [apply cleaned_id|exact Hi].
  - apply findIndex_none in F.
    rewrite decide_False by (intros H; now apply list_elem_of_In in H).
    unfold ids. rewrite map_app. cbn. now rewrite cleaned_id.
Qed.

Lemma new_ids_spec (data : list (option value)) :
  forall known : list (option value),
  List.NoDup (new_ids known data)
  /\ (forall x, In x (new_ids known data) <-> In x data /\ ~ In x known).
Proof.
  induction data as [|id data IH]; intros known; cbn [new_ids].
  - split; [constructor|]. intros x. cbn. tauto.
  - destruct (decide (id ∈ known)) as [Hin|Hnin]; rewrite list_elem_of_In in *.
    + destruct (IH known) as [Hnd Hiff]. split; [exact Hnd|].
      intros x. rewrite Hiff. cbn. split; [tauto|].
      intros [[<-|Hx] Hk]; [contradiction|tauto].
    + destruct (IH (known ++ [id])) as [Hnd Hiff]. split.
      * constructor; [|exact Hnd]. rewrite Hiff. intros [_ H]. apply H.
        apply in_or_app. right. now left.
      * intros x. cbn. rewrite Hiff. rewrite in_app_iff. cbn. split.
        -- intros [<-|[Hx Hk]]; [tauto|]. split; [tauto|]. intros H. apply Hk. now left.
        -- intros [[<-|Hx] Hk]; [now left|].
           destruct (decide (id = x)) as [->|Hne]; [now left|].
           right. split; [exact Hx|]. intros [H|[H|[]]]; [contradiction|congruence].
Qed.

(** X30: The list of the meeting metadata after an update: the
    identifiers that were listed stay where they were, and the
    identifiers of the update that were not listed follow them, each
    once, in the order in which the update first mentions them; a list
    without repeated identifiers stays without. *)
Theorem meeting_participants_upsert (data : list (gmap string value)) :
  forall participants : list (gmap string value),
  ids (updateMeetingParticipants cleanDisplayName data participants)
  = ids participants ++ new_ids (ids participants) (ids data)
  /\ List.NoDup (new_ids (ids participants) (ids data))
  /\ (forall x, In x (new_ids (ids participants) (ids data))
                <-> In x (ids data) /\ ~ In x (ids participants))
  /\ (List.NoDup (ids participants) ->
      List.NoDup (ids (updateMeetingParticipants cleanDisplayName data participants))).
Proof.
  assert (E : forall l : list (gmap string value),
            ids (updateMeetingParticipants cleanDisplayName data l)
            = ids l ++ new_ids (ids l) (ids data)).
  { induction data as [|p data IH]; intros l.
    - cbn. now rewrite app_nil_r.
    - unfold updateMeetingParticipants in *. cbn [fold_left]. rewrite IH.
      rewrite update_one_ids. cbn [ids map new_ids].
      fold (ids data). set (id := p !! "participant_id"%string).
      destruct (decide (id ∈ ids l)); [reflexivity|].
      now rewrite <- app_assoc. }
  intros l. destruct (new_ids_spec (ids data) (ids l)) as [Hnd Hiff].
  split; [apply E|]. split; [exact Hnd|]. split; [exact Hiff|].
  intros Hl. rewrite E. apply NoDup_ListNoDup, NoDup_app. repeat split.
  - now apply NoDup_ListNoDup.
  - intros x Hx Hx'. rewrite list_elem_of_In in Hx, Hx'.
    apply Hiff in Hx'. tauto.
  - now apply NoDup_ListNoDup.
Qed.

End MeetingFacts.

Example meeting_participants_upsert_example :
  Meeting.ids
    (Meeting.updateMeetingParticipants (fun s => s)
       [Meeting.person "u3" "Cy"; Meeting.person "u1" "Ann B"; Meeting.person "u2" "Bob";
        Meeting.person "u3" "Cy"]
       [Meeting.person "u1" "Ann"])
  = [Some (Meeting.Str "u1"); Some (Meeting.Str "u3"); Some (Meeting.Str "u2")].
Proof. vm_compute. reflexivity. Qed.

Example hook_activation_example :
  Hook.started
    (Hook.run [Hook.Track (Hook.audio_event "t1" "s1");
               Hook.Track (Hook.audio_event "t1" "s2");
               Hook.Activate;
               Hook.Track (Hook.audio_event "t1" "s2")] Hook.installed)
  = [{| Hook.it_track := "t1"; Hook.it_streamId := Some "s2"%string;
        Hook.it_mid := Some "0"%string |};
     {| Hook.it_track := "t1"; Hook.it_streamId := Some "s2"%string;
        Hook.it_mid := Some "0"%string |}].
Proof. reflexivity. Qed.

Lemma silent_within_three_witness : V2.is_silent [3; 0; 253; 255] = true.
Proof.
  apply (proj2 (silent_within_three [3; 0; 253; 255])).
  repeat constructor; vm_compute; discriminate.
Defined.

Lemma hook_activation_witness :
  In {| Hook.it_track := "t1"; Hook.it_streamId := Some "s2"%string;
        Hook.it_mid := Some "0"%string |}
     (Hook.audio_items [Hook.audio_event "t1" "s1"; Hook.audio_event "t1" "s2"]).
Proof.
  apply (hook_activation [Hook.audio_event "t1" "s1"; Hook.audio_event "t1" "s2"] []).
  left. reflexivity.
Defined.
